(** * Game-tree search: Minimax, alpha-beta pruning and the concurrent driver

    A shallow embedding of the search engine of package [csa]
    (minimax.go, minimax_concurrent.go) together with the tic-tac-toe and
    checkers models used by its tests, and the properties of the engine
    and of the two models proved over that embedding. *)

From Stdlib Require Import ZArith List Bool Lia Permutation.
Import ListNotations.
Local Open Scope Z_scope.

(** ** Machine integers

    Go's [int] is a 64-bit two's complement integer.  Values are kept in
    [Z]; arithmetic that can leave the range is wrapped explicitly. *)

Definition MinInt : Z := Eval cbv in - 2 ^ 63.
Definition MaxInt : Z := Eval cbv in 2 ^ 63 - 1.

(** Reduction modulo 2^64 into the signed range.  Values already in range
    are returned as they are, which is what the reduction gives for them
    ([wrap_spec]). *)
Definition wrap (z : Z) : Z :=
  if (MinInt <=? z) && (z <=? MaxInt) then z
  else (z + 9223372036854775808) mod 18446744073709551616 - 9223372036854775808.

Lemma wrap_spec (z : Z) :
  wrap z = (z + 9223372036854775808) mod 18446744073709551616 - 9223372036854775808.
Proof.
  unfold wrap, MinInt, MaxInt.
  destruct (Z.leb_spec (-9223372036854775808) z); simpl; [|reflexivity].
  destruct (Z.leb_spec z 9223372036854775807); simpl; [|reflexivity].
  rewrite Z.mod_small; lia.
Qed.

Lemma wrap_int (z : Z) : MinInt <= wrap z <= MaxInt.
Proof.
  rewrite wrap_spec. unfold MinInt, MaxInt.
  pose proof (Z.mod_pos_bound (z + 9223372036854775808) 18446744073709551616 eq_refl).
  lia.
Qed.

Lemma wrap_small (z : Z) : MinInt <= z <= MaxInt -> wrap z = z.
Proof.
  rewrite wrap_spec. unfold MinInt, MaxInt. intros Hz.
  rewrite Z.mod_small; lia.
Qed.

(** ** The [SearchNode] interface

    [generator] is the state captured by the closure that
    [SearchNodeGenerator()] returns; [invoke] is one call of that closure:
    it yields the next child (or [None] for Go's [nil]) and the updated
    closure state.  [Score_int] records that [Score()] has type [int]. *)

Class SearchNode (node : Type) := {
  generator : Type;
  Score : node -> Z;
  IsTerminal : node -> bool;
  SearchNodeGenerator : node -> generator;
  invoke : generator -> bool -> option node * generator;
  Score_int : forall n, MinInt <= Score n <= MaxInt
}.

Definition MinimaxInitScore (maximizing : bool) : Z :=
  if maximizing then MinInt else MaxInt.

Section Engine.

Context {node : Type} {SN : SearchNode node}.

(** A returned pair [(SearchNode, int)]; [None] in the first component is
    the nil interface value. *)
Definition result : Type := option node * Z.

(** *** Minimax (minimax.go, lines 15-34) *)

(** The [for generator := ...; ; { ... }] loop of [Minimax].  [rec] is the
    recursive call on a child; [k] bounds the number of generator
    invocations.  Running out of [k], or a recursive call that does not
    return, gives [None]. *)
Fixpoint minimaxLoop (rec : node -> option result) (maximizing : bool) (k : nat)
    (gen : generator) (bestNode : option node) (bestScore : Z) : option result :=
  match k with
  | O => None
  | S k' =>
    match invoke gen maximizing with
    | (None, _) => Some (bestNode, bestScore)
    | (Some childNode, gen') =>
      match rec childNode with
      | None => None
      | Some (_, newScore) =>
        if (maximizing && (newScore >=? bestScore)) || (negb maximizing && (newScore <=? bestScore))
        then minimaxLoop rec maximizing k' gen' (Some childNode) newScore
        else minimaxLoop rec maximizing k' gen' bestNode bestScore
      end
    end
  end.

Fixpoint Minimax (fuel : nat) (n : node) (depth : Z) (maximizing : bool) : option result :=
  match fuel with
  | O => None
  | S fuel' =>
    if (depth =? 0) || IsTerminal n then Some (Some n, Score n)
    else minimaxLoop (fun childNode => Minimax fuel' childNode (wrap (depth - 1)) (negb maximizing))
           maximizing fuel' (SearchNodeGenerator n) None (MinimaxInitScore maximizing)
  end.

(** *** Alpha-beta pruning (minimax.go, lines 36-73) *)

(** The variables a call frame of [minimaxAlphaBetaPrunningImpl] updates. *)
Record abFrame : Type := mkFrame {
  alpha : Z;
  beta : Z;
  bestNode : option node;
  bestScore : Z
}.

(** The body of the loop after the recursive call returned [newScore]. *)
Definition abUpdate (maximizing : bool) (childNode : node) (newScore : Z) (fr : abFrame) : abFrame :=
  if maximizing then
    if newScore >? alpha fr then mkFrame newScore (beta fr) (Some childNode) newScore else fr
  else
    if newScore <? beta fr then mkFrame (alpha fr) newScore (Some childNode) newScore else fr.

Fixpoint alphaBetaLoop (rec : node -> Z -> Z -> option result) (maximizing : bool) (k : nat)
    (gen : generator) (fr : abFrame) : option result :=
  match k with
  | O => None
  | S k' =>
    match invoke gen maximizing with
    | (None, _) => Some (bestNode fr, bestScore fr)
    | (Some childNode, gen') =>
      match rec childNode (alpha fr) (beta fr) with
      | None => None
      | Some (_, newScore) =>
        let fr' := abUpdate maximizing childNode newScore fr in
        if alpha fr' >=? beta fr' then Some (bestNode fr', bestScore fr')
        else alphaBetaLoop rec maximizing k' gen' fr'
      end
    end
  end.

Fixpoint minimaxAlphaBetaPrunningImpl (fuel : nat) (n : node) (depth alpha0 beta0 : Z)
    (maximizing : bool) : option result :=
  match fuel with
  | O => None
  | S fuel' =>
    if (depth <=? 0) || IsTerminal n then Some (Some n, Score n)
    else alphaBetaLoop
           (fun childNode a b => minimaxAlphaBetaPrunningImpl fuel' childNode (wrap (depth - 1)) a b (negb maximizing))
           maximizing fuel' (SearchNodeGenerator n)
           (mkFrame alpha0 beta0 None (MinimaxInitScore maximizing))
  end.

Definition MinimaxAlphaBetaPrunning (fuel : nat) (n : node) (depth : Z) (maximizing : bool) : option result :=
  minimaxAlphaBetaPrunningImpl fuel n depth MinInt MaxInt maximizing.

(** *** The concurrent driver (minimax_concurrent.go) *)

Record workerJob : Type := mkJob {
  job_id : Z;
  job_node : node;
  job_depth : Z;
  job_maximizing : bool
}.

Record workerResult : Type := mkResult {
  res_jobId : Z;
  res_node : option node;
  res_score : Z
}.

(** One iteration of the worker's [for job := range jobs] loop. *)
Definition minimaxConcurrentWorker (fuel : nat) (job : workerJob) : option workerResult :=
  match MinimaxAlphaBetaPrunning fuel (job_node job) (job_depth job) (job_maximizing job) with
  | None => None
  | Some (_, score) => Some (mkResult (job_id job) (Some (job_node job)) score)
  end.

(** Every job is taken by exactly one worker; the results are listed here
    in job order, the order of arrival is chosen by the schedule below. *)
Fixpoint runWorkers (fuel : nat) (jobs : list workerJob) : option (list workerResult) :=
  match jobs with
  | [] => Some []
  | job :: jobs' =>
    match minimaxConcurrentWorker fuel job, runWorkers fuel jobs' with
    | Some r, Some rs => Some (r :: rs)
    | _, _ => None
    end
  end.

(** The feeder's loop: the jobs it sends, in order, and the count it
    finally sends on [totalJobs]. *)
Fixpoint feederLoop (k : nat) (gen : generator) (depth : Z) (maximizing : bool) (counter : Z)
    : option (list workerJob * Z) :=
  match k with
  | O => None
  | S k' =>
    match invoke gen maximizing with
    | (None, _) => Some ([], counter)
    | (Some childNode, gen') =>
      match feederLoop k' gen' depth maximizing (wrap (counter + 1)) with
      | None => None
      | Some (jobs, total) =>
        Some (mkJob counter childNode (wrap (depth - 1)) (negb maximizing) :: jobs, total)
      end
    end
  end.

Definition minimaxConcurrentFeeder (k : nat) (n : node) (depth : Z) (maximizing : bool)
    : option (list workerJob * Z) :=
  feederLoop k (SearchNodeGenerator n) depth maximizing 0.

(** What the consumer's [select] receives. *)
Inductive delivery : Type :=
| FromResults (r : workerResult)
| FromTotalJobs (n : Z).

(** The two [if] statements of the [case result := <-results] branch. *)
Definition consumerAccept (maximizing : bool) (best r : workerResult) : workerResult :=
  let best1 :=
    if (maximizing && (res_score r >? res_score best)) || (negb maximizing && (res_score r <? res_score best))
    then r else best in
  if (res_score r =? res_score best1) && (res_jobId r <? res_jobId best1) then r else best1.

(** The consumer's loop over the sequence of deliveries.  An exhausted
    sequence before the exit condition holds means the consumer blocks
    forever. *)
Fixpoint consumerLoop (maximizing : bool) (ds : list delivery) (best : workerResult)
    (numResults numJobs : Z) : option result :=
  match ds with
  | [] => None
  | d :: ds' =>
    let '(best', numResults', numJobs') :=
      match d with
      | FromResults r => (consumerAccept maximizing best r, wrap (numResults + 1), numJobs)
      | FromTotalJobs n => (best, numResults, n)
      end in
    if (numJobs' >=? 0) && (numResults' =? numJobs') then Some (res_node best', res_score best')
    else consumerLoop maximizing ds' best' numResults' numJobs'
  end.

Definition initBest (maximizing : bool) : workerResult :=
  mkResult (-1) None (MinimaxInitScore maximizing).

Definition minimaxConcurrentConsumer (maximizing : bool) (ds : list delivery) : option result :=
  consumerLoop maximizing ds (initBest maximizing) 0 (-1).

(** A run of the goroutines is determined, as far as the consumer can
    observe, by the order in which results arrive and by how many of them
    are received before the job count.  Channel capacities only bound how
    far the feeder and the workers can run ahead. *)
Record schedule : Type := mkSchedule {
  arrival : list workerResult -> list workerResult;
  countAfter : nat
}.

Definition fairSchedule (sched : schedule) : Prop :=
  forall rs, Permutation rs (arrival sched rs).

Definition deliveries (sched : schedule) (rs : list workerResult) (total : Z) : list delivery :=
  let arrived := arrival sched rs in
  map FromResults (firstn (countAfter sched) arrived)
    ++ FromTotalJobs total :: map FromResults (skipn (countAfter sched) arrived).

(** [make(chan _, workers*5)] panics for a negative worker count, and with
    no worker nobody ever receives a job the feeder wants to send.  Apart
    from that the pool size and the channel capacities only decide which
    schedules can occur; the goroutines and buffers are assumed to be
    allocated. *)
Definition MinimaxConcurrent (fuel : nat) (sched : schedule) (n : node) (depth : Z)
    (maximizing : bool) (workers : Z) : option result :=
  if (depth =? 0) || IsTerminal n then Some (Some n, Score n)
  else if workers <? 0 then None
  else
    match minimaxConcurrentFeeder fuel n depth maximizing with
    | None => None
    | Some (jobs, total) =>
      if (workers =? 0) && negb (length jobs =? 0)%nat then None
      else
        match runWorkers fuel jobs with
        | None => None
        | Some rs => minimaxConcurrentConsumer maximizing (deliveries sched rs total)
        end
    end.

(** [prefers maximizing r1 r2]: the consumer replaces a best result [r2]
    by an incoming [r1], that is, [r1] has the strictly better score for
    the side to move, or the same score and a smaller job id. *)
Definition prefers (maximizing : bool) (r1 r2 : workerResult) : Prop :=
  (if maximizing then res_score r2 < res_score r1 else res_score r1 < res_score r2)
  \/ (res_score r1 = res_score r2 /\ res_jobId r1 < res_jobId r2).

End Engine.

Arguments result : clear implicits.
Arguments abFrame : clear implicits.
Arguments workerJob : clear implicits.
Arguments workerResult : clear implicits.
Arguments delivery : clear implicits.
Arguments schedule : clear implicits.

(** ** Tic-tac-toe (the model used by the engine's tests) *)

Module TicTacToe.

Definition cross : Z := -1.
Definition empty : Z := 0.
Definition circle : Z := 1.

(** [board [3][3]int], row by row. *)
Record tttNode : Type := mkBoard {
  b00 : Z; b01 : Z; b02 : Z;
  b10 : Z; b11 : Z; b12 : Z;
  b20 : Z; b21 : Z; b22 : Z
}.

Definition emptyBoard : tttNode := mkBoard 0 0 0 0 0 0 0 0 0.

(** [node.board[y][x]] for indices inside the array. *)
Definition cell (n : tttNode) (y x : nat) : Z :=
  match y, x with
  | 0, 0 => b00 n | 0, 1 => b01 n | 0, 2 => b02 n
  | 1, 0 => b10 n | 1, 1 => b11 n | 1, 2 => b12 n
  | 2, 0 => b20 n | 2, 1 => b21 n | 2, 2 => b22 n
  | _, _ => 0%Z
  end%nat.

(** [nodeCopy.board[y][x] = v] on a copy of the node. *)
Definition setCell (n : tttNode) (y x : nat) (v : Z) : tttNode :=
  match n with
  | mkBoard c00 c01 c02 c10 c11 c12 c20 c21 c22 =>
    match y, x with
    | 0, 0 => mkBoard v c01 c02 c10 c11 c12 c20 c21 c22
    | 0, 1 => mkBoard c00 v c02 c10 c11 c12 c20 c21 c22
    | 0, 2 => mkBoard c00 c01 v c10 c11 c12 c20 c21 c22
    | 1, 0 => mkBoard c00 c01 c02 v c11 c12 c20 c21 c22
    | 1, 1 => mkBoard c00 c01 c02 c10 v c12 c20 c21 c22
    | 1, 2 => mkBoard c00 c01 c02 c10 c11 v c20 c21 c22
    | 2, 0 => mkBoard c00 c01 c02 c10 c11 c12 v c21 c22
    | 2, 1 => mkBoard c00 c01 c02 c10 c11 c12 c20 v c22
    | 2, 2 => mkBoard c00 c01 c02 c10 c11 c12 c20 c21 v
    | _, _ => n
    end%nat
  end.

Definition isInRow (a b c : Z) : bool :=
  negb (a =? empty) && (a =? b) && (b =? c).

(** The index pairs [(y, x)] in the order of [for y ... { for x ... } }]. *)
Definition squares : list (nat * nat) := Eval cbv in list_prod (seq 0 3) (seq 0 3).

Definition numberEmptySquares (n : tttNode) : Z :=
  fold_left (fun num yx => if cell n (fst yx) (snd yx) =? empty then num + 1 else num) squares 0.

(** The [for i := 0; i < 3; i++] loop of [anyFullRow], from index [i]
    with [k] iterations left, followed by the diagonal test. *)
Fixpoint anyFullRowFrom (n : tttNode) (k i : nat) : bool * Z :=
  match k with
  | O =>
    if isInRow (cell n 0 0) (cell n 1 1) (cell n 2 2) || isInRow (cell n 2 0) (cell n 1 1) (cell n 0 2)
    then (true, cell n 1 1) else (false, empty)
  | S k' =>
    if isInRow (cell n i 0) (cell n i 1) (cell n i 2) then (true, cell n i 0)
    else if isInRow (cell n 0 i) (cell n 1 i) (cell n 2 i) then (true, cell n 0 i)
    else anyFullRowFrom n k' (S i)
  end.

Definition anyFullRow (n : tttNode) : bool * Z := anyFullRowFrom n 3 0.

Definition tttScore (n : tttNode) : Z :=
  let '(_, symbol) := anyFullRow n in
  wrap (symbol * (numberEmptySquares n + 1)).

Definition tttIsTerminal (n : tttNode) : bool :=
  let '(row, _) := anyFullRow n in
  row || (numberEmptySquares n =? 0).

(** The variables captured by the closure of [SearchNodeGenerator]. *)
Record tttGenerator : Type := mkGen {
  gen_node : tttNode;
  gen_x : nat;
  gen_y : nat
}.

Definition symbolOf (maximizing : bool) : Z := if maximizing then circle else cross.

(** The nested [for y < 3 { for x < 3 { ... } x = 0; y++ }] of the closure;
    [steps] bounds the number of loop tests.  From any position at most
    fourteen tests are made. *)
Fixpoint scan (steps : nat) (n : tttNode) (x y : nat) (symbol : Z) : option tttNode * tttGenerator :=
  match steps with
  | O => (None, mkGen n x y)
  | S steps' =>
    if (y <? 3)%nat then
      if (x <? 3)%nat then
        if cell n y x =? empty then (Some (setCell n y x symbol), mkGen n (S x) y)
        else scan steps' n (S x) y symbol
      else scan steps' n 0%nat (S y) symbol
    else (None, mkGen n x y)
  end.

Definition tttInvoke (g : tttGenerator) (maximizing : bool) : option tttNode * tttGenerator :=
  scan 16 (gen_node g) (gen_x g) (gen_y g) (symbolOf maximizing).

Definition tttSearchNodeGenerator (n : tttNode) : tttGenerator := mkGen n 0 0.

Lemma tttScore_int (n : tttNode) : MinInt <= tttScore n <= MaxInt.
Proof. unfold tttScore. destruct (anyFullRow n). apply wrap_int. Qed.

#[export] Instance tttSearchNode : SearchNode tttNode := {|
  generator := tttGenerator;
  Score := tttScore;
  IsTerminal := tttIsTerminal;
  SearchNodeGenerator := tttSearchNodeGenerator;
  invoke := tttInvoke;
  Score_int := tttScore_int
|}.

(** The loop of [TestTTTSingleMinimax]: [i] times
    [newNode, _ := Minimax(sn, 9, false); sn = newNode].  A nil [newNode]
    makes the next method call panic, hence [None]. *)
Fixpoint singleMinimax (fuel : nat) (i : nat) (sn : tttNode) : option tttNode :=
  match i with
  | O => Some sn
  | S i' =>
    match Minimax fuel sn 9 false with
    | Some (Some newNode, _) => singleMinimax fuel i' newNode
    | _ => None
    end
  end.

(** The loop of [TestTTTBestMinimaxVsBestMinimax]: as above, with
    [maximizing = !maximizing] after every call. *)
Fixpoint bestVsBest (fuel : nat) (i : nat) (sn : tttNode) (maximizing : bool) : option tttNode :=
  match i with
  | O => Some sn
  | S i' =>
    match Minimax fuel sn 9 maximizing with
    | Some (Some newNode, _) => bestVsBest fuel i' newNode (negb maximizing)
    | _ => None
    end
  end.

End TicTacToe.

(** ** Explicitly given game trees

    A second implementation of the interface, used to instantiate the
    general theorems: a node carries its score, its terminal flag and the
    list of its children; the generator hands the children out one by one,
    whatever side is passed. *)

Module GameTree.

#[warnings="-register-all"]
Inductive tree : Type :=
| Tree (score : Z) (terminal : bool) (children : list tree).

Definition treeRawScore (t : tree) : Z := let '(Tree s _ _) := t in s.
Definition treeScore (t : tree) : Z := wrap (treeRawScore t).
Definition treeIsTerminal (t : tree) : bool := let '(Tree _ b _) := t in b.
Definition treeChildren (t : tree) : list tree := let '(Tree _ _ cs) := t in cs.

Definition treeInvoke (g : list tree) (maximizing : bool) : option tree * list tree :=
  match g with
  | [] => (None, [])
  | c :: g' => (Some c, g')
  end.

#[export] Instance treeSearchNode : SearchNode tree := {|
  generator := list tree;
  Score := treeScore;
  IsTerminal := treeIsTerminal;
  SearchNodeGenerator := treeChildren;
  invoke := treeInvoke;
  Score_int := fun t => wrap_int (treeRawScore t)
|}.

Definition leaf (s : Z) : tree := Tree s true [].

End GameTree.

(** ** Checkers (the second model of the engine's tests) *)

Module Checkers.

(** Single figure scores, pawn directions and score coefficients. *)
Definition pawnScore : Z := 1.
Definition kingScore : Z := 3.
Definition whitePawnDir : Z := -1.
Definition blackPawnDir : Z := 1.
Definition whiteCoef : Z := -1.
Definition blackCoef : Z := 1.

(** The color indices [white = 0], [black = 1] and the figure indices
    [pawns = 0], [kings = 1] of [board [2][2]uint64]. *)
Inductive color : Type := white | black.
Inductive figure : Type := pawns | kings.

(** [1 << index] at type [uint64], for a shift count [0 <= index]: bits
    shifted beyond bit 63 are lost.  (A negative count panics; the program
    passes none, every index is tested against the board first.) *)
Definition shl1 (index : Z) : Z := if index <? 64 then Z.shiftl 1 index else 0.

Definition isBit (num index : Z) : bool := negb (Z.land num (shl1 index) =? 0).

Definition clearBit (num index : Z) : Z := Z.ldiff num (shl1 index).

Definition setBit (num index : Z) : Z := Z.lor (clearBit num index) (shl1 index).

Definition enemyColor (c : color) : color :=
  match c with white => black | black => white end.

Definition abs (val : Z) : Z := if val <? 0 then wrap (- val) else val.

(** Go's [/] and [%] truncate towards zero: [Z.quot] and [Z.rem]. *)
Definition offsetInBoard (index offset : Z) : bool :=
  wrap (abs (wrap (Z.quot index 8 - Z.quot (abs (wrap (index + offset))) 8))
        + abs (wrap (Z.rem index 8 - Z.rem (abs (wrap (index + offset))) 8))) <=? 2.

(** [board [2][2]uint64], indexed [board[units][color]].  The field
    [nodeHistory] is a reference to a map shared by all nodes of a game;
    it is kept apart, as the store [cNodeHistory] below. *)
Record cNode : Type := mkCNode {
  pawnsWhite : Z; pawnsBlack : Z;
  kingsWhite : Z; kingsBlack : Z
}.

Definition board (node : cNode) (units : figure) (c : color) : Z :=
  match units, c with
  | pawns, white => pawnsWhite node | pawns, black => pawnsBlack node
  | kings, white => kingsWhite node | kings, black => kingsBlack node
  end.

(** [node.board[units][c] = v] on a copy of the node. *)
Definition setBoard (node : cNode) (units : figure) (c : color) (v : Z) : cNode :=
  match units, c with
  | pawns, white => mkCNode v (pawnsBlack node) (kingsWhite node) (kingsBlack node)
  | pawns, black => mkCNode (pawnsWhite node) v (kingsWhite node) (kingsBlack node)
  | kings, white => mkCNode (pawnsWhite node) (pawnsBlack node) v (kingsBlack node)
  | kings, black => mkCNode (pawnsWhite node) (pawnsBlack node) (kingsWhite node) v
  end.

(** [cNode{}], also the board of [cNodeEmpty()]. *)
Definition cNodeZero : cNode := mkCNode 0 0 0 0.

(** [n.board == searchNode.board]. *)
Definition boardEq (n m : cNode) : bool :=
  (pawnsWhite n =? pawnsWhite m) && (pawnsBlack n =? pawnsBlack m) &&
  (kingsWhite n =? kingsWhite m) && (kingsBlack n =? kingsBlack m).

Definition boardMask (node : cNode) : Z :=
  Z.lor (Z.lor (Z.lor (board node pawns black) (board node kings black))
               (board node pawns white)) (board node kings white).

(** [map[uint64][]cNode]: the slice stored under a mask, if any. *)
Definition cNodeHistory : Type := Z -> option (list cNode).

(** [make(cNodeHistory)]. *)
Definition emptyHistory : cNodeHistory := fun _ => None.

Definition inNodeHistory (h : cNodeHistory) (searchNode : cNode) : bool :=
  match h (boardMask searchNode) with
  | None => false
  | Some nodes => existsb (fun n => boardEq n searchNode) nodes
  end.

(** [node.nodeHistory[mask] = append(node.nodeHistory[mask], newNode)];
    a missing key reads as the nil slice. *)
Definition addNodeHistory (h : cNodeHistory) (newNode : cNode) : cNodeHistory :=
  let mask := boardMask newNode in
  let nodes := match h mask with Some nodes => nodes | None => [] end in
  fun k => if k =? mask then Some (nodes ++ [newNode]) else h k.

Definition placeOccupiedFigureColor (node : cNode) (units : figure) (c : color) (index : Z) : bool :=
  isBit (board node units c) index.

Definition placeOccupiedColor (node : cNode) (c : color) (index : Z) : bool :=
  isBit (Z.lor (board node pawns c) (board node kings c)) index.

Definition placeOccupied (node : cNode) (index : Z) : bool :=
  placeOccupiedColor node white index || placeOccupiedColor node black index.

(** The [for i := 0; i < 64; i++] loop of [Score], from square [i] with
    [k] iterations left. *)
Fixpoint scoreFrom (node : cNode) (k : nat) (i : Z) (score : Z) : Z :=
  match k with
  | O => score
  | S k' =>
    let score' :=
      if isBit (board node pawns white) i then wrap (score + pawnScore * whiteCoef)
      else if isBit (board node kings white) i then wrap (score + kingScore * whiteCoef)
      else if isBit (board node pawns black) i then wrap (score + pawnScore * blackCoef)
      else if isBit (board node kings black) i then wrap (score + kingScore * blackCoef)
      else score in
    scoreFrom node k' (i + 1) score'
  end.

Definition cScore (node : cNode) : Z := scoreFrom node 64 0 0.

(** [for color := range []int{white, black}]: the loop variable runs over
    the indices 0 and 1 of the slice, which are [white] and [black]. *)
Definition cIsTerminal (node : cNode) : bool :=
  if Z.lor (board node pawns white) (board node kings white) =? 0 then true
  else if Z.lor (board node pawns black) (board node kings black) =? 0 then true
  else false.

Definition cloneNode (node : cNode) : cNode := node.

Definition upgradeToKing (node : cNode) (c : color) (index : Z) : cNode :=
  if isBit (board node pawns c) index then
    if match c with
       | black => (56 <=? index) && (index <? 64)
       | white => (0 <=? index) && (index <? 8)
       end
    then
      let clone := cloneNode node in
      let clone := setBoard clone pawns c (clearBit (board clone pawns c) index) in
      setBoard clone kings c (setBit (board clone kings c) index)
    else node
  else node.

Definition figureMove (node : cNode) (units : figure) (c : color) (index offset : Z)
    : bool * cNode :=
  if (index <? 0) || (index >? 63) || (wrap (index + offset) <? 0) || (wrap (index + offset) >? 63)
  then (false, cNodeZero)
  else if negb (offsetInBoard index offset) || placeOccupied node (wrap (index + offset))
  then (false, cNodeZero)
  else
    let clone := cloneNode node in
    let clone := setBoard clone units c (clearBit (board clone units c) index) in
    let clone := setBoard clone units c (setBit (board clone units c) (wrap (index + offset))) in
    (true, upgradeToKing clone c (wrap (index + offset))).

Definition figureJump (node : cNode) (units : figure) (c : color) (index offset : Z)
    : bool * cNode :=
  let target := wrap (index + wrap (2 * offset)) in
  if (index <? 0) || (index >? 63) || (target <? 0) || (target >? 63)
  then (false, cNodeZero)
  else if negb (offsetInBoard index offset)
          || negb (offsetInBoard (wrap (index + offset)) offset)
  then (false, cNodeZero)
  else if negb (placeOccupiedColor node (enemyColor c) (wrap (index + offset)))
          || placeOccupied node target
  then (false, cNodeZero)
  else
    let clone := cloneNode node in
    let enemyCol := enemyColor c in
    let clone := setBoard clone units c (clearBit (board clone units c) index) in
    let clone := setBoard clone pawns enemyCol
                   (clearBit (board clone pawns enemyCol) (wrap (index + offset))) in
    let clone := setBoard clone kings enemyCol
                   (clearBit (board clone kings enemyCol) (wrap (index + offset))) in
    let clone := setBoard clone units c (setBit (board clone units c) target) in
    (true, upgradeToKing clone c target).

(** The body of [for _, offset := range []int{7, 9}]. *)
Definition movesAt (node : cNode) (units : figure) (c : color) (index dir offset : Z)
    : list cNode :=
  let '(ok, move) := figureMove node units c index (wrap (offset * dir)) in
  let moves := if ok then [move] else [] in
  let '(ok, move) := figureJump node units c index (wrap (offset * dir)) in
  if ok then moves ++ [move] else moves.

Definition generateFigureMoves (node : cNode) (units : figure) (c : color) (index dir : Z)
    : list cNode :=
  movesAt node units c index dir 7 ++ movesAt node units c index dir 9.

Definition generatePawnMoves (node : cNode) (c : color) (index dir : Z) : list cNode :=
  generateFigureMoves node pawns c index dir.

Definition generateKingMoves (node : cNode) (c : color) (index : Z) : list cNode :=
  generateFigureMoves node kings c index (-1) ++ generateFigureMoves node kings c index 1.

(** The variables captured by the closure of [SearchNodeGenerator]. *)
Record cGenerator : Type := mkCGen {
  cgen_node : cNode;
  nodeQueue : list cNode;
  cgen_index : Z
}.

(** The loop [for ; index < 64; index++] that refills the empty queue;
    [steps] bounds the number of loop tests. *)
Fixpoint refill (steps : nat) (node : cNode) (c : color) (pawnDir : Z) (index : Z)
    : list cNode * Z :=
  match steps with
  | O => ([], index)
  | S steps' =>
    if index <? 64 then
      let queue :=
        if placeOccupiedFigureColor node pawns c index then generatePawnMoves node c index pawnDir
        else if placeOccupiedFigureColor node kings c index then generateKingMoves node c index
        else [] in
      if (0 <? length queue)%nat then (queue, index + 1)
      else refill steps' node c pawnDir (index + 1)
    else ([], index)
  end.

(** The loop [for len(nodeQueue) > 0] that returns the first queued node
    which is not in the history. *)
Fixpoint popQueue (h : cNodeHistory) (queue : list cNode) : option cNode * list cNode :=
  match queue with
  | [] => (None, [])
  | searchNode :: queue' =>
    if negb (inNodeHistory h searchNode) then (Some searchNode, queue')
    else popQueue h queue'
  end.

(** One invocation of the closure, reading the shared history [h]:
    maximizing is black to move, minimizing is white to move. *)
Definition cInvoke (h : cNodeHistory) (g : cGenerator) (maximizing : bool)
    : option cNode * cGenerator :=
  let node := cgen_node g in
  let '(queue, index) :=
    match nodeQueue g with
    | [] =>
      let '(c, pawnDir) := if maximizing then (black, blackPawnDir) else (white, whitePawnDir) in
      refill 65 node c pawnDir (cgen_index g)
    | _ :: _ => (nodeQueue g, cgen_index g)
    end in
  let '(r, queue') := popQueue h queue in
  (r, mkCGen node queue' index).

Definition cSearchNodeGenerator (node : cNode) : cGenerator := mkCGen node [] 0.

(** The rows and columns filled by [cNodeFullBoard]. *)
Definition fullBoardSquares : list (Z * Z) :=
  Eval cbv in list_prod [0; 1; 2; 5; 6; 7] [0; 1; 2; 3].

Definition cNodeFullBoardNode : cNode :=
  fold_left (fun node ri =>
    let row := fst ri in
    let index := row * 8 + snd ri * 2 in
    let index := if negb (Z.rem row 2 =? 0) then index + 1 else index in
    let c := if row >? 3 then white else black in
    setBoard node pawns c (setBit (board node pawns c) index)) fullBoardSquares cNodeZero.

(** [cNodeFullBoard()]: the node and the history it creates, which holds
    the node itself. *)
Definition cNodeFullBoard : cNode * cNodeHistory :=
  (cNodeFullBoardNode, addNodeHistory emptyHistory cNodeFullBoardNode).

Lemma scoreFrom_int (node : cNode) (k : nat) : forall i s,
  MinInt <= s <= MaxInt -> MinInt <= scoreFrom node k i s <= MaxInt.
Proof.
  induction k as [|k IH]; intros i s Hs; cbn [scoreFrom]; [exact Hs|].
  apply IH.
  repeat match goal with |- context [if isBit ?a ?b then _ else _] => destruct (isBit a b) end;
    try apply wrap_int; exact Hs.
Qed.

Lemma cScore_int (node : cNode) : MinInt <= cScore node <= MaxInt.
Proof. unfold cScore. apply scoreFrom_int. unfold MinInt, MaxInt. lia. Qed.

(** Within one search the history is not changed; the nodes of the search
    share it. *)
Definition cSearchNode (h : cNodeHistory) : SearchNode cNode := {|
  generator := cGenerator;
  Score := cScore;
  IsTerminal := cIsTerminal;
  SearchNodeGenerator := cSearchNodeGenerator;
  invoke := cInvoke h;
  Score_int := cScore_int
|}.

End Checkers.

(** ** What a generator produces

    These predicates describe runs of a generator closure; they are used
    to state the assumptions on the collaborating game model. *)

Section Generators.

Context {node : Type} {SN : SearchNode node}.

(** [yields gen maximizing cs]: invoked again and again with the same
    side, the closure returns the children [cs], in this order, and then
    nil. *)
Inductive yields : generator -> bool -> list node -> Prop :=
| yields_nil gen maximizing gen' :
    invoke gen maximizing = (None, gen') -> yields gen maximizing []
| yields_cons gen maximizing childNode gen' cs :
    invoke gen maximizing = (Some childNode, gen') ->
    yields gen' maximizing cs ->
    yields gen maximizing (childNode :: cs).

(** [produces gen maximizing c]: some invocation returns [c]. *)
Inductive produces : generator -> bool -> node -> Prop :=
| produces_now gen maximizing c gen' :
    invoke gen maximizing = (Some c, gen') -> produces gen maximizing c
| produces_later gen maximizing childNode gen' c :
    invoke gen maximizing = (Some childNode, gen') ->
    produces gen' maximizing c ->
    produces gen maximizing c.

(** The positions a search started at [(root, side)] can visit. *)
Inductive reachable (root : node) (side : bool) : node -> bool -> Prop :=
| reach_root : reachable root side root side
| reach_child n maximizing c :
    reachable root side n maximizing ->
    IsTerminal n = false ->
    produces (SearchNodeGenerator n) maximizing c ->
    reachable root side c (negb maximizing).

(** Every generator met by a search from [(root, side)] returns nil after
    finitely many invocations. *)
Definition finitelyBranching (root : node) (side : bool) : Prop :=
  forall n maximizing, reachable root side n maximizing ->
    exists cs, yields (SearchNodeGenerator n) maximizing cs.

End Generators.

(** * Properties *)

Import TicTacToe GameTree.

Ltac zbool :=
  repeat rewrite Z.geb_leb in *; repeat rewrite Z.gtb_ltb in *;
  repeat match goal with
  | |- context [?a <=? ?b] => destruct (Z.leb_spec a b)
  | |- context [?a <? ?b] => destruct (Z.ltb_spec a b)
  | |- context [?a =? ?b] => destruct (Z.eqb_spec a b)
  | H : context [?a <=? ?b] |- _ => destruct (Z.leb_spec a b)
  | H : context [?a <? ?b] |- _ => destruct (Z.ltb_spec a b)
  | H : context [?a =? ?b] |- _ => destruct (Z.eqb_spec a b)
  end.

Lemma MinimaxInitScore_int (maximizing : bool) :
  MinInt <= MinimaxInitScore maximizing <= MaxInt.
Proof. destruct maximizing; unfold MinimaxInitScore, MinInt, MaxInt; lia. Qed.

Section Fuel.

Context {node : Type} {SN : SearchNode node}.

(** More fuel never changes a result that has been reached. *)

Lemma minimaxLoop_mono (rec rec' : node -> option (result node)) maximizing :
  (forall c r, rec c = Some r -> rec' c = Some r) ->
  forall k k' gen bn bs r,
    minimaxLoop rec maximizing k gen bn bs = Some r -> (k <= k')%nat ->
    minimaxLoop rec' maximizing k' gen bn bs = Some r.
Proof.
  intros Hrec. induction k as [|k IH]; intros k' gen bn bs r H Hle; [discriminate|].
  destruct k' as [|k']; [lia|]. simpl in *.
  destruct (invoke gen maximizing) as [[c|] gen']; [|exact H].
  destruct (rec c) as [[b ns]|] eqn:Hc; [|discriminate].
  rewrite (Hrec _ _ Hc).
  destruct ((maximizing && (ns >=? bs)) || (negb maximizing && (ns <=? bs)));
    apply IH; auto; lia.
Qed.

Lemma Minimax_mono fuel : forall fuel' n depth maximizing r,
  Minimax fuel n depth maximizing = Some r -> (fuel <= fuel')%nat ->
  Minimax fuel' n depth maximizing = Some r.
Proof.
  induction fuel as [|fuel IH]; intros fuel' n depth maximizing r H Hle; [discriminate|].
  destruct fuel' as [|fuel']; [lia|]. simpl in *.
  destruct ((depth =? 0) || IsTerminal n); [exact H|].
  eapply minimaxLoop_mono; [| exact H | lia].
  intros c r' Hc. apply IH; auto; lia.
Qed.

Lemma alphaBetaLoop_mono (rec rec' : node -> Z -> Z -> option (result node)) maximizing :
  (forall c a b r, rec c a b = Some r -> rec' c a b = Some r) ->
  forall k k' gen fr r,
    alphaBetaLoop rec maximizing k gen fr = Some r -> (k <= k')%nat ->
    alphaBetaLoop rec' maximizing k' gen fr = Some r.
Proof.
  intros Hrec. induction k as [|k IH]; intros k' gen fr r H Hle; [discriminate|].
  destruct k' as [|k']; [lia|]. simpl in *.
  destruct (invoke gen maximizing) as [[c|] gen']; [|exact H].
  destruct (rec c (alpha fr) (beta fr)) as [[b ns]|] eqn:Hc; [|discriminate].
  rewrite (Hrec _ _ _ _ Hc).
  destruct (alpha (abUpdate maximizing c ns fr) >=? beta (abUpdate maximizing c ns fr));
    [exact H|]. apply IH; auto; lia.
Qed.

Lemma alphaBetaImpl_mono fuel : forall fuel' n depth a b maximizing r,
  minimaxAlphaBetaPrunningImpl fuel n depth a b maximizing = Some r -> (fuel <= fuel')%nat ->
  minimaxAlphaBetaPrunningImpl fuel' n depth a b maximizing = Some r.
Proof.
  induction fuel as [|fuel IH]; intros fuel' n depth a b maximizing r H Hle; [discriminate|].
  destruct fuel' as [|fuel']; [lia|]. simpl in *.
  destruct ((depth <=? 0) || IsTerminal n); [exact H|].
  eapply alphaBetaLoop_mono; [| exact H | lia].
  intros c a' b' r' Hc. apply IH; auto; lia.
Qed.

End Fuel.

(** ** Scores stay machine integers *)

Section Ranges.

Context {node : Type} {SN : SearchNode node}.

Definition isInt (z : Z) : Prop := MinInt <= z <= MaxInt.

Lemma minimaxLoop_int (rec : node -> option (result node)) maximizing :
  (forall c b v, rec c = Some (b, v) -> isInt v) ->
  forall k gen bn bs b v,
    isInt bs -> minimaxLoop rec maximizing k gen bn bs = Some (b, v) -> isInt v.
Proof.
  intros Hrec. induction k as [|k IH]; intros gen bn bs b v Hbs H; [discriminate|].
  simpl in H. destruct (invoke gen maximizing) as [[c|] gen'].
  - destruct (rec c) as [[b' ns]|] eqn:Hc; [|discriminate].
    destruct ((maximizing && (ns >=? bs)) || (negb maximizing && (ns <=? bs)));
      (eapply IH; [| exact H]; eauto).
  - now inversion H; subst.
Qed.

Lemma Minimax_int fuel : forall n depth maximizing b v,
  Minimax fuel n depth maximizing = Some (b, v) -> isInt v.
Proof.
  induction fuel as [|fuel IH]; intros n depth maximizing b v H; [discriminate|].
  simpl in H. destruct ((depth =? 0) || IsTerminal n).
  - inversion H; subst. apply Score_int.
  - eapply minimaxLoop_int; [| | exact H].
    + intros c b' v' Hc. eapply IH; exact Hc.
    + apply MinimaxInitScore_int.
Qed.

Lemma abUpdate_bestScore_int maximizing c ns (fr : abFrame node) :
  isInt ns -> isInt (bestScore fr) -> isInt (bestScore (abUpdate maximizing c ns fr)).
Proof.
  intros Hns Hfr. unfold abUpdate.
  destruct maximizing; [destruct (ns >? alpha fr) | destruct (ns <? beta fr)]; simpl; auto.
Qed.

Lemma alphaBetaLoop_int (rec : node -> Z -> Z -> option (result node)) maximizing :
  (forall c a b r v, rec c a b = Some (r, v) -> isInt v) ->
  forall k gen fr b v,
    isInt (bestScore fr) -> alphaBetaLoop rec maximizing k gen fr = Some (b, v) -> isInt v.
Proof.
  intros Hrec. induction k as [|k IH]; intros gen fr b v Hfr H; [discriminate|].
  simpl in H. destruct (invoke gen maximizing) as [[c|] gen'].
  - destruct (rec c (alpha fr) (beta fr)) as [[b' ns]|] eqn:Hc; [|discriminate].
    pose proof (abUpdate_bestScore_int maximizing c ns fr (Hrec _ _ _ _ _ Hc) Hfr) as Hup.
    destruct (alpha (abUpdate maximizing c ns fr) >=? beta (abUpdate maximizing c ns fr)).
    + now inversion H; subst.
    + eapply IH; [| exact H]; auto.
  - now inversion H; subst.
Qed.

Lemma alphaBetaImpl_int fuel : forall n depth a b maximizing r v,
  minimaxAlphaBetaPrunningImpl fuel n depth a b maximizing = Some (r, v) -> isInt v.
Proof.
  induction fuel as [|fuel IH]; intros n depth a b maximizing r v H; [discriminate|].
  simpl in H. destruct ((depth <=? 0) || IsTerminal n).
  - inversion H; subst. apply Score_int.
  - eapply alphaBetaLoop_int; [| | exact H].
    + intros c a' b' r' v' Hc. eapply IH; exact Hc.
    + apply MinimaxInitScore_int.
Qed.

End Ranges.

(** ** Pruning does not change the score *)

Section Pruning.

Context {node : Type} {SN : SearchNode node}.

(** What a search with window [(a, b)] may return for a position whose
    exhaustive value is [v]: the value itself inside the window, and a
    value on the same side of the window outside of it. *)
Definition bracket (a b v s : Z) : Prop :=
  (v <= a -> s <= a) /\ (a < v < b -> s = v) /\ (b <= v -> b <= s).

Lemma minimaxLoop_max_ge (rec : node -> option (result node)) :
  forall k gen bn bs b v,
    minimaxLoop rec true k gen bn bs = Some (b, v) -> bs <= v.
Proof.
  induction k as [|k IH]; intros gen bn bs b v H; [discriminate|].
  simpl in H. destruct (invoke gen true) as [[c|] gen'].
  - destruct (rec c) as [[b' ns]|]; [|discriminate].
    rewrite orb_false_r in H. zbool; apply IH in H; lia.
  - inversion H; lia.
Qed.

Lemma minimaxLoop_min_le (rec : node -> option (result node)) :
  forall k gen bn bs b v,
    minimaxLoop rec false k gen bn bs = Some (b, v) -> v <= bs.
Proof.
  induction k as [|k IH]; intros gen bn bs b v H; [discriminate|].
  simpl in H. destruct (invoke gen false) as [[c|] gen'].
  - destruct (rec c) as [[b' ns]|]; [|discriminate].
    zbool; simpl in H; apply IH in H; lia.
  - inversion H; lia.
Qed.

Section Loops.

Variable recM : node -> option (result node).
Variable recAB : node -> Z -> Z -> option (result node).
Hypothesis Hrec : forall c a b r1 v r2 s,
  MinInt <= a < b -> b <= MaxInt ->
  recM c = Some (r1, v) -> recAB c a b = Some (r2, s) -> bracket a b v s.

Lemma loops_max a0 :
  forall k1 gen bn1 M k2 fr r1 v r2 s,
    minimaxLoop recM true k1 gen bn1 M = Some (r1, v) ->
    alphaBetaLoop recAB true k2 gen fr = Some (r2, s) ->
    MinInt <= a0 -> alpha fr < beta fr <= MaxInt ->
    (M <= a0 /\ alpha fr = a0 /\ bestScore fr <= a0) \/
      (a0 < M /\ alpha fr = M /\ bestScore fr = M) ->
    bracket a0 (beta fr) v s.
Proof.
  induction k1 as [|k1 IH]; intros gen bn1 M k2 fr r1 v r2 s H1 H2 Ha0 Hab Hinv; [discriminate|].
  destruct k2 as [|k2]; [discriminate|]. simpl in H1, H2.
  destruct (invoke gen true) as [[c|] gen'].
  - destruct (recM c) as [[b1 vi]|] eqn:Hc1; [|discriminate].
    destruct (recAB c (alpha fr) (beta fr)) as [[b2 si]|] eqn:Hc2; [|discriminate].
    unfold abUpdate in H2. destruct fr as [al be bn bsc]; simpl in *.
    assert (Hwin : MinInt <= al < be) by lia. assert (Hbe : be <= MaxInt) by lia.
    pose proof (Hrec _ _ _ _ _ _ _ Hwin Hbe Hc1 Hc2) as (Hlo & Hmid & Hhi).
    rewrite orb_false_r in H1. rewrite Z.gtb_ltb in H2.
    destruct (Z.ltb_spec al si) as [Hacc|Hrej]; simpl in H2.
    + rewrite Z.geb_leb in H2. destruct (Z.leb_spec be si) as [Hcut|Hgo].
      * inversion H2; subst.
        assert (be <= vi) by lia.
        assert (Hge : (if vi >=? M then vi else M) <= v).
        { destruct (vi >=? M); eapply minimaxLoop_max_ge; eauto. }
        rewrite Z.geb_leb in Hge. destruct (Z.leb_spec M vi); unfold bracket; lia.
      * assert (si = vi) by lia. subst si.
        assert (Hm : (vi >=? M) = true) by (rewrite Z.geb_leb; apply Z.leb_le; lia).
        rewrite Hm in H1.
        apply (IH _ _ _ _ _ _ _ _ _ H1 H2); simpl; lia.
    + rewrite Z.geb_leb in H2. destruct (Z.leb_spec be al); [lia|].
      assert (vi <= al) by lia.
      rewrite Z.geb_leb in H1. destruct (Z.leb_spec M vi);
        apply (IH _ _ _ _ _ _ _ _ _ H1 H2); simpl; lia.
  - inversion H1; inversion H2; subst. unfold bracket. lia.
Qed.

Lemma loops_min b0 :
  forall k1 gen bn1 M k2 fr r1 v r2 s,
    minimaxLoop recM false k1 gen bn1 M = Some (r1, v) ->
    alphaBetaLoop recAB false k2 gen fr = Some (r2, s) ->
    b0 <= MaxInt -> MinInt <= alpha fr < beta fr ->
    (b0 <= M /\ beta fr = b0 /\ b0 <= bestScore fr) \/
      (M < b0 /\ beta fr = M /\ bestScore fr = M) ->
    bracket (alpha fr) b0 v s.
Proof.
  induction k1 as [|k1 IH]; intros gen bn1 M k2 fr r1 v r2 s H1 H2 Ha0 Hab Hinv; [discriminate|].
  destruct k2 as [|k2]; [discriminate|]. simpl in H1, H2.
  destruct (invoke gen false) as [[c|] gen'].
  - destruct (recM c) as [[b1 vi]|] eqn:Hc1; [|discriminate].
    destruct (recAB c (alpha fr) (beta fr)) as [[b2 si]|] eqn:Hc2; [|discriminate].
    unfold abUpdate in H2. destruct fr as [al be bn bsc]; simpl in *.
    assert (Hwin : MinInt <= al < be) by lia. assert (Hbe : be <= MaxInt) by lia.
    pose proof (Hrec _ _ _ _ _ _ _ Hwin Hbe Hc1 Hc2) as (Hlo & Hmid & Hhi).
    destruct (Z.ltb_spec si be) as [Hacc|Hrej]; simpl in H2.
    + rewrite Z.geb_leb in H2. destruct (Z.leb_spec si al) as [Hcut|Hgo].
      * inversion H2; subst.
        assert (vi <= al) by lia.
        assert (Hle : v <= (if vi <=? M then vi else M)).
        { destruct (vi <=? M); eapply minimaxLoop_min_le; eauto. }
        destruct (Z.leb_spec vi M); unfold bracket; lia.
      * assert (si = vi) by lia. subst si.
        assert (Hm : (vi <=? M) = true) by (apply Z.leb_le; lia).
        rewrite Hm in H1.
        apply (IH _ _ _ _ _ _ _ _ _ H1 H2); simpl; lia.
    + rewrite Z.geb_leb in H2. destruct (Z.leb_spec be al); [lia|].
      assert (be <= vi) by lia.
      destruct (Z.leb_spec vi M);
        apply (IH _ _ _ _ _ _ _ _ _ H1 H2); simpl; lia.
  - inversion H1; inversion H2; subst. unfold bracket. lia.
Qed.

End Loops.

End Pruning.

Section MainPruning.

Context {node : Type} {SN : SearchNode node}.

Lemma wrap_pred (depth : Z) : 1 <= depth <= MaxInt -> wrap (depth - 1) = depth - 1.
Proof. intros H. apply wrap_small. unfold MinInt, MaxInt in *. lia. Qed.

(** The search with window [(a, b)] brackets the exhaustive value. *)
Lemma alphaBeta_bracket fuel1 : forall n depth maximizing a b fuel2 r1 v r2 s,
  0 <= depth <= MaxInt -> MinInt <= a < b -> b <= MaxInt ->
  Minimax fuel1 n depth maximizing = Some (r1, v) ->
  minimaxAlphaBetaPrunningImpl fuel2 n depth a b maximizing = Some (r2, s) ->
  bracket a b v s.
Proof.
  induction fuel1 as [|fuel1 IH]; intros n depth maximizing a b fuel2 r1 v r2 s Hd Hab Hb H1 H2;
    [discriminate|].
  destruct fuel2 as [|fuel2]; [discriminate|]. simpl in H1, H2.
  destruct (Z.eqb_spec depth 0) as [->|Hnz]; simpl in H1, H2.
  - inversion H1; inversion H2; subst. unfold bracket; lia.
  - destruct (Z.leb_spec depth 0); [lia|]. simpl in H2.
    destruct (IsTerminal n).
    + inversion H1; inversion H2; subst. unfold bracket; lia.
    + rewrite wrap_pred in H1, H2 by lia.
      assert (Hrec : forall c a b r1 v r2 s,
        MinInt <= a < b -> b <= MaxInt ->
        Minimax fuel1 c (depth - 1) (negb maximizing) = Some (r1, v) ->
        minimaxAlphaBetaPrunningImpl fuel2 c (depth - 1) a b (negb maximizing) = Some (r2, s) ->
        bracket a b v s).
      { intros c a' b' r1' v' r2' s' Hw Hb' Hm Ha.
        apply (IH c (depth - 1) (negb maximizing) a' b' fuel2 r1' v' r2' s'); auto; lia. }
      destruct maximizing.
      * apply (loops_max _ _ Hrec a _ _ _ _ _ _ _ _ _ _ H1 H2); simpl;
          unfold MinimaxInitScore, MinInt in *; lia.
      * apply (loops_min _ _ Hrec b _ _ _ _ _ _ _ _ _ _ H1 H2); simpl;
          unfold MinimaxInitScore, MaxInt in *; lia.
Qed.

(** With the full window both searches return the same score. *)
Lemma alphaBeta_same_score fuel1 fuel2 n depth maximizing r1 v r2 s :
  0 <= depth <= MaxInt ->
  Minimax fuel1 n depth maximizing = Some (r1, v) ->
  MinimaxAlphaBetaPrunning fuel2 n depth maximizing = Some (r2, s) ->
  s = v.
Proof.
  intros Hd H1 H2. unfold MinimaxAlphaBetaPrunning in H2.
  pose proof (Minimax_int _ _ _ _ _ _ H1) as Hv.
  pose proof (alphaBetaImpl_int _ _ _ _ _ _ _ _ H2) as Hs.
  assert (Hw : MinInt <= MinInt < MaxInt) by (unfold MinInt, MaxInt; lia).
  destruct (alphaBeta_bracket _ _ _ _ _ _ _ _ _ _ _ Hd Hw (Z.le_refl _) H1 H2) as (Hlo & Hmid & Hhi).
  unfold isInt in *. lia.
Qed.

End MainPruning.

(** ** Termination *)

Section Termination.

Context {node : Type} {SN : SearchNode node}.

Lemma yields_produces gen maximizing cs :
  yields gen maximizing cs -> forall c, In c cs -> produces gen maximizing c.
Proof.
  induction 1 as [|gen maximizing c0 gen' cs Hinv Hy IH]; intros c Hin; [destruct Hin|].
  destruct Hin as [->|Hin].
  - eapply produces_now; eauto.
  - eapply produces_later; eauto.
Qed.

Lemma yields_fun gen maximizing cs :
  yields gen maximizing cs -> forall cs', yields gen maximizing cs' -> cs' = cs.
Proof.
  induction 1 as [gen maximizing gen' Hinv|gen maximizing c0 gen' cs Hinv Hy IH];
    intros cs' Hy'; inversion Hy'; subst; try congruence.
  assert (Some c0 = Some childNode /\ gen' = gen'0) as [Hc ->] by (split; congruence).
  inversion Hc; subst. f_equal. now apply IH.
Qed.

Lemma reachable_trans root side n m :
  reachable root side n m -> forall n' m', reachable n m n' m' -> reachable root side n' m'.
Proof.
  intros Hr n' m' Hr'. induction Hr' as [|x mx c Hx IH Hterm Hprod]; [exact Hr|].
  eapply reach_child; eauto.
Qed.

Lemma finitelyBranching_child n maximizing c :
  finitelyBranching n maximizing -> IsTerminal n = false ->
  produces (SearchNodeGenerator n) maximizing c ->
  finitelyBranching c (negb maximizing).
Proof.
  intros Hfb Hterm Hprod n' m' Hr. apply Hfb.
  eapply reachable_trans; [|exact Hr].
  eapply reach_child; eauto. apply reach_root.
Qed.

Lemma common_fuel {A : Type} (P : nat -> A -> Prop) (cs : list A) :
  (forall f f' c, P f c -> (f <= f')%nat -> P f' c) ->
  (forall c, In c cs -> exists f, P f c) ->
  exists F, forall c, In c cs -> P F c.
Proof.
  intros Hmono. induction cs as [|c0 cs IH]; intros Hall.
  - exists O. intros c [].
  - destruct IH as [F HF]; [intros c Hc; apply Hall; now right|].
    destruct (Hall c0 (or_introl eq_refl)) as [f0 Hf0].
    exists (Nat.max F f0). intros c [<-|Hc].
    + eapply Hmono; [exact Hf0|lia].
    + eapply Hmono; [apply HF, Hc|lia].
Qed.

Lemma minimaxLoop_total (rec : node -> option (result node)) gen maximizing cs :
  yields gen maximizing cs ->
  (forall c, In c cs -> exists r, rec c = Some r) ->
  forall k bn bs, (length cs < k)%nat ->
    exists r, minimaxLoop rec maximizing k gen bn bs = Some r.
Proof.
  induction 1 as [gen maximizing gen' Hinv|gen maximizing c0 gen' cs Hinv Hy IH];
    intros Hrec k bn bs Hk; (destruct k as [|k]; [simpl in Hk; lia|]); simpl; rewrite Hinv.
  - eauto.
  - destruct (Hrec c0 (or_introl eq_refl)) as [[b ns] ->].
    destruct ((maximizing && (ns >=? bs)) || (negb maximizing && (ns <=? bs)));
      (apply IH; [intros c Hc; apply Hrec; now right | simpl in Hk; lia]).
Qed.

Lemma alphaBetaLoop_total (rec : node -> Z -> Z -> option (result node)) gen maximizing cs :
  yields gen maximizing cs ->
  (forall c, In c cs -> forall a b, exists r, rec c a b = Some r) ->
  forall k fr, (length cs < k)%nat ->
    exists r, alphaBetaLoop rec maximizing k gen fr = Some r.
Proof.
  induction 1 as [gen maximizing gen' Hinv|gen maximizing c0 gen' cs Hinv Hy IH];
    intros Hrec k fr Hk; (destruct k as [|k]; [simpl in Hk; lia|]); simpl; rewrite Hinv.
  - eauto.
  - destruct (Hrec c0 (or_introl eq_refl) (alpha fr) (beta fr)) as [[b ns] ->].
    destruct (alpha (abUpdate maximizing c0 ns fr) >=? beta (abUpdate maximizing c0 ns fr));
      [eauto|].
    apply IH; [intros c Hc; apply Hrec; now right | simpl in Hk; lia].
Qed.

(** Under the finiteness assumption [Minimax] returns. *)
Lemma Minimax_total (d : nat) : forall n maximizing,
  Z.of_nat d <= MaxInt -> finitelyBranching n maximizing ->
  exists fuel r, Minimax fuel n (Z.of_nat d) maximizing = Some r.
Proof.
  induction d as [|d IH]; intros n maximizing Hd Hfb.
  - exists 1%nat. simpl. eauto.
  - destruct (IsTerminal n) eqn:Hterm.
    + exists 1%nat. cbn [Minimax]. rewrite Hterm, orb_true_r. eauto.
    + destruct (Hfb n maximizing (reach_root _ _)) as [cs Hcs].
      destruct (common_fuel
        (fun f c => exists r, Minimax f c (Z.of_nat d) (negb maximizing) = Some r) cs) as [F HF].
      { intros f f' c [r Hr] Hle. exists r. eapply Minimax_mono; eauto. }
      { intros c Hc. apply IH; [lia|].
        eapply finitelyBranching_child; eauto. eapply yields_produces; eauto. }
      exists (S (Nat.max F (S (length cs)))). cbn [Minimax].
      destruct (Z.eqb_spec (Z.of_nat (S d)) 0) as [|_]; [lia|]. rewrite Hterm. simpl orb. cbv iota.
      rewrite wrap_pred by lia. replace (Z.of_nat (S d) - 1) with (Z.of_nat d) by lia.
      eapply minimaxLoop_total; [exact Hcs| |lia].
      intros c Hc. destruct (HF c Hc) as [r Hr]. exists r.
      eapply Minimax_mono; [exact Hr|lia].
Qed.

(** Under the finiteness assumption the pruned search returns, with a
    bound on the fuel that does not depend on the window. *)
Lemma alphaBetaImpl_total (d : nat) : forall n maximizing,
  Z.of_nat d <= MaxInt -> finitelyBranching n maximizing ->
  exists fuel, forall a b, exists r,
    minimaxAlphaBetaPrunningImpl fuel n (Z.of_nat d) a b maximizing = Some r.
Proof.
  induction d as [|d IH]; intros n maximizing Hd Hfb.
  - exists 1%nat. simpl. eauto.
  - destruct (IsTerminal n) eqn:Hterm.
    + exists 1%nat. intros a b. cbn [minimaxAlphaBetaPrunningImpl]. rewrite Hterm, orb_true_r. eauto.
    + destruct (Hfb n maximizing (reach_root _ _)) as [cs Hcs].
      destruct (common_fuel
        (fun f c => forall a b, exists r,
           minimaxAlphaBetaPrunningImpl f c (Z.of_nat d) a b (negb maximizing) = Some r) cs)
        as [F HF].
      { intros f f' c Hr Hle a b. destruct (Hr a b) as [r Hab]. exists r.
        eapply alphaBetaImpl_mono; eauto. }
      { intros c Hc. apply IH; [lia|].
        eapply finitelyBranching_child; eauto. eapply yields_produces; eauto. }
      exists (S (Nat.max F (S (length cs)))). intros a b. cbn [minimaxAlphaBetaPrunningImpl].
      destruct (Z.leb_spec (Z.of_nat (S d)) 0) as [|_]; [lia|]. rewrite Hterm. simpl orb. cbv iota.
      rewrite wrap_pred by lia. replace (Z.of_nat (S d) - 1) with (Z.of_nat d) by lia.
      eapply alphaBetaLoop_total; [exact Hcs| |lia].
      intros c Hc a' b'. destruct (HF c Hc a' b') as [r Hr]. exists r.
      eapply alphaBetaImpl_mono; [exact Hr|lia].
Qed.

End Termination.

(** ** Facts about the explicit game trees *)

Module GameTreeFacts.

Lemma tree_yields (g : list tree) (maximizing : bool) : yields (node := tree) g maximizing g.
Proof.
  induction g as [|c g IH].
  - eapply yields_nil. reflexivity.
  - eapply yields_cons; [reflexivity|exact IH].
Qed.

Lemma tree_finitelyBranching (t : tree) (maximizing : bool) : finitelyBranching t maximizing.
Proof. intros n m _. exists (treeChildren n). apply tree_yields. Qed.

(** A small tree on which the pruned search cuts a branch. *)
Definition sample : tree :=
  Tree 0 false [Tree 0 false [leaf 3; leaf 5]; Tree 0 false [leaf 2; leaf 9]; leaf 4].

End GameTreeFacts.

(** ** The claims about the two sequential searches *)

Section Sequential.

Context {node : Type} {SN : SearchNode node}.

Lemma searches_return (n : node) (depth : Z) (maximizing : bool) :
  0 <= depth <= MaxInt -> finitelyBranching n maximizing ->
  exists fuel r1 r2, forall fuel', (fuel <= fuel')%nat ->
    Minimax fuel' n depth maximizing = Some r1 /\
    MinimaxAlphaBetaPrunning fuel' n depth maximizing = Some r2.
Proof.
  intros Hd Hfb.
  assert (Hd' : Z.of_nat (Z.to_nat depth) <= MaxInt) by lia.
  destruct (Minimax_total _ n maximizing Hd' Hfb) as (f1 & r1 & H1).
  destruct (alphaBetaImpl_total _ n maximizing Hd' Hfb) as (f2 & H2).
  destruct (H2 MinInt MaxInt) as [r2 Hr2].
  rewrite Z2Nat.id in H1, Hr2 by lia.
  exists (Nat.max f1 f2), r1, r2. intros fuel' Hle. split.
  - eapply Minimax_mono; [exact H1|lia].
  - eapply alphaBetaImpl_mono; [exact Hr2|lia].
Qed.

(** C10: for a depth [0 <= depth] (an [int]) and a position from which
    every generator that the search can meet is exhausted after finitely
    many invocations, [Minimax] and [MinimaxAlphaBetaPrunning] terminate:
    from some amount of fuel on both return, always the same results. *)
Theorem search_terminates (n : node) (depth : Z) (maximizing : bool) :
  0 <= depth <= MaxInt -> finitelyBranching n maximizing ->
  exists fuel r1 r2, forall fuel', (fuel <= fuel')%nat ->
    Minimax fuel' n depth maximizing = Some r1 /\
    MinimaxAlphaBetaPrunning fuel' n depth maximizing = Some r2.
Proof. apply searches_return. Qed.

(** For a depth [0 <= depth] and a position with finitely branching
    successors, [Minimax] and [MinimaxAlphaBetaPrunning] both return, and
    with the same bestScore; the best states [b1] and [b2] need not
    agree. *)
Theorem Minimax_AlphaBeta_same_bestScore (n : node) (depth : Z) (maximizing : bool) :
  0 <= depth <= MaxInt -> finitelyBranching n maximizing ->
  exists fuel b1 b2 s, forall fuel', (fuel <= fuel')%nat ->
    Minimax fuel' n depth maximizing = Some (b1, s) /\
    MinimaxAlphaBetaPrunning fuel' n depth maximizing = Some (b2, s).
Proof.
  intros Hd Hfb.
  destruct (searches_return n depth maximizing Hd Hfb) as (fuel & [b1 v] & [b2 s] & H).
  destruct (H fuel (Nat.le_refl _)) as [H1 H2].
  assert (s = v) by (eapply alphaBeta_same_score; eauto). subst s.
  exists fuel, b1, b2, v. exact H.
Qed.

End Sequential.

Lemma search_terminates_witness :
  exists fuel r1 r2, forall fuel', (fuel <= fuel')%nat ->
    Minimax fuel' GameTreeFacts.sample 2 true = Some r1 /\
    MinimaxAlphaBetaPrunning fuel' GameTreeFacts.sample 2 true = Some r2.
Proof.
  apply (search_terminates GameTreeFacts.sample 2 true).
  - unfold MaxInt; lia.
  - apply GameTreeFacts.tree_finitelyBranching.
Defined.

Lemma Minimax_AlphaBeta_same_bestScore_witness :
  exists fuel b1 b2 s, forall fuel', (fuel <= fuel')%nat ->
    Minimax fuel' GameTreeFacts.sample 2 false = Some (b1, s) /\
    MinimaxAlphaBetaPrunning fuel' GameTreeFacts.sample 2 false = Some (b2, s).
Proof.
  apply (Minimax_AlphaBeta_same_bestScore GameTreeFacts.sample 2 false).
  - unfold MaxInt; lia.
  - apply GameTreeFacts.tree_finitelyBranching.
Defined.

(** ** Tic-tac-toe positions and runs *)

Module TicTacToeFacts.

(** Cross to move and to win at the top right:
<<
    X X _
    O O X
    X O O
>> *)
Definition crossToWin : tttNode := mkBoard (-1) (-1) 0 1 1 (-1) (-1) 1 1.
Definition crossWon : tttNode := mkBoard (-1) (-1) (-1) 1 1 (-1) (-1) 1 1.

(** The final board of two full-depth players:
<<
    X O X
    X O O
    O X X
>> *)
Definition drawnBoard : tttNode := mkBoard (-1) 1 (-1) (-1) 1 1 1 (-1) (-1).

(** Results are received in job order, the job count last. *)
Definition inOrder : schedule tttNode := mkSchedule (fun rs => rs) 9.

Lemma singleMinimax_mono fuel fuel' : (fuel <= fuel')%nat ->
  forall i sn b, singleMinimax fuel i sn = Some b -> singleMinimax fuel' i sn = Some b.
Proof.
  intros Hle. induction i as [|i IH]; intros sn b H; simpl in *; [exact H|].
  destruct (Minimax fuel sn 9 false) as [[[newNode|] sc]|] eqn:Hm; try discriminate.
  rewrite (Minimax_mono _ _ _ _ _ _ Hm Hle). now apply IH.
Qed.

End TicTacToeFacts.

Import TicTacToeFacts.

(** C1: at the non-terminal position [crossToWin], depth [-1] and the
    minimizing side the two searches return different scores: [Minimax]
    tests [depth == 0] only, expands the position and returns the score
    [-1] of its successor; [MinimaxAlphaBetaPrunning] tests [depth <= 0]
    and returns the position's own score [0]. *)
Lemma Minimax_AlphaBeta_differ_at_negative_depth :
  Minimax 3 crossToWin (-1) false = Some (Some crossWon, -1) /\
  MinimaxAlphaBetaPrunning 3 crossToWin (-1) false = Some (Some crossToWin, 0).
Proof. split; vm_compute; reflexivity. Qed.

(** C4: at the non-terminal position [crossToWin] and depth [-1],
    [Minimax] and [MinimaxConcurrent] do not return [(s, s.Score())]: both
    expand the successor and return it with score [-1], while
    [MinimaxAlphaBetaPrunning] short-circuits as the claim says. *)
Theorem negative_depth_is_expanded :
  tttIsTerminal crossToWin = false /\ tttScore crossToWin = 0 /\
  Minimax 3 crossToWin (-1) false = Some (Some crossWon, -1) /\
  MinimaxConcurrent 3 inOrder crossToWin (-1) false 2 = Some (Some crossWon, -1) /\
  MinimaxAlphaBetaPrunning 3 crossToWin (-1) false = Some (Some crossToWin, tttScore crossToWin).
Proof. repeat split; vm_compute; reflexivity. Qed.

(** C2: at the non-terminal position [crossToWin], depth [-1] and the
    minimizing side [MinimaxConcurrent] and [MinimaxAlphaBetaPrunning]
    return different scores: the driver tests [depth == 0] only, expands
    one ply and returns the score [-1] of the successor; the pruned search
    tests [depth <= 0] and returns the position's own score [0]. *)
Lemma Concurrent_AlphaBeta_differ_at_negative_depth :
  MinimaxConcurrent 3 inOrder crossToWin (-1) false 2 = Some (Some crossWon, -1) /\
  MinimaxAlphaBetaPrunning 3 crossToWin (-1) false = Some (Some crossToWin, 0).
Proof. split; vm_compute; reflexivity. Qed.

(** C8, as stated with the sides alternating, fails: nine plies of
    [Minimax] at depth 9 with the side flipped after every ply end on a
    full board without any completed line, of score 0. *)
Lemma alternating_sides_end_in_a_draw :
  bestVsBest 12 9 emptyBoard false = Some drawnBoard /\
  tttIsTerminal drawnBoard = true /\
  anyFullRow drawnBoard = (false, empty) /\
  tttScore drawnBoard = 0.
Proof. repeat split; vm_compute; reflexivity. Qed.

(** C8 (amended): with the minimizing side to move in each of the nine
    calls, as [TestTTTSingleMinimax] runs them, the final board is
    terminal, cross has a completed line, and the score is negative, of
    absolute value the number of empty squares plus one. *)
Theorem single_minimax_cross_wins (fuel : nat) :
  (12 <= fuel)%nat ->
  exists b, singleMinimax fuel 9 emptyBoard = Some b /\
    tttIsTerminal b = true /\
    anyFullRow b = (true, cross) /\
    tttScore b < 0 /\
    Z.abs (tttScore b) = numberEmptySquares b + 1.
Proof.
  intros Hfuel. exists (mkBoard 0 0 0 0 0 0 (-1) (-1) (-1)). split.
  - apply (singleMinimax_mono 12 fuel Hfuel). vm_compute. reflexivity.
  - repeat split; vm_compute; reflexivity.
Qed.

Lemma single_minimax_cross_wins_witness :
  exists b, singleMinimax 12 9 emptyBoard = Some b /\
    tttIsTerminal b = true /\
    anyFullRow b = (true, cross) /\
    tttScore b < 0 /\
    Z.abs (tttScore b) = numberEmptySquares b + 1.
Proof. apply (single_minimax_cross_wins 12). apply Nat.le_refl. Defined.

(** ** One iteration of the pruned search's loop *)

Section AlphaBetaStep.

Context {node : Type} {SN : SearchNode node}.


End AlphaBetaStep.


(** ** A position without successors *)

Section NoChildren.

Context {node : Type} {SN : SearchNode node}.

Lemma fair_nil (sched : schedule node) : fairSchedule sched -> arrival sched [] = [].
Proof. intros Hfair. apply Permutation_nil, Hfair. Qed.


End NoChildren.


(** ** The consumer's choice *)

Section Consumer.

Context {node : Type} {SN : SearchNode node}.

Implicit Types (r best : workerResult node) (rs : list (workerResult node)).

Ltac prefers_lia maximizing :=
  unfold prefers in *; destruct maximizing; lia.

Lemma consumerAccept_cases maximizing best r :
  (prefers maximizing r best /\ consumerAccept maximizing best r = r) \/
  (~ prefers maximizing r best /\ consumerAccept maximizing best r = best).
Proof.
  unfold consumerAccept, prefers. destruct maximizing; simpl; rewrite ?orb_false_r.
  - rewrite Z.gtb_ltb. destruct (Z.ltb_spec (res_score best) (res_score r)).
    + left. split; [lia|]. rewrite Z.ltb_irrefl, andb_false_r. reflexivity.
    + destruct (Z.eqb_spec (res_score r) (res_score best));
        destruct (Z.ltb_spec (res_jobId r) (res_jobId best)); simpl;
        ((left; split; [lia|reflexivity]) || (right; split; [lia|reflexivity])).
  - destruct (Z.ltb_spec (res_score r) (res_score best)).
    + left. split; [lia|]. rewrite Z.ltb_irrefl, andb_false_r. reflexivity.
    + destruct (Z.eqb_spec (res_score r) (res_score best));
        destruct (Z.ltb_spec (res_jobId r) (res_jobId best)); simpl;
        ((left; split; [lia|reflexivity]) || (right; split; [lia|reflexivity])).
Qed.

Lemma prefers_trans maximizing r1 r2 r3 :
  prefers maximizing r1 r2 -> prefers maximizing r2 r3 -> prefers maximizing r1 r3.
Proof. prefers_lia maximizing. Qed.

Lemma prefers_asym maximizing r1 r2 :
  prefers maximizing r1 r2 -> ~ prefers maximizing r2 r1.
Proof. prefers_lia maximizing. Qed.

Lemma prefers_neg_trans maximizing r1 r2 r3 :
  prefers maximizing r1 r2 -> ~ prefers maximizing r3 r2 -> ~ prefers maximizing r3 r1.
Proof. prefers_lia maximizing. Qed.

Lemma prefers_dec maximizing r1 r2 :
  prefers maximizing r1 r2 \/ ~ prefers maximizing r1 r2.
Proof. prefers_lia maximizing. Qed.

Lemma prefers_total maximizing r1 r2 :
  ~ prefers maximizing r1 r2 -> ~ prefers maximizing r2 r1 ->
  res_score r1 = res_score r2 /\ res_jobId r1 = res_jobId r2.
Proof. prefers_lia maximizing. Qed.

(** The fold keeps the first most preferred element of [best :: rs]. *)
Lemma fold_consumerAccept_cases maximizing rs : forall best,
  let final := fold_left (consumerAccept maximizing) rs best in
  (final = best /\ forall r, In r rs -> ~ prefers maximizing r best) \/
  (In final rs /\ prefers maximizing final best /\
     forall r, In r rs -> ~ prefers maximizing r final).
Proof.
  induction rs as [|r0 rs IH]; intros best; simpl.
  - left. split; [reflexivity|intros r []].
  - destruct (consumerAccept_cases maximizing best r0) as [[Hp ->]|[Hn ->]].
    + right. destruct (IH r0) as [[-> Hall]|(Hin & Hpf & Hall)].
      * repeat split; [now left|exact Hp|].
        intros r [<-|Hr]; [prefers_lia maximizing|now apply Hall].
      * repeat split; [now right|eapply prefers_trans; eauto|].
        intros r [<-|Hr]; [now apply prefers_asym|now apply Hall].
    + destruct (IH best) as [[-> Hall]|(Hin & Hpf & Hall)].
      * left. split; [reflexivity|]. intros r [<-|Hr]; [exact Hn|now apply Hall].
      * right. repeat split; [now right|exact Hpf|].
        intros r [<-|Hr]; [eapply prefers_neg_trans; eauto|now apply Hall].
Qed.

Lemma NoDup_jobId_inj rs : NoDup (map (@res_jobId node) rs) ->
  forall r1 r2, In r1 rs -> In r2 rs -> res_jobId r1 = res_jobId r2 -> r1 = r2.
Proof.
  induction rs as [|r0 rs IH]; intros Hnd r1 r2 H1 H2 Heq; [destruct H1|].
  simpl in Hnd. inversion Hnd as [|x l Hnotin Hnd']; subst.
  destruct H1 as [<-|H1], H2 as [<-|H2]; auto.
  - exfalso. apply Hnotin. rewrite Heq. now apply in_map.
  - exfalso. apply Hnotin. rewrite <- Heq. now apply in_map.
Qed.

Lemma fold_consumerAccept_perm maximizing rs rs' best :
  NoDup (map (@res_jobId node) rs) -> Permutation rs rs' ->
  fold_left (consumerAccept maximizing) rs' best = fold_left (consumerAccept maximizing) rs best.
Proof.
  intros Hnd Hperm.
  destruct (fold_consumerAccept_cases maximizing rs best) as [[-> Hall]|(Hin & Hpf & Hall)];
    destruct (fold_consumerAccept_cases maximizing rs' best) as [[-> Hall']|(Hin' & Hpf' & Hall')].
  - reflexivity.
  - exfalso. eapply Hall; [|exact Hpf']. eapply Permutation_in; [symmetry; exact Hperm|exact Hin'].
  - exfalso. eapply Hall'; [|exact Hpf]. eapply Permutation_in; [exact Hperm|exact Hin].
  - assert (Hin2 : In (fold_left (consumerAccept maximizing) rs' best) rs)
      by (eapply Permutation_in; [symmetry; exact Hperm|exact Hin']).
    assert (Hin3 : In (fold_left (consumerAccept maximizing) rs best) rs')
      by (eapply Permutation_in; [exact Hperm|exact Hin]).
    eapply NoDup_jobId_inj; eauto.
    apply (prefers_total maximizing); auto.
Qed.

(** C3 (amended): for results with distinct job ids, folding the
    consumer's acceptance rule over them in any order gives the same final
    best result.  It is the initial [{-1, nil, sentinel}] exactly when no
    result is preferred to it (for ids from 0 on: when no score is
    strictly better than the sentinel, in particular for no results at
    all); otherwise it is the result with the optimal score and, among
    equal scores, the smallest job id. *)
Theorem consumer_choice_is_order_independent (maximizing : bool) rs rs' :
  NoDup (map (@res_jobId node) rs) -> Permutation rs rs' ->
  let final := fold_left (consumerAccept maximizing) rs (initBest maximizing) in
  fold_left (consumerAccept maximizing) rs' (initBest maximizing) = final /\
  ((final = initBest maximizing /\
      forall r, In r rs -> ~ prefers maximizing r (initBest maximizing)) \/
   (In final rs /\ prefers maximizing final (initBest maximizing) /\
      forall r, In r rs -> r <> final -> prefers maximizing final r)).
Proof.
  intros Hnd Hperm final. split.
  - now apply fold_consumerAccept_perm.
  - destruct (fold_consumerAccept_cases maximizing rs (initBest maximizing))
      as [[Heq Hall]|(Hin & Hpf & Hall)].
    + left. split; assumption.
    + right. repeat split; try assumption. intros r Hr Hne.
      destruct (prefers_dec maximizing final r) as [Hyes|Hno]; [exact Hyes|].
      exfalso. apply Hne. eapply NoDup_jobId_inj; eauto.
      apply (prefers_total maximizing); auto.
Qed.

End Consumer.

Lemma consumer_choice_is_order_independent_witness :
  let rs := [mkResult 0 (Some (leaf 1)) 5; mkResult 1 (Some (leaf 2)) 5;
             mkResult 2 (Some (leaf 3)) 3] in
  let final := fold_left (consumerAccept true) rs (initBest true) in
  fold_left (consumerAccept true) (rev rs) (initBest true) = final /\
  ((final = initBest true /\ forall r, In r rs -> ~ prefers true r (initBest true)) \/
   (In final rs /\ prefers true final (initBest true) /\
      forall r, In r rs -> r <> final -> prefers true final r)).
Proof.
  apply (consumer_choice_is_order_independent true
           [mkResult 0 (Some (leaf 1)) 5; mkResult 1 (Some (leaf 2)) 5;
            mkResult 2 (Some (leaf 3)) 3]).
  - simpl. repeat constructor; simpl; lia.
  - apply Permutation_rev.
Defined.

(** C3, as stated, promises one of the results.  A single result whose
    score is the sentinel is never accepted: the consumer ends with the
    initial best, whose state is nil. *)
Lemma consumer_choice_may_be_no_result :
  let r := mkResult 0 (Some (leaf MinInt)) MinInt in
  NoDup (map (@res_jobId tree) [r]) /\
  fold_left (consumerAccept true) [r] (initBest true) = mkResult (-1) None MinInt /\
  ~ In (fold_left (consumerAccept true) [r] (initBest true)) [r].
Proof.
  repeat split.
  - repeat constructor. intros [].
  - intros [H|[]]. vm_compute in H. discriminate.
Qed.

(** ** The loop of [Minimax] as a fold over the children *)

Section MinimaxFold.

Context {node : Type} {SN : SearchNode node}.

(** The update of [(bestNode, bestScore)] by a child and its score. *)
Definition keepBest (maximizing : bool) (acc : result node) (cx : node * Z) : result node :=
  if (maximizing && (snd cx >=? snd acc)) || (negb maximizing && (snd cx <=? snd acc))
  then (Some (fst cx), snd cx) else acc.

Definition optScore (maximizing : bool) (a x : Z) : Z :=
  if maximizing then Z.max a x else Z.min a x.

(** [worse maximizing x y]: for the side to move [x] is strictly worse
    than [y]; [notBetter]: not strictly better. *)
Definition worse (maximizing : bool) (x y : Z) : Prop :=
  if maximizing then x < y else y < x.
Definition notBetter (maximizing : bool) (x y : Z) : Prop :=
  if maximizing then x <= y else y <= x.

Lemma minimaxLoop_yields (rec : node -> option (result node)) gen maximizing cs :
  yields gen maximizing cs ->
  forall k bn bs res, minimaxLoop rec maximizing k gen bn bs = Some res ->
  exists vals,
    Forall2 (fun c x => exists b, rec c = Some (b, x)) cs vals /\
    res = fold_left (keepBest maximizing) (combine cs vals) (bn, bs).
Proof.
  induction 1 as [gen maximizing gen' Hinv|gen maximizing c0 gen' cs Hinv Hy IH];
    intros k bn bs res H; (destruct k as [|k]; [discriminate|]); simpl in H; rewrite Hinv in H.
  - exists []. split; [constructor|]. now inversion H.
  - destruct (rec c0) as [[b ns]|] eqn:Hc; [|discriminate].
    assert (Hstep : exists acc', acc' = keepBest maximizing (bn, bs) (c0, ns) /\
              minimaxLoop rec maximizing k gen' (fst acc') (snd acc') = Some res).
    { unfold keepBest; simpl.
      destruct ((maximizing && (ns >=? bs)) || (negb maximizing && (ns <=? bs))); eauto. }
    destruct Hstep as ([bn' bs'] & Hacc & Hloop). simpl in Hloop.
    destruct (IH _ _ _ _ Hloop) as (vals & HF & Hres).
    exists (ns :: vals). split; [constructor; eauto|]. simpl. now rewrite <- Hacc.
Qed.

Lemma fold_keepBest_score maximizing : forall (cs : list node) vals acc,
  length cs = length vals ->
  snd (fold_left (keepBest maximizing) (combine cs vals) acc)
    = fold_left (optScore maximizing) vals (snd acc).
Proof.
  induction cs as [|c cs IH]; intros [|x vals] acc Hlen; simpl in *; try discriminate; auto.
  rewrite IH by lia. f_equal. unfold keepBest, optScore. simpl.
  destruct maximizing; simpl; rewrite ?orb_false_r; zbool; simpl; lia.
Qed.

Lemma keepBest_cases maximizing (acc : result node) c x :
  (notBetter maximizing (snd acc) x /\ keepBest maximizing acc (c, x) = (Some c, x)) \/
  (worse maximizing x (snd acc) /\ keepBest maximizing acc (c, x) = acc).
Proof.
  unfold keepBest, notBetter, worse. simpl.
  destruct maximizing; simpl; rewrite ?orb_false_r; zbool; simpl; (left; split; [lia|reflexivity])
    || (right; split; [lia|reflexivity]).
Qed.

Lemma worse_notBetter_trans maximizing x y z :
  worse maximizing x y -> notBetter maximizing y z -> notBetter maximizing x z.
Proof. unfold worse, notBetter. destruct maximizing; lia. Qed.

Lemma notBetter_trans maximizing x y z :
  notBetter maximizing x y -> notBetter maximizing y z -> notBetter maximizing x z.
Proof. unfold notBetter. destruct maximizing; lia. Qed.

Lemma notBetter_refl maximizing x : notBetter maximizing x x.
Proof. unfold notBetter. destruct maximizing; lia. Qed.

Lemma fold_keepBest_last maximizing (pairs : list (node * Z)) bn bs :
  forall res, res = fold_left (keepBest maximizing) pairs (bn, bs) ->
  (res = (bn, bs) /\ forall p, In p pairs -> worse maximizing (snd p) bs) \/
  (exists p1 c p2, pairs = p1 ++ (c, snd res) :: p2 /\ fst res = Some c /\
     (forall p, In p p1 -> notBetter maximizing (snd p) (snd res)) /\
     (forall p, In p p2 -> worse maximizing (snd p) (snd res)) /\
     notBetter maximizing bs (snd res)).
Proof.
  induction pairs as [|[c x] l IH] using rev_ind; intros res ->.
  - left. split; [reflexivity|intros p []].
  - rewrite fold_left_app. cbn [fold_left].
    specialize (IH _ eq_refl).
    remember (fold_left (keepBest maximizing) l (bn, bs)) as acc eqn:Hfold.
    destruct (keepBest_cases maximizing acc c x) as [[Hnb ->]|[Hw ->]]; cbn [fst snd].
    + right. exists l, c, []. repeat split.
      * destruct IH as [[Hacc Hall]|(p1 & c0 & p2 & Hl & Hfst & H1 & H2 & Hbs)];
          intros p Hp.
        -- rewrite Hacc in Hnb. apply Hall in Hp.
           eapply worse_notBetter_trans; eauto.
        -- rewrite Hl in Hp. apply in_app_or in Hp. destruct Hp as [Hp|[<-|Hp]].
           ++ eapply notBetter_trans; eauto.
           ++ exact Hnb.
           ++ eapply worse_notBetter_trans; eauto.
      * intros p [].
      * destruct IH as [[Hacc Hall]|(p1 & c0 & p2 & Hl & Hfst & H1 & H2 & Hbs)].
        -- now rewrite Hacc in Hnb.
        -- eapply notBetter_trans; eauto.
    + destruct IH as [[Hacc Hall]|(p1 & c0 & p2 & Hl & Hfst & H1 & H2 & Hbs)].
      * left. split; [exact Hacc|]. intros p Hp. apply in_app_or in Hp.
        destruct Hp as [Hp|[<-|[]]]; [now apply Hall|]. now rewrite Hacc in Hw.
      * right. exists p1, c0, (p2 ++ [(c, x)]). repeat split; auto.
        -- rewrite Hl, <- app_assoc. reflexivity.
        -- intros p Hp. apply in_app_or in Hp.
           destruct Hp as [Hp|[<-|[]]]; [now apply H2|exact Hw].
Qed.

End MinimaxFold.

(** ** Which child [Minimax] returns *)

Section LastOptimal.

Context {node : Type} {SN : SearchNode node}.

Lemma Minimax_det fuel1 fuel2 (n : node) depth maximizing r1 r2 :
  Minimax fuel1 n depth maximizing = Some r1 ->
  Minimax fuel2 n depth maximizing = Some r2 -> r1 = r2.
Proof.
  intros H1 H2.
  apply (Minimax_mono _ (Nat.max fuel1 fuel2)) in H1; [|lia].
  apply (Minimax_mono _ (Nat.max fuel1 fuel2)) in H2; [|lia].
  congruence.
Qed.

Lemma combine_Forall2_in {A B : Type} (R : A -> B -> Prop) (l : list A) (l' : list B) :
  Forall2 R l l' -> forall a b, In (a, b) (combine l l') -> R a b.
Proof.
  induction 1 as [|a0 b0 l l' HR HF IH]; intros a b Hin; [destruct Hin|].
  destruct Hin as [Heq|Hin]; [inversion Heq; subst; exact HR|now apply IH].
Qed.

Lemma map_fst_combine_eq {A B : Type} (l : list A) : forall (l' : list B),
  length l = length l' -> map fst (combine l l') = l.
Proof.
  induction l as [|a l IH]; intros [|b l'] Hlen; simpl in *; try discriminate; auto.
  f_equal. apply IH. lia.
Qed.

(** The score the recursive call of [Minimax] computes for a child. *)
Definition childScore (depth : Z) (maximizing : bool) (c : node) (s : Z) : Prop :=
  exists fuel b, Minimax fuel c (depth - 1) (negb maximizing) = Some (b, s).

(** C6: in the loop of [Minimax] a child is accepted as the new best
    exactly when its score is greater than or equal to the current best
    (less than or equal when minimizing).  Hence, at a position that is
    expanded and has children [cs], the best state returned is a child
    [c] of optimal score [s] with no child after it reaching [s]: the
    last one generated that attains the optimal score. *)
Theorem Minimax_returns_last_optimal_child (n : node) (depth : Z) (maximizing : bool)
    (cs : list node) :
  1 <= depth <= MaxInt -> IsTerminal n = false -> finitelyBranching n maximizing ->
  yields (SearchNodeGenerator n) maximizing cs -> cs <> [] ->
  (forall rec k gen gen' bn bs c b newScore,
     invoke gen maximizing = (Some c, gen') -> rec c = Some (b, newScore) ->
     minimaxLoop rec maximizing (S k) gen bn bs =
       if (if maximizing then newScore >=? bs else newScore <=? bs)
       then minimaxLoop rec maximizing k gen' (Some c) newScore
       else minimaxLoop rec maximizing k gen' bn bs) /\
  exists fuel cs1 c cs2 s,
    cs = cs1 ++ c :: cs2 /\
    (forall fuel', (fuel <= fuel')%nat -> Minimax fuel' n depth maximizing = Some (Some c, s)) /\
    childScore depth maximizing c s /\
    (forall c' s', In c' cs1 -> childScore depth maximizing c' s' -> notBetter maximizing s' s) /\
    (forall c' s', In c' cs2 -> childScore depth maximizing c' s' -> worse maximizing s' s).
Proof.
  intros Hd Hterm Hfb Hcs Hne. split.
  { intros rec k gen gen' bn bs c b ns Hinv Hrec. simpl. rewrite Hinv, Hrec.
    destruct maximizing; simpl; rewrite ?orb_false_r; reflexivity. }
  assert (Hd' : Z.of_nat (Z.to_nat depth) <= MaxInt) by lia.
  destruct (Minimax_total _ n maximizing Hd' Hfb) as (fuel & r & Hr).
  rewrite Z2Nat.id in Hr by lia.
  destruct fuel as [|fuel]; [discriminate|]. pose proof Hr as Hroot. simpl in Hr.
  destruct (Z.eqb_spec depth 0) as [|_]; [lia|]. rewrite Hterm in Hr. simpl in Hr.
  rewrite wrap_pred in Hr by lia.
  destruct (minimaxLoop_yields _ _ _ _ Hcs _ _ _ _ Hr) as (vals & HF & Hres).
  pose proof (Forall2_length HF) as Hlen.
  pose proof (combine_Forall2_in _ _ _ HF) as Hin.
  destruct (fold_keepBest_last maximizing (combine cs vals) None
              (MinimaxInitScore maximizing) r Hres)
    as [[_ Hall]|(p1 & c & p2 & Hl & Hfst & H1 & H2 & _)].
  - exfalso. destruct cs as [|c0 cs']; [congruence|]. destruct vals as [|x0 vals']; [discriminate|].
    specialize (Hall (c0, x0) (or_introl eq_refl)).
    destruct (Hin c0 x0 (or_introl eq_refl)) as [b Hb].
    pose proof (Minimax_int _ _ _ _ _ _ Hb) as Hx.
    unfold worse, MinimaxInitScore, isInt in *. simpl in Hall. destruct maximizing; lia.
  - destruct r as [bn s]. cbn [fst snd] in *. subst bn.
    exists (S fuel), (map fst p1), c, (map fst p2), s. repeat split.
    + rewrite <- (map_fst_combine_eq cs vals Hlen), Hl, map_app. reflexivity.
    + intros fuel' Hle. eapply Minimax_mono; [exact Hroot|exact Hle].
    + destruct (Hin c s) as [b Hb]; [rewrite Hl; apply in_or_app; right; now left|].
      exists fuel, b. exact Hb.
    + intros c' s' Hc' (f' & b' & Hs').
      apply in_map_iff in Hc'. destruct Hc' as ([c1 x1] & Heq & Hp). simpl in Heq. subst c1.
      destruct (Hin c' x1) as [b Hb]; [rewrite Hl; apply in_or_app; now left|].
      pose proof (Minimax_det _ _ _ _ _ _ _ Hs' Hb) as Heq. inversion Heq; subst.
      apply (H1 _ Hp).
    + intros c' s' Hc' (f' & b' & Hs').
      apply in_map_iff in Hc'. destruct Hc' as ([c1 x1] & Heq & Hp). simpl in Heq. subst c1.
      destruct (Hin c' x1) as [b Hb]; [rewrite Hl; apply in_or_app; right; now right|].
      pose proof (Minimax_det _ _ _ _ _ _ _ Hs' Hb) as Heq. inversion Heq; subst.
      apply (H2 _ Hp).
Qed.

End LastOptimal.

Lemma Minimax_returns_last_optimal_child_witness :
  let n := Tree 0 false [leaf 7; leaf 2; leaf 7; leaf 1] in
  let cs := [leaf 7; leaf 2; leaf 7; leaf 1] in
  (forall rec k gen gen' bn bs c b newScore,
     invoke gen true = (Some c, gen') -> rec c = Some (b, newScore) ->
     minimaxLoop rec true (S k) gen bn bs =
       if newScore >=? bs
       then minimaxLoop rec true k gen' (Some c) newScore
       else minimaxLoop rec true k gen' bn bs) /\
  exists fuel cs1 c cs2 s,
    cs = cs1 ++ c :: cs2 /\
    (forall fuel', (fuel <= fuel')%nat -> Minimax fuel' n 1 true = Some (Some c, s)) /\
    childScore 1 true c s /\
    (forall c' s', In c' cs1 -> childScore 1 true c' s' -> notBetter true s' s) /\
    (forall c' s', In c' cs2 -> childScore 1 true c' s' -> worse true s' s).
Proof.
  apply (Minimax_returns_last_optimal_child (SN := treeSearchNode)
           (Tree 0 false [leaf 7; leaf 2; leaf 7; leaf 1]) 1 true).
  - unfold MaxInt; lia.
  - reflexivity.
  - apply GameTreeFacts.tree_finitelyBranching.
  - apply GameTreeFacts.tree_yields.
  - discriminate.
Defined.

(** ** The concurrent driver *)

Section Concurrent.

Context {node : Type} {SN : SearchNode node}.

(** The jobs the feeder builds for the children [cs], numbered from
    [counter]. *)
Fixpoint jobsFrom (counter depth : Z) (maximizing : bool) (cs : list node)
    : list (workerJob node) :=
  match cs with
  | [] => []
  | c :: cs' =>
    mkJob counter c (wrap (depth - 1)) (negb maximizing)
      :: jobsFrom (counter + 1) depth maximizing cs'
  end.

Lemma feederLoop_yields gen maximizing cs depth :
  yields gen maximizing cs ->
  forall k counter, (length cs < k)%nat ->
    MinInt <= counter -> counter + Z.of_nat (length cs) <= MaxInt ->
    feederLoop k gen depth maximizing counter
      = Some (jobsFrom counter depth maximizing cs, counter + Z.of_nat (length cs)).
Proof.
  induction 1 as [gen maximizing gen' Hinv|gen maximizing c0 gen' cs Hinv Hy IH];
    intros k counter Hk Hlo Hhi; (destruct k as [|k]; [simpl in Hk; lia|]);
    simpl feederLoop; rewrite Hinv.
  - simpl. now rewrite Z.add_0_r.
  - simpl length in *. rewrite wrap_small by lia.
    rewrite IH by lia. simpl. do 2 f_equal. lia.
Qed.

Lemma runWorkers_mono fuel fuel' (jobs : list (workerJob node)) rs :
  runWorkers fuel jobs = Some rs -> (fuel <= fuel')%nat -> runWorkers fuel' jobs = Some rs.
Proof.
  intros H Hle. revert rs H. induction jobs as [|job jobs IH]; intros rs H; simpl in *; [exact H|].
  unfold minimaxConcurrentWorker, MinimaxAlphaBetaPrunning in *.
  destruct (minimaxAlphaBetaPrunningImpl fuel (job_node job) (job_depth job) MinInt MaxInt
              (job_maximizing job)) as [[b s]|] eqn:Hj; [|discriminate].
  rewrite (alphaBetaImpl_mono _ _ _ _ _ _ _ _ Hj Hle).
  destruct (runWorkers fuel jobs) as [rs0|]; [|discriminate].
  now rewrite (IH rs0 eq_refl).
Qed.

Lemma runWorkers_total fuel depth maximizing : forall cs counter,
  (forall c, In c cs ->
     exists r, MinimaxAlphaBetaPrunning fuel c (wrap (depth - 1)) (negb maximizing) = Some r) ->
  exists rs, runWorkers fuel (jobsFrom counter depth maximizing cs) = Some rs.
Proof.
  induction cs as [|c cs IH]; intros counter Hall; simpl; [eauto|].
  unfold minimaxConcurrentWorker. simpl.
  destruct (Hall c (or_introl eq_refl)) as [[b s] ->].
  destruct (IH (counter + 1)) as [rs ->]; [intros c' Hc'; apply Hall; now right|]. eauto.
Qed.

Lemma runWorkers_jobsFrom fuel depth maximizing : forall cs counter rs,
  runWorkers fuel (jobsFrom counter depth maximizing cs) = Some rs ->
  Forall2 (fun c r => res_node r = Some c /\
             exists b, MinimaxAlphaBetaPrunning fuel c (wrap (depth - 1)) (negb maximizing)
                         = Some (b, res_score r)) cs rs /\
  NoDup (map (@res_jobId node) rs) /\
  (forall r, In r rs -> counter <= res_jobId r).
Proof.
  induction cs as [|c cs IH]; intros counter rs H; simpl in H.
  - inversion H; subst. repeat split; [constructor|constructor|intros r []].
  - unfold minimaxConcurrentWorker in H. simpl in H.
    destruct (MinimaxAlphaBetaPrunning fuel c (wrap (depth - 1)) (negb maximizing))
      as [[b s]|] eqn:Hc; [|discriminate].
    destruct (runWorkers fuel (jobsFrom (counter + 1) depth maximizing cs)) as [rs0|] eqn:Hrs;
      [|discriminate].
    inversion H; subst. destruct (IH _ _ Hrs) as (HF & Hnd & Hge). repeat split.
    + constructor; [simpl; eauto|exact HF].
    + simpl. constructor; [|exact Hnd]. intros Hin. apply in_map_iff in Hin.
      destruct Hin as (r & Hid & Hr). apply Hge in Hr. lia.
    + intros r [<-|Hr]; [simpl; lia|]. apply Hge in Hr. lia.
Qed.

Lemma consumerAccept_score maximizing (best r : workerResult node) :
  res_score (consumerAccept maximizing best r)
    = optScore maximizing (res_score best) (res_score r).
Proof.
  destruct (consumerAccept_cases maximizing best r) as [[Hp ->]|[Hn ->]];
    unfold prefers, optScore in *; destruct maximizing; lia.
Qed.

Lemma fold_consumerAccept_score maximizing (rs : list (workerResult node)) : forall best,
  res_score (fold_left (consumerAccept maximizing) rs best)
    = fold_left (optScore maximizing) (map (@res_score node) rs) (res_score best).
Proof.
  induction rs as [|r rs IH]; intros best; simpl; [reflexivity|].
  now rewrite IH, consumerAccept_score.
Qed.

(** Results received before the job count is known. *)
Lemma consumerLoop_before_count maximizing : forall (rs : list (workerResult node)) rest best j,
  0 <= j -> j + Z.of_nat (length rs) <= MaxInt ->
  consumerLoop maximizing (map (@FromResults node) rs ++ rest) best j (-1)
    = consumerLoop maximizing rest (fold_left (consumerAccept maximizing) rs best)
        (j + Z.of_nat (length rs)) (-1).
Proof.
  induction rs as [|r rs IH]; intros rest best j Hj Hlen.
  - simpl. now rewrite Z.add_0_r.
  - simpl length in *. simpl. rewrite wrap_small by (unfold MinInt in *; lia).
    rewrite IH by lia. f_equal. lia.
Qed.

(** Results received once the job count [n] is known. *)
Lemma consumerLoop_after_count maximizing : forall (rs : list (workerResult node)) best j n,
  0 <= j -> n = j + Z.of_nat (length rs) -> n <= MaxInt -> rs <> [] ->
  consumerLoop maximizing (map (@FromResults node) rs) best j n
    = Some (res_node (fold_left (consumerAccept maximizing) rs best),
            res_score (fold_left (consumerAccept maximizing) rs best)).
Proof.
  induction rs as [|r rs IH]; intros best j n Hj Hn Hmax Hne; [congruence|].
  simpl length in *. simpl. rewrite wrap_small by (unfold MinInt in *; lia).
  rewrite Z.geb_leb. destruct (Z.leb_spec 0 n); [|lia]. simpl.
  destruct rs as [|r' rs].
  - simpl in *. destruct (Z.eqb_spec (j + 1) n); [reflexivity|lia].
  - destruct (Z.eqb_spec (j + 1) n); [simpl length in *; lia|].
    apply IH; [lia | simpl length in *; lia | lia | discriminate].
Qed.

Lemma consumerLoop_split maximizing (l1 l2 : list (workerResult node)) best :
  Z.of_nat (length (l1 ++ l2)) <= MaxInt ->
  consumerLoop maximizing
    (map (@FromResults node) l1 ++ FromTotalJobs (Z.of_nat (length (l1 ++ l2)))
       :: map (@FromResults node) l2) best 0 (-1)
    = Some (res_node (fold_left (consumerAccept maximizing) (l1 ++ l2) best),
            res_score (fold_left (consumerAccept maximizing) (l1 ++ l2) best)).
Proof.
  intros Hlen. rewrite length_app in Hlen.
  rewrite consumerLoop_before_count by lia. rewrite fold_left_app, length_app.
  cbn [consumerLoop]. rewrite Z.geb_leb.
  destruct (Z.leb_spec 0 (Z.of_nat (length l1 + length l2))); [|lia]. cbn [andb].
  destruct l2 as [|r0 rest].
  - simpl. match goal with |- context [?a =? ?b] => destruct (Z.eqb_spec a b) end;
      [reflexivity|lia].
  - match goal with |- context [?a =? ?b] => destruct (Z.eqb_spec a b) end;
      [simpl length in *; lia|].
    apply consumerLoop_after_count; [lia | simpl length in *; lia | lia | discriminate].
Qed.

Lemma consumer_deliveries maximizing (sched : schedule node) (rs : list (workerResult node)) :
  Z.of_nat (length rs) <= MaxInt -> fairSchedule sched ->
  NoDup (map (@res_jobId node) rs) ->
  minimaxConcurrentConsumer maximizing (deliveries sched rs (Z.of_nat (length rs)))
    = Some (res_node (fold_left (consumerAccept maximizing) rs (initBest maximizing)),
            res_score (fold_left (consumerAccept maximizing) rs (initBest maximizing))).
Proof.
  intros Hlen Hfair Hnd. unfold minimaxConcurrentConsumer, deliveries.
  pose proof (Hfair rs) as Hperm.
  rewrite <- (fold_consumerAccept_perm maximizing rs (arrival sched rs) _ Hnd Hperm).
  rewrite (Permutation_length Hperm) in *.
  pose proof (consumerLoop_split maximizing (firstn (countAfter sched) (arrival sched rs))
                (skipn (countAfter sched) (arrival sched rs)) (initBest maximizing)) as H.
  rewrite firstn_skipn in H. apply H. exact Hlen.
Qed.

(** What the driver returns at a position it expands. *)
Lemma concurrent_eval (n : node) depth maximizing workers cs fuel rs (sched : schedule node) :
  depth <> 0 -> IsTerminal n = false -> 1 <= workers ->
  yields (SearchNodeGenerator n) maximizing cs ->
  Z.of_nat (length cs) <= MaxInt -> (length cs < fuel)%nat ->
  runWorkers fuel (jobsFrom 0 depth maximizing cs) = Some rs ->
  fairSchedule sched ->
  MinimaxConcurrent fuel sched n depth maximizing workers
    = Some (res_node (fold_left (consumerAccept maximizing) rs (initBest maximizing)),
            res_score (fold_left (consumerAccept maximizing) rs (initBest maximizing))).
Proof.
  intros Hd Hterm Hw Hcs Hlen Hfuel Hrs Hfair.
  unfold MinimaxConcurrent, minimaxConcurrentFeeder.
  destruct (Z.eqb_spec depth 0); [contradiction|]. rewrite Hterm. simpl orb. cbv iota.
  destruct (Z.ltb_spec workers 0); [lia|].
  rewrite (feederLoop_yields _ _ _ depth Hcs) by (unfold MinInt; lia).
  destruct (Z.eqb_spec workers 0); [lia|]. simpl andb. cbv iota. rewrite Hrs.
  destruct (runWorkers_jobsFrom _ _ _ _ _ _ Hrs) as (HF & Hnd & _).
  rewrite Z.add_0_l, (Forall2_length HF).
  apply consumer_deliveries; auto. rewrite <- (Forall2_length HF). exact Hlen.
Qed.

End Concurrent.

Section ConcurrentClaims.

Context {node : Type} {SN : SearchNode node}.

Lemma Forall2_In_r {A B : Type} (R : A -> B -> Prop) (l : list A) (l' : list B) :
  Forall2 R l l' -> forall b, In b l' -> exists a, In a l /\ R a b.
Proof.
  induction 1 as [|a0 b0 l l' HR HF IH]; intros b Hb; [destruct Hb|].
  destruct Hb as [<-|Hb].
  - exists a0. split; [now left|exact HR].
  - destruct (IH b Hb) as (a & Ha & HRa). exists a. split; [now right|exact HRa].
Qed.

Lemma alphaBetaLoop_none_accepted (rec : node -> Z -> Z -> option (result node))
    gen maximizing cs :
  yields gen maximizing cs ->
  (forall c, In c cs -> exists b, rec c MinInt MaxInt = Some (b, MinimaxInitScore maximizing)) ->
  forall k, (length cs < k)%nat ->
    alphaBetaLoop rec maximizing k gen (mkFrame MinInt MaxInt None (MinimaxInitScore maximizing))
      = Some (None, MinimaxInitScore maximizing).
Proof.
  induction 1 as [gen maximizing gen' Hinv|gen maximizing c0 gen' cs Hinv Hy IH];
    intros Hrec k Hk; (destruct k as [|k]; [simpl in Hk; lia|]); simpl; rewrite Hinv.
  - reflexivity.
  - destruct (Hrec c0 (or_introl eq_refl)) as [b ->].
    assert (Hup : abUpdate maximizing c0 (MinimaxInitScore maximizing)
                    (mkFrame MinInt MaxInt None (MinimaxInitScore maximizing))
                  = mkFrame MinInt MaxInt None (MinimaxInitScore maximizing))
      by (destruct maximizing; reflexivity).
    rewrite Hup. simpl. apply IH; [intros c Hc; apply Hrec; now right|simpl in Hk; lia].
Qed.


End ConcurrentClaims.


Section ConcurrentEquivalence.

Context {node : Type} {SN : SearchNode node}.

Lemma Forall2_map_eq {A B C : Type} (R1 : A -> B -> Prop) (R2 : A -> C -> Prop) (f : B -> C)
    (l : list A) (l1 : list B) :
  Forall2 R1 l l1 -> forall l2, Forall2 R2 l l2 ->
  (forall a b c, In a l -> R1 a b -> R2 a c -> f b = c) -> map f l1 = l2.
Proof.
  induction 1 as [|a b l l1 H1 HF IH]; intros l2 H2 Hf; inversion H2; subst; [reflexivity|].
  simpl. f_equal.
  - eapply Hf; eauto. now left.
  - apply IH; auto. intros a' b' c' Ha'. apply Hf. now right.
Qed.

Lemma base_case_all (n : node) depth maximizing workers (sched : schedule node) fuel :
  depth = 0 \/ IsTerminal n = true -> 0 <= depth -> (1 <= fuel)%nat ->
  MinimaxAlphaBetaPrunning fuel n depth maximizing = Some (Some n, Score n) /\
  MinimaxConcurrent fuel sched n depth maximizing workers = Some (Some n, Score n).
Proof.
  intros Hbase Hd Hfuel. destruct fuel as [|fuel]; [lia|].
  unfold MinimaxAlphaBetaPrunning, MinimaxConcurrent. cbn [minimaxAlphaBetaPrunningImpl].
  destruct Hbase as [-> | ->]; simpl; rewrite ?orb_true_r; auto.
Qed.

(** For a depth [0 <= depth], a pool
    of at least one worker and a position with finitely branching
    successors whose number of children fits an [int], [MinimaxConcurrent]
    returns the bestScore of [MinimaxAlphaBetaPrunning], and it returns the
    same pair [(b, s)] under every schedule: whatever the order in which
    the results arrive and whenever the job count is received. *)
Theorem MinimaxConcurrent_same_bestScore (n : node) (depth : Z) (maximizing : bool)
    (workers : Z) :
  0 <= depth <= MaxInt -> 1 <= workers -> finitelyBranching n maximizing ->
  (forall cs, yields (SearchNodeGenerator n) maximizing cs -> Z.of_nat (length cs) <= MaxInt) ->
  exists fuel b b2 s, forall fuel', (fuel <= fuel')%nat ->
    MinimaxAlphaBetaPrunning fuel' n depth maximizing = Some (b2, s) /\
    forall sched, fairSchedule sched ->
      MinimaxConcurrent fuel' sched n depth maximizing workers = Some (b, s).
Proof.
  intros Hd Hw Hfb Hfit.
  assert (Hbase : depth = 0 \/ IsTerminal n = true ->
    exists fuel b b2 s, forall fuel', (fuel <= fuel')%nat ->
      MinimaxAlphaBetaPrunning fuel' n depth maximizing = Some (b2, s) /\
      forall sched, fairSchedule sched ->
        MinimaxConcurrent fuel' sched n depth maximizing workers = Some (b, s)).
  { intros Hb. exists 1%nat, (Some n), (Some n), (Score n). intros fuel' Hle. split.
    - apply (base_case_all n depth maximizing workers (mkSchedule (fun rs => rs) 0) fuel');
        [exact Hb | lia | exact Hle].
    - intros sched _.
      apply (base_case_all n depth maximizing workers sched fuel'); [exact Hb | lia | exact Hle]. }
  destruct (Z.eq_dec depth 0) as [Hz|Hnz]; [apply Hbase; now left|].
  destruct (IsTerminal n) eqn:Hterm; [apply Hbase; now right|]. clear Hbase.
  destruct (Hfb n maximizing (reach_root _ _)) as [cs Hcs].
  pose proof (Hfit cs Hcs) as Hlen.
  destruct (searches_return n depth maximizing Hd Hfb) as (F0 & [b1 v] & [b2 s] & Hroot).
  destruct (Hroot F0 (Nat.le_refl _)) as [Hm Hab].
  assert (s = v) by (eapply alphaBeta_same_score; eauto). subst s.
  destruct (common_fuel
    (fun f c => exists r, MinimaxAlphaBetaPrunning f c (wrap (depth - 1)) (negb maximizing) = Some r)
    cs) as [Fk HFk].
  { intros f f' c [r Hr] Hle. exists r. eapply alphaBetaImpl_mono; eauto. }
  { intros c Hc. rewrite wrap_pred by lia.
    assert (Hfbc : finitelyBranching c (negb maximizing))
      by (eapply finitelyBranching_child; eauto; eapply yields_produces; eauto).
    assert (Hdc : 0 <= depth - 1 <= MaxInt) by lia.
    destruct (searches_return c (depth - 1) (negb maximizing) Hdc Hfbc) as (Fc & r1 & r2 & Hc2).
    exists Fc, r2. apply (Hc2 Fc (Nat.le_refl _)). }
  set (F := Nat.max F0 (Nat.max Fk (S (length cs)))).
  destruct (runWorkers_total F depth maximizing cs 0) as [rs Hrs].
  { intros c Hc. destruct (HFk c Hc) as [r Hr]. exists r.
    eapply alphaBetaImpl_mono; [exact Hr|lia]. }
  set (final := fold_left (consumerAccept maximizing) rs (initBest maximizing)).
  assert (Hscore : res_score final = v).
  { unfold final. rewrite fold_consumerAccept_score. simpl.
    destruct F0 as [|F0]; [discriminate|]. simpl in Hm.
    destruct (Z.eqb_spec depth 0); [contradiction|]. rewrite Hterm in Hm. simpl in Hm.
    destruct (minimaxLoop_yields _ _ _ _ Hcs _ _ _ _ Hm) as (vals & HFv & Hres).
    destruct (runWorkers_jobsFrom _ _ _ _ _ _ Hrs) as (HFr & _ & _).
    assert (Hmap : map (@res_score node) rs = vals).
    { eapply Forall2_map_eq; [exact HFr|exact HFv|].
      intros c r x Hc [_ [b Hb]] [b' Hb']. rewrite wrap_pred in Hb, Hb' by lia.
      eapply alphaBeta_same_score; [|exact Hb'|exact Hb]. lia. }
    pose proof (fold_keepBest_score maximizing cs vals (None, MinimaxInitScore maximizing)
                  (Forall2_length HFv)) as Hk.
    rewrite <- Hres in Hk. cbn [snd] in Hk. rewrite Hmap. symmetry. exact Hk. }
  exists F, (res_node final), b2, v. intros fuel' Hle. split.
  - apply Hroot. lia.
  - intros sched Hfair. rewrite <- Hscore.
    apply (concurrent_eval n depth maximizing workers cs fuel' rs sched); auto; try lia.
    eapply runWorkers_mono; [exact Hrs|exact Hle].
Qed.

End ConcurrentEquivalence.

Lemma MinimaxConcurrent_same_bestScore_witness :
  exists fuel b b2 s, forall fuel', (fuel <= fuel')%nat ->
    MinimaxAlphaBetaPrunning fuel' GameTreeFacts.sample 2 true = Some (b2, s) /\
    forall sched, fairSchedule sched ->
      MinimaxConcurrent fuel' sched GameTreeFacts.sample 2 true 2 = Some (b, s).
Proof.
  apply (MinimaxConcurrent_same_bestScore GameTreeFacts.sample 2 true 2).
  - unfold MaxInt; lia.
  - lia.
  - apply GameTreeFacts.tree_finitelyBranching.
  - intros cs Hcs.
    rewrite (yields_fun _ _ _ (GameTreeFacts.tree_yields _ true) _ Hcs).
    unfold MaxInt; simpl; lia.
Defined.

(** * Further properties of the engine *)

Section WindowedSearch.

Context {node : Type} {SN : SearchNode node}.

(** For every window [MinInt <= a < b <= MaxInt] the pruned search
    returns, and its score brackets the score [v] of the exhaustive
    search: it is [v] when [v] lies strictly inside the window, at most
    [a] when [v <= a], and at least [b] when [b <= v]. *)
Theorem alphaBeta_window_brackets_Minimax (n : node) (depth a b : Z) (maximizing : bool) :
  0 <= depth <= MaxInt -> MinInt <= a < b -> b <= MaxInt ->
  finitelyBranching n maximizing ->
  exists fuel r1 v r2 s,
    (forall fuel', (fuel <= fuel')%nat ->
       Minimax fuel' n depth maximizing = Some (r1, v) /\
       minimaxAlphaBetaPrunningImpl fuel' n depth a b maximizing = Some (r2, s)) /\
    (v <= a -> s <= a) /\ (a < v < b -> s = v) /\ (b <= v -> b <= s).
Proof.
  intros Hd Hab Hb Hfb.
  assert (Hd' : Z.of_nat (Z.to_nat depth) <= MaxInt) by lia.
  destruct (Minimax_total _ n maximizing Hd' Hfb) as (f1 & [r1 v] & H1).
  destruct (alphaBetaImpl_total _ n maximizing Hd' Hfb) as (f2 & H2).
  destruct (H2 a b) as [[r2 s] Hr2].
  rewrite Z2Nat.id in H1, Hr2 by lia.
  exists (Nat.max f1 f2), r1, v, r2, s. split.
  - intros fuel' Hle. split.
    + eapply Minimax_mono; [exact H1|lia].
    + eapply alphaBetaImpl_mono; [exact Hr2|lia].
  - exact (alphaBeta_bracket _ _ _ _ _ _ _ _ _ _ _ Hd Hab Hb H1 Hr2).
Qed.

End WindowedSearch.

Lemma alphaBeta_window_brackets_Minimax_witness :
  exists fuel r1 v r2 s,
    (forall fuel', (fuel <= fuel')%nat ->
       Minimax fuel' GameTreeFacts.sample 2 true = Some (r1, v) /\
       minimaxAlphaBetaPrunningImpl fuel' GameTreeFacts.sample 2 4 9 true = Some (r2, s)) /\
    (v <= 4 -> s <= 4) /\ (4 < v < 9 -> s = v) /\ (9 <= v -> 9 <= s).
Proof.
  apply (alphaBeta_window_brackets_Minimax GameTreeFacts.sample 2 4 9 true).
  - unfold MaxInt; lia.
  - unfold MinInt; lia.
  - unfold MaxInt; lia.
  - apply GameTreeFacts.tree_finitelyBranching.
Defined.

Section FeederAndConsumer.

Context {node : Type} {SN : SearchNode node}.

Lemma jobsFrom_fields depth maximizing : forall (cs : list node) counter,
  map (@job_node node) (jobsFrom counter depth maximizing cs) = cs /\
  map (@job_id node) (jobsFrom counter depth maximizing cs)
    = map (fun i => counter + Z.of_nat i) (seq 0 (length cs)) /\
  Forall (fun j => job_depth j = wrap (depth - 1) /\ job_maximizing j = negb maximizing)
    (jobsFrom counter depth maximizing cs).
Proof.
  induction cs as [|c cs IH]; intros counter; simpl.
  - repeat split; constructor.
  - destruct (IH (counter + 1)) as (Hn & Hi & Hf). repeat split.
    + now rewrite Hn.
    + rewrite Hi, Z.add_0_r. f_equal. rewrite <- seq_shift, map_map.
      apply map_ext. intros i. lia.
    + constructor; [split; reflexivity|exact Hf].
Qed.

(** The feeder sends one job per child, in generation order, numbered
    0, 1, 2, ..., each with depth [depth - 1] and the other side to move,
    and then reports the number of jobs. *)
Theorem feeder_numbers_the_children (n : node) (depth : Z) (maximizing : bool)
    (cs : list node) (k : nat) :
  yields (SearchNodeGenerator n) maximizing cs ->
  Z.of_nat (length cs) <= MaxInt -> (length cs < k)%nat ->
  exists jobs,
    minimaxConcurrentFeeder k n depth maximizing = Some (jobs, Z.of_nat (length cs)) /\
    map (@job_node node) jobs = cs /\
    map (@job_id node) jobs = map Z.of_nat (seq 0 (length cs)) /\
    Forall (fun j => job_depth j = wrap (depth - 1) /\ job_maximizing j = negb maximizing) jobs.
Proof.
  intros Hcs Hlen Hk. exists (jobsFrom 0 depth maximizing cs).
  destruct (jobsFrom_fields depth maximizing cs 0) as (Hn & Hi & Hf).
  repeat split; auto.
  unfold minimaxConcurrentFeeder.
  rewrite (feederLoop_yields _ _ _ depth Hcs) by (unfold MinInt; lia). reflexivity.
Qed.

(** The consumer once the job count [n] is known, with [j] results
    received so far and [j <> n]: it returns after [n - j] more results
    when that many arrive, and never otherwise. *)
Lemma consumerLoop_counting maximizing : forall (rs : list (workerResult node)) best j n,
  0 <= j -> j + Z.of_nat (length rs) <= MaxInt -> j <> n ->
  consumerLoop maximizing (map (@FromResults node) rs) best j n
    = if (j <? n) && (n <=? j + Z.of_nat (length rs))
      then let best' := fold_left (consumerAccept maximizing) (firstn (Z.to_nat (n - j)) rs) best in
           Some (res_node best', res_score best')
      else None.
Proof.
  induction rs as [|r rs IH]; intros best j n Hj Hlen Hne.
  - simpl. destruct (Z.ltb_spec j n); destruct (Z.leb_spec n (j + 0)); simpl; auto; lia.
  - simpl length in *. cbn [map consumerLoop]. rewrite wrap_small by (unfold MinInt in *; lia).
    rewrite Z.geb_leb.
    destruct (Z.eqb_spec (j + 1) n) as [Heq|Hneq].
    + destruct (Z.leb_spec 0 n); [|lia]. cbn [andb].
      destruct (Z.ltb_spec j n); [|lia].
      destruct (Z.leb_spec n (j + Z.of_nat (S (length rs)))); [|lia]. cbn [andb].
      replace (Z.to_nat (n - j)) with 1%nat by lia. reflexivity.
    + rewrite andb_false_r. rewrite IH by lia.
      destruct (Z.ltb_spec (j + 1) n); destruct (Z.ltb_spec j n); try lia;
        destruct (Z.leb_spec n (j + 1 + Z.of_nat (length rs)));
        destruct (Z.leb_spec n (j + Z.of_nat (S (length rs)))); try lia; cbn [andb]; auto.
      replace (Z.to_nat (n - j)) with (S (Z.to_nat (n - (j + 1)))) by lia. reflexivity.
Qed.

(** The consumer returns exactly when the number of results it has
    received equals the announced job count: with [l1] received before
    the count [n] and [l2] after it, it returns the best of [l1] and of the
    first [n - length l1] results of [l2], without looking at later ones,
    if [length l1 <= n <= length l1 + length l2]; if the count is smaller
    than the number of results already received, or larger than the number
    that ever arrive, it never returns. *)
Theorem consumer_returns_at_the_announced_count (maximizing : bool)
    (l1 l2 : list (workerResult node)) (n : Z) :
  Z.of_nat (length l1) + Z.of_nat (length l2) <= MaxInt ->
  minimaxConcurrentConsumer maximizing
    (map (@FromResults node) l1 ++ FromTotalJobs n :: map (@FromResults node) l2)
  = if (Z.of_nat (length l1) <=? n) && (n <=? Z.of_nat (length l1) + Z.of_nat (length l2))
    then let best := fold_left (consumerAccept maximizing)
                       (l1 ++ firstn (Z.to_nat (n - Z.of_nat (length l1))) l2)
                       (initBest maximizing) in
         Some (res_node best, res_score best)
    else None.
Proof.
  intros Hlen. unfold minimaxConcurrentConsumer.
  rewrite consumerLoop_before_count by lia. cbn [consumerLoop]. rewrite Z.add_0_l.
  rewrite Z.geb_leb, fold_left_app.
  destruct (Z.eqb_spec (Z.of_nat (length l1)) n) as [Heq|Hne].
  - destruct (Z.leb_spec 0 n); [|lia]. cbn [andb].
    destruct (Z.leb_spec (Z.of_nat (length l1)) n); [|lia].
    destruct (Z.leb_spec n (Z.of_nat (length l1) + Z.of_nat (length l2))); [|lia]. cbn [andb].
    replace (Z.to_nat (n - Z.of_nat (length l1))) with O by lia. reflexivity.
  - rewrite andb_false_r. rewrite consumerLoop_counting by lia.
    destruct (Z.ltb_spec (Z.of_nat (length l1)) n);
      destruct (Z.leb_spec (Z.of_nat (length l1)) n); try lia; reflexivity.
Qed.

End FeederAndConsumer.

Lemma feeder_numbers_the_children_witness :
  exists jobs,
    minimaxConcurrentFeeder 4 GameTreeFacts.sample 2 true = Some (jobs, 3) /\
    map (@job_node tree) jobs = treeChildren GameTreeFacts.sample /\
    map (@job_id tree) jobs = map Z.of_nat (seq 0 3) /\
    Forall (fun j => job_depth j = wrap (2 - 1) /\ job_maximizing j = negb true) jobs.
Proof.
  apply (feeder_numbers_the_children (SN := treeSearchNode) GameTreeFacts.sample 2 true
           (treeChildren GameTreeFacts.sample) 4).
  - apply GameTreeFacts.tree_yields.
  - unfold MaxInt; simpl; lia.
  - simpl; lia.
Defined.

Lemma consumer_returns_at_the_announced_count_witness :
  let r0 := mkResult 0 (Some (leaf 1)) 5 in
  let r1 := mkResult 1 (Some (leaf 2)) 6 in
  minimaxConcurrentConsumer true
    (map (@FromResults tree) [r0] ++ FromTotalJobs 2 :: map (@FromResults tree) [r1])
  = if (Z.of_nat (length [r0]) <=? 2) && (2 <=? Z.of_nat (length [r0]) + Z.of_nat (length [r1]))
    then let best := fold_left (consumerAccept true)
                       ([r0] ++ firstn (Z.to_nat (2 - Z.of_nat (length [r0]))) [r1])
                       (initBest true) in
         Some (res_node best, res_score best)
    else None.
Proof.
  apply (consumer_returns_at_the_announced_count true
           [mkResult 0 (Some (leaf 1)) 5] [mkResult 1 (Some (leaf 2)) 6] 2).
  unfold MaxInt; simpl; lia.
Defined.

(** ** Which child the pruned search and the concurrent driver return *)

Section FirstOptimal.

Context {node : Type} {SN : SearchNode node}.

(** The update of [(bestNode, bestScore)] that accepts a child only on a
    strictly better score. *)
Definition keepFirst (maximizing : bool) (acc : result node) (cx : node * Z) : result node :=
  if (if maximizing then snd cx >? snd acc else snd cx <? snd acc)
  then (Some (fst cx), snd cx) else acc.

Lemma keepFirst_cases maximizing (acc : result node) c x :
  (worse maximizing (snd acc) x /\ keepFirst maximizing acc (c, x) = (Some c, x)) \/
  (notBetter maximizing x (snd acc) /\ keepFirst maximizing acc (c, x) = acc).
Proof.
  unfold keepFirst, notBetter, worse. simpl.
  destruct maximizing; zbool; (left; split; [lia|reflexivity]) || (right; split; [lia|reflexivity]).
Qed.

Lemma fold_keepFirst_stuck maximizing (pairs : list (node * Z)) (acc : result node) :
  (forall p, In p pairs -> notBetter maximizing (snd p) (snd acc)) ->
  fold_left (keepFirst maximizing) pairs acc = acc.
Proof.
  induction pairs as [|[c x] pairs IH]; intros Hall; simpl; [reflexivity|].
  destruct (keepFirst_cases maximizing acc c x) as [[Hw _]|[_ ->]].
  - specialize (Hall (c, x) (or_introl eq_refl)). simpl in Hall.
    unfold worse, notBetter in *. destruct maximizing; lia.
  - apply IH. intros p Hp. apply Hall. now right.
Qed.

(** The first element of the best score, seen from the left. *)
Lemma fold_keepFirst_first maximizing (pairs : list (node * Z)) bn bs :
  forall res, res = fold_left (keepFirst maximizing) pairs (bn, bs) ->
  (res = (bn, bs) /\ forall p, In p pairs -> notBetter maximizing (snd p) bs) \/
  (exists p1 c p2, pairs = p1 ++ (c, snd res) :: p2 /\ fst res = Some c /\
     (forall p, In p p1 -> worse maximizing (snd p) (snd res)) /\
     (forall p, In p p2 -> notBetter maximizing (snd p) (snd res)) /\
     worse maximizing bs (snd res)).
Proof.
  induction pairs as [|[c x] l IH] using rev_ind; intros res ->.
  - left. split; [reflexivity|intros p []].
  - rewrite fold_left_app. cbn [fold_left].
    specialize (IH _ eq_refl).
    remember (fold_left (keepFirst maximizing) l (bn, bs)) as acc eqn:Hfold.
    destruct (keepFirst_cases maximizing acc c x) as [[Hw ->]|[Hnb ->]]; cbn [fst snd].
    + right. exists l, c, []. repeat split.
      * destruct IH as [[Hacc Hall]|(p1 & c0 & p2 & Hl & Hfst & H1 & H2 & Hbs)];
          intros p Hp.
        -- rewrite Hacc in Hw. apply Hall in Hp. simpl in Hw.
           unfold worse, notBetter in *. destruct maximizing; lia.
        -- rewrite Hl in Hp. apply in_app_or in Hp. destruct Hp as [Hp|[<-|Hp]].
           ++ apply H1 in Hp. unfold worse in *. destruct maximizing; lia.
           ++ exact Hw.
           ++ apply H2 in Hp. unfold worse, notBetter in *. destruct maximizing; lia.
      * intros p [].
      * destruct IH as [[Hacc Hall]|(p1 & c0 & p2 & Hl & Hfst & H1 & H2 & Hbs)].
        -- now rewrite Hacc in Hw.
        -- unfold worse in *. destruct maximizing; lia.
    + destruct IH as [[Hacc Hall]|(p1 & c0 & p2 & Hl & Hfst & H1 & H2 & Hbs)].
      * left. split; [exact Hacc|]. intros p Hp. apply in_app_or in Hp.
        destruct Hp as [Hp|[<-|[]]]; [now apply Hall|]. now rewrite Hacc in Hnb.
      * right. exists p1, c0, (p2 ++ [(c, x)]). repeat split; auto.
        -- rewrite Hl, <- app_assoc. reflexivity.
        -- intros p Hp. apply in_app_or in Hp.
           destruct Hp as [Hp|[<-|[]]]; [now apply H2|exact Hnb].
Qed.

Section RootLoop.

Variable recM : node -> option (result node).
Variable recAB : node -> Z -> Z -> option (result node).
Hypothesis HrecM : forall c b v, recM c = Some (b, v) -> isInt v.
Hypothesis HrecAB : forall c a b r v, recAB c a b = Some (r, v) -> isInt v.
Hypothesis Hrec : forall c a b r1 v r2 s,
  MinInt <= a < b -> b <= MaxInt ->
  recM c = Some (r1, v) -> recAB c a b = Some (r2, s) -> bracket a b v s.

Lemma Forall2_vals_int (cs : list node) vals :
  Forall2 (fun c x => exists b, recM c = Some (b, x)) cs vals ->
  forall p, In p (combine cs vals) -> isInt (snd p).
Proof.
  intros HF [c x] Hp. destruct (combine_Forall2_in _ _ _ HF c x Hp) as [b Hb].
  simpl. eapply HrecM; eauto.
Qed.

(** The frames of the root loop: [alpha] (when maximizing, else [beta])
    and [bestScore] move together, the other bound keeps its initial
    value. *)
Definition rootFrame (maximizing : bool) (bn : option node) (bs : Z) : abFrame node :=
  if maximizing then mkFrame bs MaxInt bn bs else mkFrame MinInt bs bn bs.

Definition openFrame (maximizing : bool) (bs : Z) : Prop :=
  if maximizing then MinInt <= bs < MaxInt else MinInt < bs <= MaxInt.

Lemma root_loop gen maximizing cs :
  yields gen maximizing cs ->
  forall vals, Forall2 (fun c x => exists b, recM c = Some (b, x)) cs vals ->
  forall k bn bs res, openFrame maximizing bs ->
    alphaBetaLoop recAB maximizing k gen (rootFrame maximizing bn bs) = Some res ->
    res = fold_left (keepFirst maximizing) (combine cs vals) (bn, bs).
Proof.
  induction 1 as [gen maximizing gen' Hinv|gen maximizing c0 gen' cs Hinv Hy IH];
    intros vals HF k bn bs res Hbs H; (destruct k as [|k]; [discriminate|]);
    inversion HF as [|c0' x0 cs' vals' [b0 Hx0] HF']; subst; cbn [alphaBetaLoop] in H;
    rewrite Hinv in H.
  - destruct maximizing; now inversion H.
  - pose proof (HrecM _ _ _ Hx0) as Hxi.
    cbn [combine fold_left]. unfold keepFirst at 2. cbn [fst snd].
    destruct maximizing; unfold rootFrame, openFrame in *; cbn [alpha beta] in H.
    + destruct (recAB c0 bs MaxInt) as [[b r]|] eqn:Hr; [|discriminate].
      pose proof (HrecAB _ _ _ _ _ Hr) as Hri.
      destruct (Hrec c0 bs MaxInt _ _ _ _ Hbs (Z.le_refl _) Hx0 Hr) as (Hlo & Hmid & Hhi).
      unfold isInt in *. unfold abUpdate in H. cbn [alpha beta] in H.
      rewrite Z.gtb_ltb in H. rewrite Z.gtb_ltb.
      destruct (Z.ltb_spec bs r) as [Hacc|Hrej].
      * assert (r = x0) by lia. subst r.
        destruct (Z.ltb_spec bs x0); [|lia].
        cbn [alpha beta bestNode bestScore] in H. rewrite Z.geb_leb in H.
        destruct (Z.leb_spec MaxInt x0).
        -- inversion H; subst. symmetry. apply fold_keepFirst_stuck.
           intros p Hp. pose proof (Forall2_vals_int _ _ HF' p Hp) as Hp'.
           unfold notBetter, isInt in *. simpl. lia.
        -- apply (IH vals' HF' k (Some c0) x0 res); [lia|exact H].
      * assert (x0 <= bs) by lia.
        destruct (Z.ltb_spec bs x0); [lia|].
        cbn [alpha beta] in H. rewrite Z.geb_leb in H.
        destruct (Z.leb_spec MaxInt bs); [lia|].
        apply (IH vals' HF' k bn bs res); [lia|exact H].
    + destruct (recAB c0 MinInt bs) as [[b r]|] eqn:Hr; [|discriminate].
      pose proof (HrecAB _ _ _ _ _ Hr) as Hri.
      assert (Hwin : MinInt <= MinInt < bs) by lia.
      destruct (Hrec c0 MinInt bs _ _ _ _ Hwin (proj2 Hbs) Hx0 Hr) as (Hlo & Hmid & Hhi).
      unfold isInt in *. unfold abUpdate in H. cbn [alpha beta] in H.
      destruct (Z.ltb_spec r bs) as [Hacc|Hrej].
      * assert (r = x0) by lia. subst r.
        destruct (Z.ltb_spec x0 bs); [|lia].
        cbn [alpha beta bestNode bestScore] in H. rewrite Z.geb_leb in H.
        destruct (Z.leb_spec x0 MinInt).
        -- inversion H; subst. symmetry. apply fold_keepFirst_stuck.
           intros p Hp. pose proof (Forall2_vals_int _ _ HF' p Hp) as Hp'.
           unfold notBetter, isInt in *. simpl. lia.
        -- apply (IH vals' HF' k (Some c0) x0 res); [lia|exact H].
      * assert (bs <= x0) by lia.
        destruct (Z.ltb_spec x0 bs); [lia|].
        cbn [alpha beta] in H. rewrite Z.geb_leb in H.
        destruct (Z.leb_spec bs MinInt); [lia|].
        apply (IH vals' HF' k bn bs res); [lia|exact H].
Qed.

End RootLoop.

Lemma rootFrame_init maximizing :
  rootFrame maximizing None (MinimaxInitScore maximizing)
    = mkFrame MinInt MaxInt None (MinimaxInitScore maximizing).
Proof. destruct maximizing; reflexivity. Qed.

Lemma openFrame_init maximizing : openFrame maximizing (MinimaxInitScore maximizing).
Proof. destruct maximizing; unfold openFrame, MinimaxInitScore, MinInt, MaxInt; lia. Qed.

(** The scores of the children of an expanded position, as the
    exhaustive search computes them. *)
Lemma children_values (n : node) depth maximizing cs :
  1 <= depth <= MaxInt -> IsTerminal n = false -> finitelyBranching n maximizing ->
  yields (SearchNodeGenerator n) maximizing cs ->
  exists F vals,
    Forall2 (fun c x => exists b, Minimax F c (depth - 1) (negb maximizing) = Some (b, x)) cs vals.
Proof.
  intros Hd Hterm Hfb Hcs.
  assert (Hd' : Z.of_nat (Z.to_nat depth) <= MaxInt) by lia.
  destruct (Minimax_total _ n maximizing Hd' Hfb) as (fuel & r & Hr).
  rewrite Z2Nat.id in Hr by lia.
  destruct fuel as [|fuel]; [discriminate|]. simpl in Hr.
  destruct (Z.eqb_spec depth 0) as [|_]; [lia|]. rewrite Hterm in Hr. simpl in Hr.
  rewrite wrap_pred in Hr by lia.
  destruct (minimaxLoop_yields _ _ _ _ Hcs _ _ _ _ Hr) as (vals & HF & _).
  exists fuel, vals. exact HF.
Qed.

(** The pruned search at an expanded position is the strict fold over
    the children's scores. *)
Lemma AlphaBeta_root_fold (n : node) depth maximizing cs F vals fuel res :
  1 <= depth <= MaxInt -> IsTerminal n = false ->
  yields (SearchNodeGenerator n) maximizing cs ->
  Forall2 (fun c x => exists b, Minimax F c (depth - 1) (negb maximizing) = Some (b, x)) cs vals ->
  MinimaxAlphaBetaPrunning fuel n depth maximizing = Some res ->
  res = fold_left (keepFirst maximizing) (combine cs vals) (None, MinimaxInitScore maximizing).
Proof.
  intros Hd Hterm Hcs HF H. unfold MinimaxAlphaBetaPrunning in H.
  destruct fuel as [|fuel]; [discriminate|]. cbn [minimaxAlphaBetaPrunningImpl] in H.
  destruct (Z.leb_spec depth 0); [lia|]. rewrite Hterm in H. simpl orb in H. cbv iota in H.
  rewrite wrap_pred in H by lia. rewrite <- rootFrame_init in H.
  eapply (root_loop (fun c => Minimax F c (depth - 1) (negb maximizing))
            (fun c a b => minimaxAlphaBetaPrunningImpl fuel c (depth - 1) a b (negb maximizing)));
    [| | |exact Hcs|exact HF|apply openFrame_init|exact H].
  - intros c b v Hv. eapply Minimax_int; exact Hv.
  - intros c a b r v Hv. eapply alphaBetaImpl_int; exact Hv.
  - intros c a b r1 v r2 s0 Hab Hb Hm Ha.
    apply (alphaBeta_bracket F c (depth - 1) (negb maximizing) a b fuel r1 v r2 s0); auto; lia.
Qed.

(** In job order the consumer's tie rule never fires: a later result has
    a larger id than the best so far. *)
Lemma consumer_in_job_order fuel depth maximizing : forall (cs : list node) counter rs best,
  runWorkers fuel (jobsFrom counter depth maximizing cs) = Some rs ->
  res_jobId best < counter ->
  (res_node (fold_left (consumerAccept maximizing) rs best),
   res_score (fold_left (consumerAccept maximizing) rs best))
  = fold_left (keepFirst maximizing) (combine cs (map (@res_score node) rs))
      (res_node best, res_score best).
Proof.
  induction cs as [|c cs IH]; intros counter rs best H Hid; simpl in H.
  - inversion H; subst. reflexivity.
  - unfold minimaxConcurrentWorker in H. simpl in H.
    destruct (MinimaxAlphaBetaPrunning fuel c (wrap (depth - 1)) (negb maximizing))
      as [[b s]|] eqn:Hc; [|discriminate].
    destruct (runWorkers fuel (jobsFrom (counter + 1) depth maximizing cs)) as [rs0|] eqn:Hrs;
      [|discriminate].
    inversion H; subst. cbn [map combine fold_left].
    set (r := mkResult counter (Some c) s).
    destruct (consumerAccept_cases maximizing best r) as [[Hp ->]|[Hn ->]];
      rewrite (IH (counter + 1) rs0 _ Hrs) by (simpl; lia); f_equal;
      unfold prefers, keepFirst in *; simpl in *.
    + destruct maximizing; zbool; try reflexivity; lia.
    + destruct maximizing; zbool; try reflexivity; lia.
Qed.

Lemma alphaBeta_first_optimal (n : node) (depth : Z) (maximizing : bool)
    (cs : list node) :
  1 <= depth <= MaxInt -> IsTerminal n = false -> finitelyBranching n maximizing ->
  yields (SearchNodeGenerator n) maximizing cs ->
  exists fuel r,
    (forall fuel', (fuel <= fuel')%nat ->
       MinimaxAlphaBetaPrunning fuel' n depth maximizing = Some r) /\
    ((r = (None, MinimaxInitScore maximizing) /\
        forall c s, In c cs -> childScore depth maximizing c s ->
          s = MinimaxInitScore maximizing) \/
     (exists cs1 c cs2, cs = cs1 ++ c :: cs2 /\ fst r = Some c /\
        snd r <> MinimaxInitScore maximizing /\
        childScore depth maximizing c (snd r) /\
        (forall c' s', In c' cs1 -> childScore depth maximizing c' s' ->
           worse maximizing s' (snd r)) /\
        (forall c' s', In c' cs2 -> childScore depth maximizing c' s' ->
           notBetter maximizing s' (snd r)))).
Proof.
  intros Hd Hterm Hfb Hcs.
  assert (Hd0 : 0 <= depth <= MaxInt) by lia.
  destruct (searches_return n depth maximizing Hd0 Hfb) as (fuel & r1 & r & Hret).
  destruct (Hret fuel (Nat.le_refl _)) as [_ Hab].
  destruct (children_values n depth maximizing cs Hd Hterm Hfb Hcs) as (F & vals & HF).
  pose proof (AlphaBeta_root_fold _ _ _ _ _ _ _ _ Hd Hterm Hcs HF Hab) as Hres.
  pose proof (Forall2_length HF) as Hlen.
  pose proof (combine_Forall2_in _ _ _ HF) as Hin.
  assert (Hval : forall c x s, In (c, x) (combine cs vals) ->
            childScore depth maximizing c s -> s = x).
  { intros c x s0 Hp (f' & b' & Hs'). destruct (Hin c x Hp) as [b Hb].
    pose proof (Minimax_det _ _ _ _ _ _ _ Hs' Hb) as Heq. now inversion Heq. }
  exists fuel, r. split; [intros fuel' Hle; apply Hret, Hle|].
  destruct (fold_keepFirst_first maximizing (combine cs vals) None
              (MinimaxInitScore maximizing) r Hres)
    as [[Hr Hall]|(p1 & c & p2 & Hl & Hfst & H1 & H2 & Hbs)].
  - left. split; [exact Hr|]. intros c s0 Hc Hs.
    rewrite <- (map_fst_combine_eq cs vals Hlen) in Hc.
    apply in_map_iff in Hc. destruct Hc as ([c1 x1] & Heq & Hp). simpl in Heq. subst c1.
    rewrite (Hval _ _ _ Hp Hs). specialize (Hall _ Hp). simpl in Hall.
    destruct (Hin c x1 Hp) as [b Hb]. pose proof (Minimax_int _ _ _ _ _ _ Hb) as Hx.
    unfold notBetter, MinimaxInitScore, isInt in *. destruct maximizing; lia.
  - right. exists (map fst p1), c, (map fst p2).
    split; [|split; [exact Hfst|split; [|split; [|split]]]].
    + rewrite <- (map_fst_combine_eq cs vals Hlen), Hl, map_app. reflexivity.
    + unfold worse in Hbs. destruct maximizing; lia.
    + destruct (Hin c (snd r)) as [b Hb]; [rewrite Hl; apply in_or_app; right; now left|].
      exists F, b. exact Hb.
    + intros c' s' Hc' Hs'.
      apply in_map_iff in Hc'. destruct Hc' as ([c1 x1] & Heq & Hp). simpl in Heq. subst c1.
      rewrite (Hval c' x1 s'); [apply (H1 _ Hp)| |exact Hs'].
      rewrite Hl. apply in_or_app. now left.
    + intros c' s' Hc' Hs'.
      apply in_map_iff in Hc'. destruct Hc' as ([c1 x1] & Heq & Hp). simpl in Heq. subst c1.
      rewrite (Hval c' x1 s'); [apply (H2 _ Hp)| |exact Hs'].
      rewrite Hl. apply in_or_app. right. now right.
Qed.

(** The pruned search returns the first child of optimal score: every
    child generated before it is strictly worse, none after it is better.
    It returns a nil state exactly when every child's score equals the
    sentinel of the side to move (as for no children at all). *)
Theorem AlphaBeta_returns_first_optimal_child (n : node) (depth : Z) (maximizing : bool)
    (cs : list node) :
  1 <= depth <= MaxInt -> IsTerminal n = false -> finitelyBranching n maximizing ->
  yields (SearchNodeGenerator n) maximizing cs ->
  exists fuel r,
    (forall fuel', (fuel <= fuel')%nat ->
       MinimaxAlphaBetaPrunning fuel' n depth maximizing = Some r) /\
    ((r = (None, MinimaxInitScore maximizing) /\
        forall c s, In c cs -> childScore depth maximizing c s ->
          s = MinimaxInitScore maximizing) \/
     (exists cs1 c cs2, cs = cs1 ++ c :: cs2 /\ fst r = Some c /\
        snd r <> MinimaxInitScore maximizing /\
        childScore depth maximizing c (snd r) /\
        (forall c' s', In c' cs1 -> childScore depth maximizing c' s' ->
           worse maximizing s' (snd r)) /\
        (forall c' s', In c' cs2 -> childScore depth maximizing c' s' ->
           notBetter maximizing s' (snd r)))).
Proof. apply alphaBeta_first_optimal. Qed.

Lemma concurrent_alphaBeta_agree (n : node) (depth : Z)
    (maximizing : bool) (workers : Z) :
  0 <= depth <= MaxInt -> 1 <= workers -> finitelyBranching n maximizing ->
  (forall cs, yields (SearchNodeGenerator n) maximizing cs -> Z.of_nat (length cs) <= MaxInt) ->
  exists fuel r, forall fuel', (fuel <= fuel')%nat ->
    MinimaxAlphaBetaPrunning fuel' n depth maximizing = Some r /\
    forall sched, fairSchedule sched ->
      MinimaxConcurrent fuel' sched n depth maximizing workers = Some r.
Proof.
  intros Hd Hw Hfb Hfit.
  assert (Hbase : depth = 0 \/ IsTerminal n = true ->
    exists fuel r, forall fuel', (fuel <= fuel')%nat ->
      MinimaxAlphaBetaPrunning fuel' n depth maximizing = Some r /\
      forall sched, fairSchedule sched ->
        MinimaxConcurrent fuel' sched n depth maximizing workers = Some r).
  { intros Hb. exists 1%nat, (Some n, Score n). intros fuel' Hle. split.
    - apply (base_case_all n depth maximizing workers (mkSchedule (fun rs => rs) 0) fuel');
        [exact Hb | lia | exact Hle].
    - intros sched _.
      apply (base_case_all n depth maximizing workers sched fuel'); [exact Hb | lia | exact Hle]. }
  destruct (Z.eq_dec depth 0) as [Hz|Hnz]; [apply Hbase; now left|].
  destruct (IsTerminal n) eqn:Hterm; [apply Hbase; now right|]. clear Hbase.
  assert (Hd1 : 1 <= depth <= MaxInt) by lia.
  destruct (Hfb n maximizing (reach_root _ _)) as [cs Hcs].
  pose proof (Hfit cs Hcs) as Hlen.
  destruct (searches_return n depth maximizing Hd Hfb) as (F0 & r1 & r & Hroot).
  destruct (Hroot F0 (Nat.le_refl _)) as [_ Hab].
  destruct (children_values n depth maximizing cs Hd1 Hterm Hfb Hcs) as (Fv & vals & HFv).
  pose proof (AlphaBeta_root_fold _ _ _ _ _ _ _ _ Hd1 Hterm Hcs HFv Hab) as Hres.
  destruct (common_fuel
    (fun f c => exists r, MinimaxAlphaBetaPrunning f c (wrap (depth - 1)) (negb maximizing) = Some r)
    cs) as [Fk HFk].
  { intros f f' c [r0 Hr] Hle. exists r0. eapply alphaBetaImpl_mono; eauto. }
  { intros c Hc. rewrite wrap_pred by lia.
    assert (Hfbc : finitelyBranching c (negb maximizing))
      by (eapply finitelyBranching_child; eauto; eapply yields_produces; eauto).
    assert (Hdc : 0 <= depth - 1 <= MaxInt) by lia.
    destruct (searches_return c (depth - 1) (negb maximizing) Hdc Hfbc) as (Fc & q1 & q2 & Hc2).
    exists Fc, q2. apply (Hc2 Fc (Nat.le_refl _)). }
  set (F := Nat.max F0 (Nat.max Fk (S (length cs)))).
  destruct (runWorkers_total F depth maximizing cs 0) as [rs Hrs].
  { intros c Hc. destruct (HFk c Hc) as [r0 Hr]. exists r0.
    eapply alphaBetaImpl_mono; [exact Hr|lia]. }
  destruct (runWorkers_jobsFrom _ _ _ _ _ _ Hrs) as (HFr & _ & _).
  assert (Hmap : map (@res_score node) rs = vals).
  { eapply Forall2_map_eq; [exact HFr|exact HFv|].
    intros c r0 x Hc [_ [b Hb]] [b' Hb']. rewrite wrap_pred in Hb by lia.
    eapply alphaBeta_same_score; [|exact Hb'|exact Hb]. lia. }
  exists F, r. intros fuel' Hle. split; [apply Hroot; lia|].
  intros sched Hfair.
  rewrite (concurrent_eval n depth maximizing workers cs fuel' rs sched);
    try assumption; try lia; [|eapply runWorkers_mono; [exact Hrs|exact Hle]].
  f_equal. rewrite Hres, <- Hmap.
  apply (consumer_in_job_order F depth maximizing cs 0 rs (initBest maximizing) Hrs).
  simpl. lia.
Qed.


End FirstOptimal.

Lemma AlphaBeta_returns_first_optimal_child_witness :
  let n := Tree 0 false [leaf 2; leaf 7; leaf 7; leaf 1] in
  let cs := [leaf 2; leaf 7; leaf 7; leaf 1] in
  exists fuel r,
    (forall fuel', (fuel <= fuel')%nat -> MinimaxAlphaBetaPrunning fuel' n 1 true = Some r) /\
    ((r = (None, MinimaxInitScore true) /\
        forall c s, In c cs -> childScore 1 true c s -> s = MinimaxInitScore true) \/
     (exists cs1 c cs2, cs = cs1 ++ c :: cs2 /\ fst r = Some c /\
        snd r <> MinimaxInitScore true /\
        childScore 1 true c (snd r) /\
        (forall c' s', In c' cs1 -> childScore 1 true c' s' -> worse true s' (snd r)) /\
        (forall c' s', In c' cs2 -> childScore 1 true c' s' -> notBetter true s' (snd r)))).
Proof.
  apply (AlphaBeta_returns_first_optimal_child (SN := treeSearchNode)
           (Tree 0 false [leaf 2; leaf 7; leaf 7; leaf 1]) 1 true).
  - unfold MaxInt; lia.
  - reflexivity.
  - apply GameTreeFacts.tree_finitelyBranching.
  - apply GameTreeFacts.tree_yields.
Defined.


(** ** Searches on a model that meets the assumptions *)

Section Produced.

Context {node : Type} {SN : SearchNode node}.

(** A node a generator returns before its first nil is one of the
    children it yields. *)
Lemma produces_yields gen maximizing c :
  produces gen maximizing c -> forall cs, yields gen maximizing cs -> In c cs.
Proof.
  induction 1 as [gen m c gen' Hinv|gen m c0 gen' c Hinv Hp IH]; intros cs Hy.
  - inversion Hy as [g1 m1 g1' Hinv1|g1 m1 c1 g1' cs1 Hinv1 Hy1]; subst.
    + rewrite Hinv in Hinv1. discriminate.
    + rewrite Hinv in Hinv1. inversion Hinv1; subst. now left.
  - inversion Hy as [g1 m1 g1' Hinv1|g1 m1 c1 g1' cs1 Hinv1 Hy1]; subst.
    + rewrite Hinv in Hinv1. discriminate.
    + rewrite Hinv in Hinv1. inversion Hinv1; subst. right. now apply IH.
Qed.

End Produced.

Section SearchesAgree.

Context {node : Type} {SN : SearchNode node}.

(** The three searches at a position that satisfies the assumptions of the
    engine. *)
Lemma searches_agree (n : node) (depth : Z) (maximizing : bool) (workers : Z) :
  0 <= depth <= MaxInt -> 1 <= workers -> finitelyBranching n maximizing ->
  (forall cs, yields (SearchNodeGenerator n) maximizing cs -> Z.of_nat (length cs) <= MaxInt) ->
  exists fuel r1 r, snd r = snd r1 /\
    forall fuel', (fuel <= fuel')%nat ->
      Minimax fuel' n depth maximizing = Some r1 /\
      MinimaxAlphaBetaPrunning fuel' n depth maximizing = Some r /\
      forall sched, fairSchedule sched ->
        MinimaxConcurrent fuel' sched n depth maximizing workers = Some r.
Proof.
  intros Hd Hw Hfb Hfit.
  destruct (searches_return n depth maximizing Hd Hfb) as (f1 & r1 & r2 & H1).
  destruct (concurrent_alphaBeta_agree n depth maximizing workers Hd Hw Hfb Hfit)
    as (f2 & r & H2).
  destruct (H1 (Nat.max f1 f2) ltac:(lia)) as [Hm Hab].
  destruct (H2 (Nat.max f1 f2) ltac:(lia)) as [Hab' _].
  assert (r2 = r) by congruence. subst r2.
  exists (Nat.max f1 f2), r1, r. split.
  - destruct r1 as [n1 v], r as [n2 s]. simpl.
    exact (alphaBeta_same_score _ _ _ _ _ _ _ _ _ Hd Hm Hab).
  - intros fuel' Hle. destruct (H1 fuel' ltac:(lia)) as [Hm' Hab2].
    destruct (H2 fuel' ltac:(lia)) as [_ Hc]. auto.
Qed.

End SearchesAgree.

(** * Further properties of the tic-tac-toe model *)

Section TicTacToeGenerator.

(** The boards obtained by writing [symbol] into the empty squares among
    [sq], in the order of [sq]. *)
Definition childrenOn (b : tttNode) (symbol : Z) (sq : list (nat * nat)) : list tttNode :=
  flat_map (fun yx => if cell b (fst yx) (snd yx) =? empty
                      then [setCell b (fst yx) (snd yx) symbol] else []) sq.

Definition tttChildren (b : tttNode) (maximizing : bool) : list tttNode :=
  childrenOn b (symbolOf maximizing) squares.

(** The closure's position [(x, y)] counted along the scan: after column
    2 the scan passes through [x = 3] before it moves to the next row. *)
Definition scanState (b : tttNode) (s : nat) : tttGenerator :=
  mkGen b (s mod 4) (s / 4).

Definition childrenAt (b : tttNode) (symbol : Z) (s : nat) : list tttNode :=
  if ((s mod 4 <? 3)%nat && (cell b (s / 4) (s mod 4) =? empty))%bool
  then [setCell b (s / 4) (s mod 4) symbol] else [].

(** Every square holds one of the three symbols. *)
Definition isSymbol (v : Z) : bool := (v =? cross) || (v =? empty) || (v =? circle).

Definition validBoard (b : tttNode) : bool :=
  forallb (fun yx => isSymbol (cell b (fst yx) (snd yx))) squares.

(** [P] on each of the three symbols, and on each board that holds only
    symbols. *)
Definition forSymbols (P : Z -> bool) : bool := P cross && P empty && P circle.

Definition forBoards (P : tttNode -> bool) : bool :=
  forSymbols (fun c00 => forSymbols (fun c01 => forSymbols (fun c02 =>
  forSymbols (fun c10 => forSymbols (fun c11 => forSymbols (fun c12 =>
  forSymbols (fun c20 => forSymbols (fun c21 => forSymbols (fun c22 =>
    P (mkBoard c00 c01 c02 c10 c11 c12 c20 c21 c22)))))))))).

(** What [Score] and [IsTerminal] guarantee on one board. *)
Definition scoreCheck (b : tttNode) : bool :=
  (-7 <=? tttScore b) && (tttScore b <=? 7) &&
  Bool.eqb (tttScore b =? 0) (negb (fst (anyFullRow b))) &&
  (tttIsTerminal b || (tttScore b =? 0)).

Lemma yields_same_invoke (g g' : tttGenerator) maximizing cs :
  tttInvoke g maximizing = tttInvoke g' maximizing ->
  yields (node := tttNode) g' maximizing cs -> yields (node := tttNode) g maximizing cs.
Proof.
  intros Heq Hy. inversion Hy; subst.
  - eapply yields_nil. simpl in *. rewrite Heq. eassumption.
  - eapply yields_cons; [|eassumption]. simpl in *. rewrite Heq. eassumption.
Qed.

Lemma scan_yields (b : tttNode) maximizing : forall n s, (s + n = 12)%nat ->
  yields (node := tttNode) (scanState b s) maximizing
    (flat_map (childrenAt b (symbolOf maximizing)) (seq s n)).
Proof.
  induction n as [|n IH]; intros s Hs.
  - assert (s = 12%nat) by lia. subst s. eapply yields_nil. reflexivity.
  - specialize (IH (S s) ltac:(lia)). cbn [seq flat_map].
    assert (Hlt : (s < 12)%nat) by lia. clear Hs.
    set (rest := flat_map _ (seq (S s) n)) in *. clearbody rest.
    do 12 (destruct s as [|s]; [
      unfold childrenAt, scanState in *; cbn [Nat.modulo Nat.div Nat.divmod fst snd Nat.ltb
        Nat.leb andb Nat.sub] in *;
      first
        [ match goal with
          | |- context [cell b ?y ?x =? empty] =>
            destruct (cell b y x =? empty) eqn:Hc; cbn [app];
            [ eapply yields_cons; [|exact IH];
              change (tttInvoke (mkGen b x y) maximizing = (Some (setCell b y x (symbolOf maximizing)), mkGen b (S x) y));
              unfold tttInvoke; cbn -[cell setCell Z.eqb]; rewrite Hc; reflexivity
            | eapply yields_same_invoke; [|exact IH];
              unfold tttInvoke; cbn -[cell setCell Z.eqb]; rewrite Hc; reflexivity ]
          end
        | eapply yields_same_invoke; [|exact IH]; reflexivity ]
      |]).
    lia.
Qed.

Lemma childrenAt_squares (b : tttNode) symbol :
  flat_map (childrenAt b symbol) (seq 0 12) = childrenOn b symbol squares.
Proof. reflexivity. Qed.

Lemma ttt_yields (b : tttNode) maximizing :
  yields (SearchNodeGenerator b) maximizing (tttChildren b maximizing).
Proof.
  unfold tttChildren. rewrite <- childrenAt_squares.
  apply (scan_yields b maximizing 12 0). reflexivity.
Qed.

Lemma count_empty (b : tttNode) symbol : forall (sq : list (nat * nat)) acc,
  fold_left (fun num yx => if cell b (fst yx) (snd yx) =? empty then num + 1 else num) sq acc
    = acc + Z.of_nat (length (childrenOn b symbol sq)).
Proof.
  induction sq as [|yx sq IH]; intros acc; simpl; [lia|].
  rewrite IH. unfold childrenOn in *. rewrite length_app.
  destruct (cell b (fst yx) (snd yx) =? empty); simpl; lia.
Qed.

Lemma tttChildren_length (b : tttNode) maximizing :
  Z.of_nat (length (tttChildren b maximizing)) = numberEmptySquares b.
Proof.
  unfold numberEmptySquares, tttChildren.
  rewrite (count_empty b (symbolOf maximizing)). lia.
Qed.

Lemma childrenOn_length_le (b : tttNode) symbol (sq : list (nat * nat)) :
  (length (childrenOn b symbol sq) <= length sq)%nat.
Proof.
  induction sq as [|yx sq IH]; simpl; [lia|].
  unfold childrenOn in *. rewrite length_app.
  destruct (cell b (fst yx) (snd yx) =? empty); simpl; lia.
Qed.

Lemma ttt_finitelyBranching (b : tttNode) maximizing : finitelyBranching b maximizing.
Proof. intros n m _. exists (tttChildren n m). apply ttt_yields. Qed.

Lemma ttt_children_fit (b : tttNode) maximizing cs :
  yields (SearchNodeGenerator b) maximizing cs -> Z.of_nat (length cs) <= MaxInt.
Proof.
  intros Hy. rewrite (yields_fun _ _ _ (ttt_yields b maximizing) _ Hy).
  pose proof (childrenOn_length_le b (symbolOf maximizing) squares) as Hle.
  unfold tttChildren. change (length squares) with 9%nat in Hle. unfold MaxInt. lia.
Qed.

Lemma tttChildren_In (b : tttNode) maximizing c :
  In c (tttChildren b maximizing) ->
  exists y x, In (y, x) squares /\ cell b y x = empty /\ c = setCell b y x (symbolOf maximizing).
Proof.
  unfold tttChildren, childrenOn. intros H. apply in_flat_map in H.
  destruct H as ([y x] & Hsq & Hc). cbn [fst snd] in Hc.
  destruct (Z.eqb_spec (cell b y x) empty) as [He|]; [|destruct Hc].
  destruct Hc as [<-|[]]. exists y, x. auto.
Qed.

(** On every board the generator returns, one by one and row by row, the
    boards with the side's symbol written into an empty square, and then
    nil; there are as many of them as there are empty squares. *)
Theorem ttt_generator_fills_each_empty_square (b : tttNode) (maximizing : bool) :
  yields (SearchNodeGenerator b) maximizing (tttChildren b maximizing) /\
  Z.of_nat (length (tttChildren b maximizing)) = numberEmptySquares b.
Proof. split; [apply ttt_yields|apply tttChildren_length]. Qed.

(** Once the closure has returned nil it returns nil at every later
    invocation, whatever side is passed, and its state does not change any
    more. *)
Theorem ttt_generator_stays_exhausted (g g' : tttGenerator) (maximizing maximizing' : bool) :
  tttInvoke g maximizing = (None, g') -> tttInvoke g' maximizing' = (None, g').
Proof.
  destruct g as [b x y]. unfold tttInvoke. cbn [gen_node gen_x gen_y].
  intros H.
  destruct y as [|[|[|y]]]; destruct x as [|[|[|x]]]; cbn in H;
    repeat match type of H with
    | context [if ?c then _ else _] => destruct c; try discriminate
    end;
    inversion H; subst; reflexivity.
Qed.

(** A board returned by the generator has exactly one empty square less
    than its parent, and it holds only symbols if its parent does. *)
Theorem ttt_child_fills_one_square (b c : tttNode) (maximizing : bool) :
  produces (SearchNodeGenerator b) maximizing c ->
  numberEmptySquares c = numberEmptySquares b - 1 /\
  (validBoard b = true -> validBoard c = true).
Proof.
  intros Hp. apply (fun H => produces_yields _ _ _ H _ (ttt_yields b maximizing)) in Hp.
  destruct (tttChildren_In _ _ _ Hp) as (y & x & Hsq & He & ->).
  destruct b as [c00 c01 c02 c10 c11 c12 c20 c21 c22].
  unfold numberEmptySquares, validBoard, empty in *.
  simpl in Hsq.
  repeat (destruct Hsq as [Hsq|Hsq]; [inversion Hsq; subst y x; clear Hsq|]);
    try (destruct Hsq); simpl in He; subst;
    (split; [destruct maximizing; simpl;
             repeat match goal with |- context [?v =? 0] => is_var v; destruct (v =? 0) end; lia
            |destruct maximizing; simpl; intros Hv; exact Hv]).
Qed.

End TicTacToeGenerator.

Lemma ttt_generator_stays_exhausted_witness :
  tttInvoke (tttSearchNodeGenerator TicTacToeFacts.drawnBoard) true
    = (None, mkGen TicTacToeFacts.drawnBoard 0 3) /\
  tttInvoke (mkGen TicTacToeFacts.drawnBoard 0 3) false
    = (None, mkGen TicTacToeFacts.drawnBoard 0 3).
Proof.
  split; [reflexivity|].
  apply (ttt_generator_stays_exhausted (tttSearchNodeGenerator TicTacToeFacts.drawnBoard)
           (mkGen TicTacToeFacts.drawnBoard 0 3) true false).
  reflexivity.
Defined.

Lemma ttt_child_fills_one_square_witness :
  produces (SearchNodeGenerator TicTacToeFacts.crossToWin) false TicTacToeFacts.crossWon /\
  numberEmptySquares TicTacToeFacts.crossWon = numberEmptySquares TicTacToeFacts.crossToWin - 1 /\
  (validBoard TicTacToeFacts.crossToWin = true -> validBoard TicTacToeFacts.crossWon = true).
Proof.
  assert (Hp : produces (SearchNodeGenerator TicTacToeFacts.crossToWin) false
                 TicTacToeFacts.crossWon).
  { eapply produces_now. reflexivity. }
  split; [exact Hp|].
  apply (ttt_child_fills_one_square TicTacToeFacts.crossToWin TicTacToeFacts.crossWon false Hp).
Defined.

Section TicTacToeSearch.

Lemma forSymbols_spec (P : Z -> bool) (v : Z) :
  forSymbols P = true -> isSymbol v = true -> P v = true.
Proof.
  unfold forSymbols, isSymbol. intros HP Hv.
  apply andb_true_iff in HP. destruct HP as [HP H3].
  apply andb_true_iff in HP. destruct HP as [H1 H2].
  apply orb_true_iff in Hv. destruct Hv as [Hv|Hv]; [apply orb_true_iff in Hv; destruct Hv as [Hv|Hv]|];
    apply Z.eqb_eq in Hv; subst; assumption.
Qed.

Lemma forBoards_spec (P : tttNode -> bool) (b : tttNode) :
  forBoards P = true -> validBoard b = true -> P b = true.
Proof.
  destruct b as [c00 c01 c02 c10 c11 c12 c20 c21 c22]. unfold validBoard, forBoards.
  cbn [forallb squares cell fst snd b00 b01 b02 b10 b11 b12 b20 b21 b22].
  intros HP H.
  repeat (apply andb_true_iff in H; let H' := fresh "Hc" in destruct H as [H' H]).
  apply (forSymbols_spec _ c00) in HP; [|assumption].
  apply (forSymbols_spec _ c01) in HP; [|assumption].
  apply (forSymbols_spec _ c02) in HP; [|assumption].
  apply (forSymbols_spec _ c10) in HP; [|assumption].
  apply (forSymbols_spec _ c11) in HP; [|assumption].
  apply (forSymbols_spec _ c12) in HP; [|assumption].
  apply (forSymbols_spec _ c20) in HP; [|assumption].
  apply (forSymbols_spec _ c21) in HP; [|assumption].
  apply (forSymbols_spec _ c22) in HP; [|assumption].
  exact HP.
Qed.

Lemma scoreCheck_forBoards : forBoards scoreCheck = true.
Proof. vm_compute. reflexivity. Qed.

Lemma ttt_score_facts (b : tttNode) : validBoard b = true ->
  -7 <= tttScore b <= 7 /\
  (tttScore b = 0 <-> fst (anyFullRow b) = false) /\
  (tttIsTerminal b = false -> tttScore b = 0).
Proof.
  intros H. apply (forBoards_spec _ _ scoreCheck_forBoards) in H. unfold scoreCheck in H.
  repeat (apply andb_true_iff in H; destruct H as [H ?]).
  apply Z.leb_le in H. apply Z.leb_le in H2. apply eqb_prop in H1.
  split; [lia|split].
  - destruct (Z.eqb_spec (tttScore b) 0) as [He|Hne]; destruct (fst (anyFullRow b));
      simpl in H1; try discriminate; split; intros; congruence.
  - intros Ht. rewrite Ht in H0. simpl in H0. now apply Z.eqb_eq.
Qed.

End TicTacToeSearch.

(** On a board that holds only symbols, [Score] lies between -7 and 7; it
    is zero exactly when no line is complete; in particular it is zero at
    every position that is not terminal. *)
Theorem ttt_score_is_small_and_zero_before_the_end (b : tttNode) :
  validBoard b = true ->
  -7 <= tttScore b <= 7 /\
  (tttScore b = 0 <-> fst (anyFullRow b) = false) /\
  (tttIsTerminal b = false -> tttScore b = 0).
Proof. apply ttt_score_facts. Qed.

Lemma ttt_score_is_small_and_zero_before_the_end_witness :
  validBoard TicTacToeFacts.crossWon = true /\
  -7 <= tttScore TicTacToeFacts.crossWon <= 7 /\
  (tttScore TicTacToeFacts.crossWon = 0 <-> fst (anyFullRow TicTacToeFacts.crossWon) = false) /\
  (tttIsTerminal TicTacToeFacts.crossWon = false -> tttScore TicTacToeFacts.crossWon = 0).
Proof.
  split; [reflexivity|].
  apply (ttt_score_is_small_and_zero_before_the_end TicTacToeFacts.crossWon). reflexivity.
Defined.

Section TicTacToeValues.

Lemma ttt_child_valid (b c : tttNode) maximizing :
  validBoard b = true -> In c (tttChildren b maximizing) -> validBoard c = true.
Proof.
  intros Hv Hc. destruct (tttChildren_In _ _ _ Hc) as (y & x & Hsq & He & ->).
  destruct b as [c00 c01 c02 c10 c11 c12 c20 c21 c22]. unfold validBoard, empty in *.
  simpl in Hsq.
  repeat (destruct Hsq as [Hsq|Hsq]; [inversion Hsq; subst y x; clear Hsq|]);
    try (destruct Hsq); simpl in He; subst; destruct maximizing; exact Hv.
Qed.

Lemma ttt_nonterminal_children (b : tttNode) maximizing :
  tttIsTerminal b = false -> tttChildren b maximizing <> [].
Proof.
  intros Ht Hnil. pose proof (tttChildren_length b maximizing) as Hlen.
  rewrite Hnil in Hlen. simpl in Hlen. unfold tttIsTerminal in Ht.
  destruct (anyFullRow b) as [row s]. rewrite <- Hlen in Ht.
  simpl in Ht. rewrite orb_true_r in Ht. discriminate.
Qed.

(** One expansion: the result is a child, with the value of a child. *)
Lemma ttt_expand fuel (b : tttNode) depth maximizing r v :
  (forall c depth' m' r' v', validBoard c = true ->
     Minimax fuel c depth' m' = Some (r', v') -> -7 <= v' <= 7) ->
  validBoard b = true -> (depth =? 0) || tttIsTerminal b = false ->
  Minimax (S fuel) b depth maximizing = Some (r, v) ->
  (exists c, r = Some c /\ In c (tttChildren b maximizing)) /\ -7 <= v <= 7.
Proof.
  intros IH Hv Hbase H. cbn [Minimax] in H.
  change (IsTerminal b) with (tttIsTerminal b) in H. rewrite Hbase in H.
  destruct (minimaxLoop_yields _ _ _ _ (ttt_yields b maximizing) _ _ _ _ H) as (vals & HF & Hres).
  pose proof (Forall2_length HF) as Hlen.
  pose proof (combine_Forall2_in _ _ _ HF) as Hin.
  apply orb_false_iff in Hbase. destruct Hbase as [_ Hterm].
  pose proof (ttt_nonterminal_children b maximizing Hterm) as Hne.
  destruct (fold_keepBest_last maximizing (combine (tttChildren b maximizing) vals) None
              (MinimaxInitScore maximizing) (r, v) Hres)
    as [[_ Hall]|(p1 & c & p2 & Hl & Hfst & _)].
  - exfalso. destruct (tttChildren b maximizing) as [|c0 cs] eqn:Hcs; [congruence|].
    destruct vals as [|x0 vals]; [discriminate|].
    specialize (Hall (c0, x0) (or_introl eq_refl)).
    destruct (Hin c0 x0 (or_introl eq_refl)) as [b0 Hb0].
    pose proof (Minimax_int _ _ _ _ _ _ Hb0) as Hx.
    unfold worse, MinimaxInitScore, isInt in *. simpl in Hall. destruct maximizing; lia.
  - cbn [fst snd] in *.
    assert (Hp : In (c, v) (combine (tttChildren b maximizing) vals))
      by (rewrite Hl; apply in_or_app; right; now left).
    pose proof (in_combine_l _ _ _ _ Hp) as Hc.
    destruct (Hin c v Hp) as [b0 Hb0]. split; [exists c; auto|].
    eapply IH; [|exact Hb0]. eapply ttt_child_valid; eauto.
Qed.

Lemma ttt_value_range fuel : forall (b : tttNode) depth maximizing r v,
  validBoard b = true -> Minimax fuel b depth maximizing = Some (r, v) -> -7 <= v <= 7.
Proof.
  induction fuel as [|fuel IH]; intros b depth maximizing r v Hv H; [discriminate|].
  destruct ((depth =? 0) || tttIsTerminal b) eqn:Hbase.
  - cbn [Minimax] in H. change (IsTerminal b) with (tttIsTerminal b) in H.
    rewrite Hbase in H. inversion H; subst. apply (ttt_score_facts b Hv).
  - eapply ttt_expand; eauto.
Qed.



End TicTacToeValues.



(** * Properties of the checkers model *)

Import Checkers.

Section Bits.

Definition isUint64 (z : Z) : Prop := 0 <= z < 2 ^ 64.

Lemma shl1_testbit (i j : Z) : 0 <= i -> 0 <= j ->
  Z.testbit (shl1 i) j = (i <? 64) && (j =? i).
Proof.
  intros Hi Hj. unfold shl1. destruct (Z.ltb_spec i 64); simpl.
  - rewrite Z.shiftl_1_l, Z.pow2_bits_eqb by lia. apply Z.eqb_sym.
  - apply Z.bits_0.
Qed.

Lemma land_shl1 (num i : Z) : 0 <= i ->
  Z.land num (shl1 i) = if (i <? 64) && Z.testbit num i then shl1 i else 0.
Proof.
  intros Hi. apply Z.bits_inj'. intros j Hj.
  rewrite Z.land_spec, shl1_testbit by lia.
  destruct (Z.ltb_spec i 64); simpl; [|rewrite andb_false_r; now rewrite Z.bits_0].
  destruct (Z.eqb_spec j i) as [->|Hne].
  - destruct (Z.testbit num i); simpl; [|now rewrite Z.bits_0].
    rewrite shl1_testbit by lia. rewrite Z.eqb_refl.
    destruct (Z.ltb_spec i 64); [reflexivity|lia].
  - rewrite andb_false_r. destruct (Z.testbit num i); [|now rewrite Z.bits_0].
    rewrite shl1_testbit by lia. destruct (Z.eqb_spec j i); [contradiction|].
    now rewrite andb_false_r.
Qed.

Lemma isBit_testbit (num i : Z) : 0 <= i ->
  isBit num i = (i <? 64) && Z.testbit num i.
Proof.
  intros Hi. unfold isBit. rewrite land_shl1 by lia.
  destruct ((i <? 64) && Z.testbit num i) eqn:Hb; [|reflexivity].
  apply andb_true_iff in Hb. destruct Hb as [Hlt _]. apply Z.ltb_lt in Hlt.
  unfold shl1. destruct (Z.ltb_spec i 64); [|lia]. rewrite Z.shiftl_1_l.
  assert (0 < 2 ^ i) by (apply Z.pow_pos_nonneg; lia).
  destruct (Z.eqb_spec (2 ^ i) 0); [lia|reflexivity].
Qed.

Lemma clearBit_testbit (num i j : Z) : 0 <= i -> 0 <= j ->
  Z.testbit (clearBit num i) j = Z.testbit num j && negb ((i <? 64) && (j =? i)).
Proof.
  intros Hi Hj. unfold clearBit. rewrite Z.ldiff_spec, shl1_testbit by lia. reflexivity.
Qed.

Lemma setBit_testbit (num i j : Z) : 0 <= i -> 0 <= j ->
  Z.testbit (setBit num i) j = Z.testbit num j || ((i <? 64) && (j =? i)).
Proof.
  intros Hi Hj. unfold setBit. rewrite Z.lor_spec, clearBit_testbit, shl1_testbit by lia.
  destruct (Z.testbit num j), ((i <? 64) && (j =? i)); reflexivity.
Qed.

Lemma isBit_setBit (num i j : Z) : 0 <= i -> 0 <= j ->
  isBit (setBit num i) j = isBit num j || ((i <? 64) && (j =? i)).
Proof.
  intros Hi Hj. rewrite !isBit_testbit, setBit_testbit by lia.
  destruct (Z.ltb_spec j 64), (Z.ltb_spec i 64), (Z.eqb_spec j i); simpl;
    rewrite ?orb_false_r, ?orb_true_r; try reflexivity; lia.
Qed.

Lemma isBit_clearBit (num i j : Z) : 0 <= i -> 0 <= j ->
  isBit (clearBit num i) j = isBit num j && negb (j =? i).
Proof.
  intros Hi Hj. rewrite !isBit_testbit, clearBit_testbit by lia.
  destruct (Z.ltb_spec j 64), (Z.ltb_spec i 64), (Z.eqb_spec j i); simpl;
    rewrite ?andb_false_r, ?andb_true_r; try reflexivity; lia.
Qed.

Lemma isBit_lor (a b i : Z) : 0 <= i -> isBit (Z.lor a b) i = isBit a i || isBit b i.
Proof.
  intros Hi. rewrite !isBit_testbit, Z.lor_spec by lia.
  destruct (i <? 64); reflexivity.
Qed.

Lemma uint64_bits (z : Z) : 0 <= z ->
  (z < 2 ^ 64 <-> forall j, 64 <= j -> Z.testbit z j = false).
Proof.
  intros Hz. split.
  - intros Hlt j Hj. destruct (Z.eq_dec z 0) as [->|Hne]; [apply Z.bits_0|].
    apply Z.bits_above_log2; [lia|].
    assert (Z.log2 z < 64) by (apply Z.log2_lt_pow2; lia). lia.
  - intros Hbits.
    assert (Hmod : z mod 2 ^ 64 = z).
    { apply Z.bits_inj'. intros j Hj. destruct (Z.ltb_spec j 64).
      - apply Z.mod_pow2_bits_low. lia.
      - rewrite Z.mod_pow2_bits_high by lia. symmetry. apply Hbits. lia. }
    rewrite <- Hmod. apply Z.mod_pos_bound. lia.
Qed.

Lemma shl1_uint64 (i : Z) : 0 <= i -> isUint64 (shl1 i).
Proof.
  intros Hi. unfold isUint64, shl1. destruct (Z.ltb_spec i 64); [|lia].
  rewrite Z.shiftl_1_l. split; [apply Z.pow_nonneg; lia|].
  apply Z.pow_lt_mono_r; lia.
Qed.

Lemma lor_uint64 (a b : Z) : isUint64 a -> isUint64 b -> isUint64 (Z.lor a b).
Proof.
  unfold isUint64. intros [Ha0 Ha] [Hb0 Hb].
  assert (H0 : 0 <= Z.lor a b) by (apply Z.lor_nonneg; lia).
  split; [exact H0|]. apply uint64_bits; [exact H0|]. intros j Hj.
  rewrite Z.lor_spec.
  rewrite (proj1 (uint64_bits a Ha0) Ha j Hj), (proj1 (uint64_bits b Hb0) Hb j Hj). reflexivity.
Qed.

Lemma clearBit_uint64 (num i : Z) : isUint64 num -> isUint64 (clearBit num i).
Proof.
  unfold isUint64, clearBit. intros [H0 H].
  assert (H1 : 0 <= Z.ldiff num (shl1 i)) by (apply Z.ldiff_nonneg; lia).
  split; [exact H1|]. apply uint64_bits; [exact H1|]. intros j Hj.
  rewrite Z.ldiff_spec, (proj1 (uint64_bits num H0) H j Hj). reflexivity.
Qed.

Lemma setBit_uint64 (num i : Z) : 0 <= i -> isUint64 num -> isUint64 (setBit num i).
Proof.
  intros Hi H. unfold setBit. apply lor_uint64; [now apply clearBit_uint64|now apply shl1_uint64].
Qed.

Lemma uint64_zero_bits (z : Z) : isUint64 z ->
  (z = 0 <-> forall j, 0 <= j -> isBit z j = false).
Proof.
  intros [H0 H]. split.
  - intros -> j Hj. rewrite isBit_testbit by lia. rewrite Z.bits_0. apply andb_false_r.
  - intros Hall. apply Z.bits_inj'. intros j Hj. rewrite Z.bits_0.
    destruct (Z.ltb_spec j 64) as [Hlt|Hge].
    + specialize (Hall j Hj). rewrite isBit_testbit in Hall by lia.
      destruct (Z.ltb_spec j 64); [exact Hall|lia].
    + apply (proj1 (uint64_bits z H0) H). lia.
Qed.

(** Setting and clearing a bit, read back with [isBit]: [setBit] sets
    exactly the bit [index] and [clearBit] clears exactly that bit, an
    index of 64 or more addresses no bit at all, and both keep the value
    within 64 bits. *)
Theorem setBit_clearBit_isBit (num index j : Z) :
  isUint64 num -> 0 <= index -> 0 <= j ->
  isBit (setBit num index) j = isBit num j || ((index <? 64) && (j =? index)) /\
  isBit (clearBit num index) j = isBit num j && negb (j =? index) /\
  isUint64 (setBit num index) /\ isUint64 (clearBit num index) /\
  (64 <= j -> isBit num j = false).
Proof.
  intros Hn Hi Hj. split; [now apply isBit_setBit|]. split; [now apply isBit_clearBit|].
  split; [now apply setBit_uint64|]. split; [now apply clearBit_uint64|].
  intros H64. rewrite isBit_testbit by lia. destruct (Z.ltb_spec j 64); [lia|reflexivity].
Qed.

End Bits.

Lemma setBit_clearBit_isBit_witness :
  isUint64 5 /\
  isBit (setBit 5 63) 63 = isBit 5 63 || ((63 <? 64) && (63 =? 63)) /\
  isBit (clearBit 5 63) 63 = isBit 5 63 && negb (63 =? 63) /\
  isUint64 (setBit 5 63) /\ isUint64 (clearBit 5 63) /\
  (64 <= 63 -> isBit 5 63 = false).
Proof.
  assert (H : isUint64 5) by (unfold isUint64; lia).
  split; [exact H|]. apply (setBit_clearBit_isBit 5 63 63 H); lia.
Defined.

Section Geometry.

(** The squares of the board. *)
Definition boardIndices : list Z := Eval cbv in map Z.of_nat (seq 0 64).

Definition diagonalOffsets : list Z := [7; 9; -7; -9].

(** One row and one column apart. *)
Definition diagonalStep (index target : Z) : bool :=
  (Z.abs (index / 8 - target / 8) =? 1) && (Z.abs (index mod 8 - target mod 8) =? 1).

Definition offsetCheck (index offset : Z) : bool :=
  negb ((0 <=? index + offset) && (index + offset <=? 63)) ||
  Bool.eqb (offsetInBoard index offset) (diagonalStep index (index + offset)).

Lemma boardIndices_In (index : Z) : 0 <= index <= 63 -> In index boardIndices.
Proof.
  intros H. replace index with (Z.of_nat (Z.to_nat index)) by lia.
  unfold boardIndices.
  change (In (Z.of_nat (Z.to_nat index)) (map Z.of_nat (seq 0 64))).
  apply in_map, in_seq. lia.
Qed.

Lemma offsetCheck_all :
  forallb (fun index => forallb (offsetCheck index) diagonalOffsets) boardIndices = true.
Proof. vm_compute. reflexivity. Qed.

Lemma offsetInBoard_diagonal (index offset : Z) :
  0 <= index <= 63 -> 0 <= index + offset <= 63 -> In offset diagonalOffsets ->
  offsetInBoard index offset = diagonalStep index (index + offset).
Proof.
  intros Hi Ht Ho.
  pose proof (proj1 (forallb_forall _ _) offsetCheck_all index (boardIndices_In index Hi)) as H.
  cbv beta in H.
  pose proof (proj1 (forallb_forall _ _) H offset Ho) as Hc. unfold offsetCheck in Hc.
  destruct (Z.leb_spec 0 (index + offset)); [|lia].
  destruct (Z.leb_spec (index + offset) 63); [|lia].
  simpl in Hc. now apply eqb_prop.
Qed.

(** For a square of the board, a step of 7 or 9 squares forwards or
    backwards that ends on the board passes [offsetInBoard] exactly when
    it leads to a diagonal neighbour, one row and one column away: steps
    that wrap around the left or right edge are refused. *)
Theorem offsetInBoard_accepts_diagonal_neighbours (index offset : Z) :
  0 <= index <= 63 -> 0 <= index + offset <= 63 -> In offset diagonalOffsets ->
  (offsetInBoard index offset = true <->
   Z.abs (index / 8 - (index + offset) / 8) = 1 /\
   Z.abs (index mod 8 - (index + offset) mod 8) = 1).
Proof.
  intros Hi Ht Ho. rewrite (offsetInBoard_diagonal index offset Hi Ht Ho).
  unfold diagonalStep. rewrite andb_true_iff, !Z.eqb_eq. reflexivity.
Qed.

End Geometry.

Lemma offsetInBoard_accepts_diagonal_neighbours_witness :
  (offsetInBoard 14 9 = true <->
   Z.abs (14 / 8 - (14 + 9) / 8) = 1 /\ Z.abs (14 mod 8 - (14 + 9) mod 8) = 1).
Proof.
  apply (offsetInBoard_accepts_diagonal_neighbours 14 9); [lia | lia | simpl; auto].
Defined.

Section Moves.

Definition otherFigure (units : figure) : figure :=
  match units with pawns => kings | kings => pawns end.

(** The far row of a color, where its pawns are promoted. *)
Definition farRow (c : color) (index : Z) : bool :=
  match c with
  | black => (56 <=? index) && (index <? 64)
  | white => (0 <=? index) && (index <? 8)
  end.

Lemma isBit_true_lt (num i : Z) : 0 <= i -> isBit num i = true -> i < 64.
Proof.
  intros Hi H. rewrite isBit_testbit in H by lia.
  apply andb_true_iff in H. destruct H as [H _]. now apply Z.ltb_lt.
Qed.

Lemma enemy_boards_upgrade (node : cNode) (c : color) (index : Z) (units : figure) :
  board (upgradeToKing node c index) units (enemyColor c) = board node units (enemyColor c).
Proof.
  unfold upgradeToKing.
  destruct (isBit (board node pawns c) index); [|reflexivity].
  destruct c, units; simpl;
    match goal with |- context [if ?b then _ else _] => destruct b end; reflexivity.
Qed.

Lemma occupied_upgrade (node : cNode) (c c' : color) (index j : Z) :
  0 <= index -> 0 <= j ->
  placeOccupiedColor (upgradeToKing node c index) c' j = placeOccupiedColor node c' j.
Proof.
  intros Hi Hj. unfold upgradeToKing.
  destruct (isBit (board node pawns c) index) eqn:Hp; [|reflexivity].
  pose proof (isBit_true_lt _ _ Hi Hp) as Hlt.
  match goal with |- context [if ?b then _ else _] => destruct b end; [|reflexivity].
  unfold placeOccupiedColor, cloneNode.
  destruct c, c'; simpl in *; try reflexivity;
    rewrite !isBit_lor, isBit_setBit, isBit_clearBit by lia;
    (destruct (Z.eqb_spec j index) as [->|Hne];
     [rewrite Hp; destruct (Z.ltb_spec index 64); [simpl; now rewrite orb_true_r|lia]
     |simpl; now rewrite andb_true_r, andb_false_r, orb_false_r]).
Qed.

Lemma upgrade_changes (node : cNode) (c : color) (index : Z) :
  0 <= index -> upgradeToKing node c index <> node ->
  isBit (board node pawns c) index = true /\ farRow c index = true /\
  isBit (board (upgradeToKing node c index) kings c) index = true /\
  isBit (board (upgradeToKing node c index) pawns c) index = false.
Proof.
  intros Hi. unfold upgradeToKing, farRow.
  destruct (isBit (board node pawns c) index) eqn:Hp; [|congruence].
  pose proof (isBit_true_lt _ _ Hi Hp) as Hlt.
  destruct c; simpl in *;
    match goal with |- context [if ?b then _ else _] => destruct b eqn:Hrow end;
    try congruence; intros _; unfold cloneNode; simpl;
    rewrite isBit_setBit, isBit_clearBit by lia; rewrite Z.eqb_refl;
    (destruct (Z.ltb_spec index 64); [|lia]); simpl;
    rewrite ?orb_true_r, ?andb_false_r; auto.
Qed.

(** [upgradeToKing] never changes which squares a color occupies and
    never touches the other color's boards; it changes the node only when
    a pawn of the color stands at [index] on the color's far row, and then
    the pawn is replaced by a king. *)
Theorem upgradeToKing_keeps_occupancy (node : cNode) (c c' : color) (units : figure)
    (index j : Z) :
  0 <= index -> 0 <= j ->
  placeOccupiedColor (upgradeToKing node c index) c' j = placeOccupiedColor node c' j /\
  board (upgradeToKing node c index) units (enemyColor c) = board node units (enemyColor c) /\
  (upgradeToKing node c index <> node ->
   isBit (board node pawns c) index = true /\ farRow c index = true /\
   isBit (board (upgradeToKing node c index) kings c) index = true /\
   isBit (board (upgradeToKing node c index) pawns c) index = false).
Proof.
  intros Hi Hj. split; [now apply occupied_upgrade|]. split; [apply enemy_boards_upgrade|].
  now apply upgrade_changes.
Qed.

(** The figure of [units] and [c] taken from [index] and put on [target]. *)
Definition moved (node : cNode) (units : figure) (c : color) (index target : Z) : cNode :=
  let clone := setBoard node units c (clearBit (board node units c) index) in
  setBoard clone units c (setBit (board clone units c) target).

Lemma moved_enemy (node : cNode) units c index target units' :
  board (moved node units c index target) units' (enemyColor c) = board node units' (enemyColor c).
Proof. destruct units, c, units'; reflexivity. Qed.

Lemma moved_target (node : cNode) units c index target :
  0 <= index -> 0 <= target < 64 ->
  placeOccupiedColor (moved node units c index target) c target = true.
Proof.
  intros Hi Ht. unfold placeOccupiedColor, moved.
  destruct units, c; simpl; rewrite isBit_lor, isBit_setBit by lia;
    rewrite Z.eqb_refl; (destruct (Z.ltb_spec target 64); [|lia]); simpl;
    rewrite ?orb_true_r; reflexivity.
Qed.

Lemma moved_source (node : cNode) units c index target :
  0 <= index -> 0 <= target -> index <> target ->
  placeOccupiedColor (moved node units c index target) c index
    = placeOccupiedFigureColor node (otherFigure units) c index.
Proof.
  intros Hi Ht Hne. unfold placeOccupiedColor, placeOccupiedFigureColor, moved.
  destruct units, c; simpl; rewrite isBit_lor, isBit_setBit, isBit_clearBit by lia;
    rewrite Z.eqb_refl; (destruct (Z.eqb_spec index target); [contradiction|]); simpl;
    rewrite ?andb_false_r, ?orb_false_r; reflexivity.
Qed.

Lemma moved_elsewhere (node : cNode) units c index target j :
  0 <= index -> 0 <= target -> 0 <= j -> j <> index -> j <> target ->
  placeOccupiedColor (moved node units c index target) c j = placeOccupiedColor node c j.
Proof.
  intros Hi Ht Hj Hn1 Hn2. unfold placeOccupiedColor, moved.
  destruct units, c; simpl; rewrite !isBit_lor, isBit_setBit, isBit_clearBit by lia;
    (destruct (Z.eqb_spec j index); [contradiction|]);
    (destruct (Z.eqb_spec j target); [contradiction|]); simpl;
    rewrite ?andb_false_r, ?andb_true_r, ?orb_false_r; reflexivity.
Qed.

Lemma figureMove_ok (node : cNode) units c index offset clone :
  figureMove node units c index offset = (true, clone) ->
  0 <= index <= 63 /\ 0 <= wrap (index + offset) <= 63 /\
  offsetInBoard index offset = true /\ placeOccupied node (wrap (index + offset)) = false /\
  clone = upgradeToKing (moved node units c index (wrap (index + offset))) c (wrap (index + offset)).
Proof.
  unfold figureMove. set (t := wrap (index + offset)).
  destruct (Z.ltb_spec index 0); simpl; [discriminate|].
  destruct (Z.gtb_spec index 63); simpl; [discriminate|].
  destruct (Z.ltb_spec t 0); simpl; [discriminate|].
  destruct (Z.gtb_spec t 63); simpl; [discriminate|].
  destruct (offsetInBoard index offset); simpl; [|discriminate].
  destruct (placeOccupied node t); simpl; [discriminate|].
  intros Heq. inversion Heq. repeat split; try lia.
Qed.

(** A successful [figureMove] starts and ends on the board, passes
    [offsetInBoard] and ends on a square that was free.  It leaves the
    other color's boards as they were; of the moving color it occupies the
    target square, frees the source square (unless the color's other kind
    of figure stood there as well) and changes no other square. *)
Theorem figureMove_moves_one_figure (node clone : cNode) (units : figure) (c : color)
    (index offset : Z) :
  figureMove node units c index offset = (true, clone) ->
  let target := wrap (index + offset) in
  0 <= index <= 63 /\ 0 <= target <= 63 /\
  offsetInBoard index offset = true /\ placeOccupied node target = false /\
  (forall units', board clone units' (enemyColor c) = board node units' (enemyColor c)) /\
  placeOccupiedColor clone c target = true /\
  (index <> target ->
   placeOccupiedColor clone c index = placeOccupiedFigureColor node (otherFigure units) c index) /\
  (forall j, 0 <= j -> j <> index -> j <> target ->
   placeOccupiedColor clone c j = placeOccupiedColor node c j).
Proof.
  intros H target. destruct (figureMove_ok _ _ _ _ _ _ H) as (Hi & Ht & Hoff & Hfree & ->).
  fold target in Ht, Hfree |- *.
  split; [exact Hi|]. split; [exact Ht|]. split; [exact Hoff|]. split; [exact Hfree|].
  split; [|split; [|split]].
  - intros units'. rewrite enemy_boards_upgrade. apply moved_enemy.
  - rewrite occupied_upgrade by lia. apply moved_target; lia.
  - intros Hne. rewrite occupied_upgrade by lia. apply moved_source; lia.
  - intros j Hj Hn1 Hn2. rewrite occupied_upgrade by lia. apply moved_elsewhere; lia.
Qed.

(** The jumping figure moved and the jumped-over square cleared. *)
Definition jumped (node : cNode) (units : figure) (c : color) (index mid target : Z) : cNode :=
  let enemyCol := enemyColor c in
  let clone := setBoard node units c (clearBit (board node units c) index) in
  let clone := setBoard clone pawns enemyCol (clearBit (board clone pawns enemyCol) mid) in
  let clone := setBoard clone kings enemyCol (clearBit (board clone kings enemyCol) mid) in
  setBoard clone units c (setBit (board clone units c) target).

Lemma jumped_own (node : cNode) units c index mid target j :
  placeOccupiedColor (jumped node units c index mid target) c j
    = placeOccupiedColor (moved node units c index target) c j.
Proof. destruct units, c; reflexivity. Qed.

Lemma jumped_enemy (node : cNode) units c index mid target j :
  0 <= mid -> 0 <= j ->
  placeOccupiedColor (jumped node units c index mid target) (enemyColor c) j
    = placeOccupiedColor node (enemyColor c) j && negb (j =? mid).
Proof.
  intros Hm Hj. unfold placeOccupiedColor, jumped.
  destruct units, c; simpl; rewrite !isBit_lor, !isBit_clearBit by lia;
    destruct (j =? mid); simpl; rewrite ?andb_false_r, ?andb_true_r; reflexivity.
Qed.

Lemma figureJump_ok (node : cNode) units c index offset clone :
  figureJump node units c index offset = (true, clone) ->
  let mid := wrap (index + offset) in
  let target := wrap (index + wrap (2 * offset)) in
  0 <= index <= 63 /\ 0 <= target <= 63 /\
  offsetInBoard index offset = true /\ offsetInBoard mid offset = true /\
  placeOccupiedColor node (enemyColor c) mid = true /\ placeOccupied node target = false /\
  clone = upgradeToKing (jumped node units c index mid target) c target.
Proof.
  unfold figureJump. cbv zeta.
  set (mid := wrap (index + offset)). set (t := wrap (index + wrap (2 * offset))).
  destruct (Z.ltb_spec index 0); simpl; [discriminate|].
  destruct (Z.gtb_spec index 63); simpl; [discriminate|].
  destruct (Z.ltb_spec t 0); simpl; [discriminate|].
  destruct (Z.gtb_spec t 63); simpl; [discriminate|].
  destruct (offsetInBoard index offset); simpl; [|discriminate].
  destruct (offsetInBoard mid offset); simpl; [|discriminate].
  destruct (placeOccupiedColor node (enemyColor c) mid) eqn:He; simpl; [|discriminate].
  destruct (placeOccupied node t); simpl; [discriminate|].
  intros Heq. inversion Heq. repeat split; try lia.
Qed.

Lemma isBit_true_range (num i : Z) : isBit num i = true -> 0 <= i < 64.
Proof.
  intros H. destruct (Z.ltb_spec i 0) as [Hneg|Hpos].
  - exfalso. unfold isBit, shl1 in H. destruct (Z.ltb_spec i 64); [|lia].
    rewrite <- (Z.opp_involutive i), Z.shiftl_opp_r, Z.shiftr_div_pow2 in H by lia.
    rewrite Z.div_small in H.
    + rewrite Z.land_0_r in H. discriminate.
    + split; [lia|]. apply Z.pow_gt_1; lia.
  - split; [lia|]. now apply (isBit_true_lt num).
Qed.

(** A successful [figureJump] starts and ends on the board, jumps over a
    square occupied by the other color and lands on a square that was free.
    Of the other color it removes whatever stood on the jumped-over
    square, and nothing else; of the jumping color it occupies the target
    square, frees the source square (unless the color's other kind of
    figure stood there as well) and changes no other square. *)
Theorem figureJump_captures_the_jumped_figure (node clone : cNode) (units : figure)
    (c : color) (index offset : Z) :
  figureJump node units c index offset = (true, clone) ->
  let mid := wrap (index + offset) in
  let target := wrap (index + wrap (2 * offset)) in
  0 <= index <= 63 /\ 0 <= target <= 63 /\
  placeOccupiedColor node (enemyColor c) mid = true /\ placeOccupied node target = false /\
  0 <= mid <= 63 /\
  (forall j, 0 <= j ->
   placeOccupiedColor clone (enemyColor c) j
     = placeOccupiedColor node (enemyColor c) j && negb (j =? mid)) /\
  placeOccupiedColor clone c target = true /\
  (index <> target ->
   placeOccupiedColor clone c index = placeOccupiedFigureColor node (otherFigure units) c index) /\
  (forall j, 0 <= j -> j <> index -> j <> target ->
   placeOccupiedColor clone c j = placeOccupiedColor node c j).
Proof.
  intros H mid target.
  destruct (figureJump_ok _ _ _ _ _ _ H) as (Hi & Ht & _ & _ & He & Hfree & ->).
  fold mid in He |- *. fold target in Ht, Hfree |- *.
  assert (Hm : 0 <= mid < 64) by (apply (isBit_true_range _ _ He)).
  split; [exact Hi|]. split; [exact Ht|]. split; [exact He|]. split; [exact Hfree|].
  split; [lia|]. split; [|split; [|split]].
  - intros j Hj.
    replace (placeOccupiedColor (upgradeToKing (jumped node units c index mid target) c target)
               (enemyColor c) j)
      with (placeOccupiedColor (jumped node units c index mid target) (enemyColor c) j)
      by (symmetry; apply occupied_upgrade; lia).
    apply jumped_enemy; lia.
  - rewrite occupied_upgrade, jumped_own by lia. apply moved_target; lia.
  - intros Hne. rewrite occupied_upgrade, jumped_own by lia. apply moved_source; lia.
  - intros j Hj Hn1 Hn2. rewrite occupied_upgrade, jumped_own by lia. apply moved_elsewhere; lia.
Qed.

End Moves.

Lemma upgradeToKing_keeps_occupancy_witness :
  let node := mkCNode 2 0 0 0 in
  placeOccupiedColor (upgradeToKing node white 1) white 1 = placeOccupiedColor node white 1 /\
  board (upgradeToKing node white 1) kings (enemyColor white) = board node kings (enemyColor white) /\
  (upgradeToKing node white 1 <> node ->
   isBit (board node pawns white) 1 = true /\ farRow white 1 = true /\
   isBit (board (upgradeToKing node white 1) kings white) 1 = true /\
   isBit (board (upgradeToKing node white 1) pawns white) 1 = false).
Proof.
  apply (upgradeToKing_keeps_occupancy (mkCNode 2 0 0 0) white white kings 1 1); lia.
Defined.

Lemma figureMove_moves_one_figure_witness :
  let node := mkCNode 512 0 0 0 in
  let clone := mkCNode 0 0 4 0 in
  figureMove node pawns white 9 (-7) = (true, clone) /\
  0 <= 9 <= 63 /\ 0 <= wrap (9 + -7) <= 63 /\
  offsetInBoard 9 (-7) = true /\ placeOccupied node (wrap (9 + -7)) = false /\
  (forall units', board clone units' (enemyColor white) = board node units' (enemyColor white)) /\
  placeOccupiedColor clone white (wrap (9 + -7)) = true /\
  (9 <> wrap (9 + -7) ->
   placeOccupiedColor clone white 9 = placeOccupiedFigureColor node (otherFigure pawns) white 9) /\
  (forall j, 0 <= j -> j <> 9 -> j <> wrap (9 + -7) ->
   placeOccupiedColor clone white j = placeOccupiedColor node white j).
Proof.
  assert (H : figureMove (mkCNode 512 0 0 0) pawns white 9 (-7) = (true, mkCNode 0 0 4 0))
    by reflexivity.
  split; [exact H|].
  exact (figureMove_moves_one_figure _ _ _ _ _ _ H).
Defined.

Lemma figureJump_captures_the_jumped_figure_witness :
  let node := mkCNode 4194304 0 0 2684354560 in
  let clone := mkCNode 68719476736 0 0 2147483648 in
  figureJump node pawns white 22 7 = (true, clone) /\
  0 <= 22 <= 63 /\ 0 <= wrap (22 + wrap (2 * 7)) <= 63 /\
  placeOccupiedColor node (enemyColor white) (wrap (22 + 7)) = true /\
  placeOccupied node (wrap (22 + wrap (2 * 7))) = false /\
  0 <= wrap (22 + 7) <= 63 /\
  (forall j, 0 <= j ->
   placeOccupiedColor clone (enemyColor white) j
     = placeOccupiedColor node (enemyColor white) j && negb (j =? wrap (22 + 7))) /\
  placeOccupiedColor clone white (wrap (22 + wrap (2 * 7))) = true /\
  (22 <> wrap (22 + wrap (2 * 7)) ->
   placeOccupiedColor clone white 22
     = placeOccupiedFigureColor node (otherFigure pawns) white 22) /\
  (forall j, 0 <= j -> j <> 22 -> j <> wrap (22 + wrap (2 * 7)) ->
   placeOccupiedColor clone white j = placeOccupiedColor node white j).
Proof.
  assert (H : figureJump (mkCNode 4194304 0 0 2684354560) pawns white 22 7
              = (true, mkCNode 68719476736 0 0 2147483648)) by reflexivity.
  split; [exact H|].
  exact (figureJump_captures_the_jumped_figure _ _ _ _ _ _ H).
Defined.

Section History.

Lemma boardEq_eq (n m : cNode) : boardEq n m = true <-> n = m.
Proof.
  destruct n as [a b c d], m as [a' b' c' d']. unfold boardEq. simpl.
  rewrite !andb_true_iff, !Z.eqb_eq. split.
  - intros [[[-> ->] ->] ->]. reflexivity.
  - intros H. inversion H. auto.
Qed.

(** After [addNodeHistory] the history holds the added node together with
    the nodes it held before, and no others: a node is found exactly if it
    was found before or has the board of the added node.  Boards that
    share a mask are told apart. *)
Theorem addNodeHistory_adds_exactly_the_node (h : cNodeHistory) (newNode searchNode : cNode) :
  inNodeHistory (addNodeHistory h newNode) searchNode
    = inNodeHistory h searchNode || boardEq newNode searchNode.
Proof.
  unfold inNodeHistory, addNodeHistory.
  destruct (Z.eqb_spec (boardMask searchNode) (boardMask newNode)) as [Heq|Hne].
  - rewrite existsb_app. simpl. rewrite orb_false_r. rewrite <- Heq.
    destruct (h (boardMask searchNode)); reflexivity.
  - destruct (boardEq newNode searchNode) eqn:Hb.
    + apply boardEq_eq in Hb. subst. contradiction.
    + rewrite orb_false_r. reflexivity.
Qed.

End History.

Section Terminal.

(** Every bitboard of the node is a [uint64]. *)
Definition cNodeInRange (node : cNode) : Prop :=
  forall units c, isUint64 (board node units c).

(** A node is terminal exactly when one of the colors occupies no square
    of the board. *)
Theorem cIsTerminal_iff_a_color_is_gone (node : cNode) :
  cNodeInRange node ->
  (cIsTerminal node = true <->
   exists c, forall j, 0 <= j -> placeOccupiedColor node c j = false).
Proof.
  intros Hr.
  assert (Hz : forall c, Z.lor (board node pawns c) (board node kings c) = 0 <->
                 forall j, 0 <= j -> placeOccupiedColor node c j = false).
  { intros c. apply uint64_zero_bits. apply lor_uint64; apply Hr. }
  unfold cIsTerminal. split.
  - destruct (Z.eqb_spec (Z.lor (board node pawns white) (board node kings white)) 0) as [H|H].
    + intros _. exists white. now apply Hz.
    + destruct (Z.eqb_spec (Z.lor (board node pawns black) (board node kings black)) 0) as [H'|H'].
      * intros _. exists black. now apply Hz.
      * discriminate.
  - intros [c Hc]. apply Hz in Hc.
    destruct c; rewrite Hc; simpl; [reflexivity|].
    destruct (_ =? 0); reflexivity.
Qed.

End Terminal.

Lemma cIsTerminal_iff_a_color_is_gone_witness :
  cNodeInRange (mkCNode 512 0 0 0) /\
  (cIsTerminal (mkCNode 512 0 0 0) = true <->
   exists c, forall j, 0 <= j -> placeOccupiedColor (mkCNode 512 0 0 0) c j = false).
Proof.
  assert (H : cNodeInRange (mkCNode 512 0 0 0))
    by (intros units c; unfold isUint64; destruct units, c; simpl; lia).
  split; [exact H|]. exact (cIsTerminal_iff_a_color_is_gone _ H).
Defined.

Section ScoreBound.

Lemma scoreFrom_bound (node : cNode) (k : nat) : forall i s,
  - 1000 <= s - 3 * Z.of_nat k -> s + 3 * Z.of_nat k <= 1000 ->
  s - 3 * Z.of_nat k <= scoreFrom node k i s <= s + 3 * Z.of_nat k.
Proof.
  induction k as [|k IH]; intros i s Hlo Hhi; cbn [scoreFrom]; [lia|].
  unfold pawnScore, kingScore, whiteCoef, blackCoef.
  repeat match goal with |- context [if isBit ?a ?b then _ else _] => destruct (isBit a b) end;
    rewrite ?wrap_small by (unfold MinInt, MaxInt; lia);
    match goal with |- _ <= scoreFrom _ _ _ ?s' <= _ =>
      pose proof (IH (i + 1) s' ltac:(lia) ltac:(lia)) end; lia.
Qed.

(** The score of a node lies between -192 and 192, three points for each
    of the 64 squares: the additions of [Score] never overflow, and the
    score is never one of the sentinels of the engine. *)
Theorem cScore_is_bounded (node : cNode) :
  -192 <= cScore node <= 192 /\
  cScore node <> MinimaxInitScore true /\ cScore node <> MinimaxInitScore false.
Proof.
  pose proof (scoreFrom_bound node 64 0 0 ltac:(lia) ltac:(lia)) as H.
  unfold cScore. unfold MinimaxInitScore, MinInt, MaxInt. lia.
Qed.

End ScoreBound.

Section CheckersGenerator.

Variable h : cNodeHistory.

(** The offsets tried for a figure: a pawn steps in its direction only, a
    king in both. *)
Definition stepOffsets (units : figure) (dir : Z) : list Z :=
  match units with
  | pawns => [wrap (7 * dir); wrap (9 * dir)]
  | kings => [wrap (7 * -1); wrap (9 * -1); wrap (7 * 1); wrap (9 * 1)]
  end.

Definition sideColor (maximizing : bool) : color := if maximizing then black else white.
Definition sideDir (maximizing : bool) : Z := if maximizing then blackPawnDir else whitePawnDir.

(** [c] is reached from [node] by one successful [figureMove] or
    [figureJump] of a figure of the side to move. *)
Definition isStep (node : cNode) (maximizing : bool) (c : cNode) : Prop :=
  exists units index offset,
    0 <= index < 64 /\
    placeOccupiedFigureColor node units (sideColor maximizing) index = true /\
    In offset (stepOffsets units (sideDir maximizing)) /\
    (figureMove node units (sideColor maximizing) index offset = (true, c) \/
     figureJump node units (sideColor maximizing) index offset = (true, c)).

(** The queue built at square [index]. *)
Definition queueAt (node : cNode) (c : color) (pawnDir index : Z) : list cNode :=
  if placeOccupiedFigureColor node pawns c index then generatePawnMoves node c index pawnDir
  else if placeOccupiedFigureColor node kings c index then generateKingMoves node c index
  else [].

Lemma movesAt_length node units c index dir offset :
  (length (movesAt node units c index dir offset) <= 2)%nat.
Proof.
  unfold movesAt. destruct (figureMove _ _ _ _ _) as [[|] m1];
    destruct (figureJump _ _ _ _ _) as [[|] m2]; simpl; lia.
Qed.

Lemma movesAt_In node units c index dir offset x :
  In x (movesAt node units c index dir offset) ->
  figureMove node units c index (wrap (offset * dir)) = (true, x) \/
  figureJump node units c index (wrap (offset * dir)) = (true, x).
Proof.
  unfold movesAt. destruct (figureMove _ _ _ _ _) as [[|] m1];
    destruct (figureJump _ _ _ _ _) as [[|] m2]; simpl; intros H;
    repeat (destruct H as [H|H]; [subst; auto|]); destruct H.
Qed.

Lemma generateFigureMoves_length node units c index dir :
  (length (generateFigureMoves node units c index dir) <= 4)%nat.
Proof.
  unfold generateFigureMoves. rewrite length_app.
  pose proof (movesAt_length node units c index dir 7).
  pose proof (movesAt_length node units c index dir 9). lia.
Qed.

Lemma queueAt_length node c dir index : (length (queueAt node c dir index) <= 8)%nat.
Proof.
  unfold queueAt, generatePawnMoves, generateKingMoves.
  pose proof (generateFigureMoves_length node pawns c index dir).
  pose proof (generateFigureMoves_length node kings c index (-1)).
  pose proof (generateFigureMoves_length node kings c index 1).
  destruct (placeOccupiedFigureColor node pawns c index); [lia|].
  destruct (placeOccupiedFigureColor node kings c index); [rewrite length_app; lia|simpl; lia].
Qed.

Ltac step_found :=
  split; [assumption|split; [assumption|split;
    [unfold stepOffsets; cbn [In]; auto 7|assumption]]].

Lemma queueAt_isStep node maximizing index x :
  0 <= index < 64 ->
  In x (queueAt node (sideColor maximizing) (sideDir maximizing) index) ->
  isStep node maximizing x.
Proof.
  intros Hi. unfold queueAt, generatePawnMoves, generateKingMoves, generateFigureMoves.
  destruct (placeOccupiedFigureColor node pawns (sideColor maximizing) index) eqn:Hp.
  - intros H. exists pawns, index. apply in_app_or in H.
    destruct H as [H|H]; apply movesAt_In in H.
    + exists (wrap (7 * sideDir maximizing)); step_found.
    + exists (wrap (9 * sideDir maximizing)); step_found.
  - destruct (placeOccupiedFigureColor node kings (sideColor maximizing) index) eqn:Hk;
      [|intros []].
    intros H. exists kings, index.
    apply in_app_or in H. destruct H as [H|H]; apply in_app_or in H;
      destruct H as [H|H]; apply movesAt_In in H.
    + exists (wrap (7 * -1)); step_found.
    + exists (wrap (9 * -1)); step_found.
    + exists (wrap (7 * 1)); step_found.
    + exists (wrap (9 * 1)); step_found.
Qed.

Lemma refill_spec (node : cNode) (c : color) (pawnDir : Z) : forall steps index queue index',
  refill steps node c pawnDir index = (queue, index') ->
  (queue = [] /\ index <= index') \/
  (exists i, index <= i < 64 /\ index' = i + 1 /\ queue = queueAt node c pawnDir i /\ queue <> []).
Proof.
  induction steps as [|steps IH]; intros index queue index' H; simpl in H.
  - inversion H. left. split; [reflexivity|lia].
  - destruct (Z.ltb_spec index 64) as [Hlt|Hge].
    + fold (queueAt node c pawnDir index) in H.
      destruct (queueAt node c pawnDir index) as [|x q] eqn:Hq.
      * simpl in H. destruct (IH _ _ _ H) as [[-> Hle]|(i & Hi & -> & -> & Hne)].
        -- left. split; [reflexivity|lia].
        -- right. exists i. repeat split; try lia. exact Hne.
      * simpl in H. inversion H; subst. right. exists index.
        repeat split; try lia; [symmetry; exact Hq|discriminate].
    + inversion H. left. split; [reflexivity|lia].
Qed.

Lemma popQueue_spec : forall queue r queue',
  popQueue h queue = (r, queue') ->
  (length queue' <= length queue)%nat /\ (forall x, In x queue' -> In x queue) /\
  match r with
  | Some y => In y queue /\ inNodeHistory h y = false /\ (length queue' < length queue)%nat
  | None => queue' = [] /\ forall x, In x queue -> inNodeHistory h x = true
  end.
Proof.
  induction queue as [|x q IH]; intros r queue' H; simpl in H.
  - inversion H; subst. simpl. split; [lia|]. split; [intros x []|].
    split; [reflexivity|intros x []].
  - destruct (inNodeHistory h x) eqn:Hx; simpl in H.
    + destruct (IH _ _ H) as (Hlen & Hsub & Hr). split; [simpl; lia|]. split; [intros z Hz; right; auto|].
      destruct r as [y|].
      * destruct Hr as (Hin & Hn & Hlt).
        split; [now right|]. split; [exact Hn|simpl; lia].
      * destruct Hr as [-> Hall]. split; [reflexivity|]. intros z [<-|Hz]; auto.
    + inversion H; subst. split; [simpl; lia|]. split; [intros z Hz; right; auto|].
      split; [now left|]. split; [exact Hx|simpl; lia].
Qed.

(** What one invocation does, in terms of the queue it works on. *)
Lemma cInvoke_spec (node : cNode) queue index maximizing r g' :
  cInvoke h (mkCGen node queue index) maximizing = (r, g') ->
  exists queue1 index1,
    cgen_node g' = node /\ cgen_index g' = index1 /\
    popQueue h queue1 = (r, nodeQueue g') /\
    ((queue <> [] /\ queue1 = queue /\ index1 = index) \/
     (queue = [] /\
      refill 65 node (sideColor maximizing) (sideDir maximizing) index = (queue1, index1))).
Proof.
  unfold cInvoke. cbn [cgen_node nodeQueue cgen_index]. intros H.
  destruct queue as [|x q].
  - assert (Hside : (let '(c, pawnDir) :=
                       if maximizing then (black, blackPawnDir) else (white, whitePawnDir) in
                     refill 65 node c pawnDir index)
                    = refill 65 node (sideColor maximizing) (sideDir maximizing) index)
      by (destruct maximizing; reflexivity).
    rewrite Hside in H.
    destruct (refill 65 node (sideColor maximizing) (sideDir maximizing) index)
      as [queue1 index1] eqn:Hre.
    destruct (popQueue h queue1) as [r1 q1] eqn:Hpop. inversion H; subst.
    exists queue1, index1. cbn [cgen_node cgen_index nodeQueue].
    split; [reflexivity|split; [reflexivity|split; [exact Hpop|right; split; reflexivity]]].
  - destruct (popQueue h (x :: q)) as [r1 q1] eqn:Hpop. inversion H; subst.
    exists (x :: q), index. cbn [cgen_node cgen_index nodeQueue].
    split; [reflexivity|split; [reflexivity|split; [exact Hpop|left]]].
    split; [discriminate|split; reflexivity].
Qed.

Lemma cgen_yields (node : cNode) (maximizing : bool) : forall (n len : nat) queue index,
  (length queue <= len)%nat -> 64 - index <= Z.of_nat n ->
  exists cs, yields (SN := cSearchNode h) (mkCGen node queue index) maximizing cs /\
    (length cs <= length queue + 8 * n)%nat.
Proof.
  induction n as [|n IHn].
  - induction len as [|len IHlen]; intros queue index Hlen Hidx.
    + destruct (cInvoke h (mkCGen node queue index) maximizing) as [r g'] eqn:Hinv.
      destruct (cInvoke_spec _ _ _ _ _ _ Hinv) as (q1 & i1 & Hn & Hi & Hpop & Hcase).
      destruct queue; [|simpl in Hlen; lia].
      destruct Hcase as [[Hne _]|[_ Hre]]; [congruence|].
      destruct (refill_spec _ _ _ _ _ _ _ Hre) as [[-> _]|(i & Hir & _)]; [|lia].
      simpl in Hpop. inversion Hpop; subst.
      exists []. split; [eapply yields_nil; exact Hinv|simpl; lia].
    + destruct (cInvoke h (mkCGen node queue index) maximizing) as [r g'] eqn:Hinv.
      destruct (cInvoke_spec _ _ _ _ _ _ Hinv) as (q1 & i1 & Hn & Hi & Hpop & Hcase).
      destruct (popQueue_spec _ _ _ Hpop) as (Hl & _ & Hr).
      destruct r as [y|]; [|exists []; split; [eapply yields_nil; exact Hinv|simpl; lia]].
      destruct Hr as (_ & _ & Hlt).
      destruct Hcase as [(Hne & -> & ->)|[-> Hre]].
      * destruct g' as [node' q' i']. cbn [cgen_node cgen_index nodeQueue length] in *. subst.
        destruct (IHlen q' index ltac:(lia) Hidx) as (cs & Hcs & Hcl).
        exists (y :: cs). split; [eapply yields_cons; [exact Hinv|exact Hcs]|cbn [length]; lia].
      * destruct (refill_spec _ _ _ _ _ _ _ Hre) as [[-> _]|(i & Hir & _)]; [simpl in Hlt; lia|lia].
  - induction len as [|len IHlen]; intros queue index Hlen Hidx.
    + destruct (cInvoke h (mkCGen node queue index) maximizing) as [r g'] eqn:Hinv.
      destruct (cInvoke_spec _ _ _ _ _ _ Hinv) as (q1 & i1 & Hn & Hi & Hpop & Hcase).
      destruct (popQueue_spec _ _ _ Hpop) as (Hl & _ & Hr).
      destruct r as [y|]; [|exists []; split; [eapply yields_nil; exact Hinv|simpl; lia]].
      destruct Hr as (_ & _ & Hlt).
      destruct queue; [|simpl in Hlen; lia].
      destruct Hcase as [[Hne _]|[_ Hre]]; [congruence|].
      destruct (refill_spec _ _ _ _ _ _ _ Hre) as [[-> _]|(i & Hir & -> & -> & _)];
        [simpl in Hlt; lia|].
      pose proof (queueAt_length node (sideColor maximizing) (sideDir maximizing) i) as H8.
      destruct g' as [node' q' i']. cbn [cgen_node cgen_index nodeQueue length] in *. subst.
      destruct (IHn (length q') q' (i + 1) (Nat.le_refl _) ltac:(lia)) as (cs & Hcs & Hcl).
      exists (y :: cs). split; [eapply yields_cons; [exact Hinv|exact Hcs]|cbn [length]; lia].
    + destruct (cInvoke h (mkCGen node queue index) maximizing) as [r g'] eqn:Hinv.
      destruct (cInvoke_spec _ _ _ _ _ _ Hinv) as (q1 & i1 & Hn & Hi & Hpop & Hcase).
      destruct (popQueue_spec _ _ _ Hpop) as (Hl & _ & Hr).
      destruct r as [y|]; [|exists []; split; [eapply yields_nil; exact Hinv|simpl; lia]].
      destruct Hr as (_ & _ & Hlt).
      destruct Hcase as [(Hne & -> & ->)|[-> Hre]].
      * destruct g' as [node' q' i']. cbn [cgen_node cgen_index nodeQueue length] in *. subst.
        destruct (IHlen q' index ltac:(lia) Hidx) as (cs & Hcs & Hcl).
        exists (y :: cs). split; [eapply yields_cons; [exact Hinv|exact Hcs]|cbn [length]; lia].
      * destruct (refill_spec _ _ _ _ _ _ _ Hre) as [[-> _]|(i & Hir & -> & -> & _)];
          [simpl in Hlt; lia|].
        pose proof (queueAt_length node (sideColor maximizing) (sideDir maximizing) i) as H8.
        destruct g' as [node' q' i']. cbn [cgen_node cgen_index nodeQueue length] in *. subst.
        destruct (IHn (length q') q' (i + 1) (Nat.le_refl _) ltac:(lia)) as (cs & Hcs & Hcl).
        exists (y :: cs). split; [eapply yields_cons; [exact Hinv|exact Hcs]|cbn [length]; lia].
Qed.

Lemma checkers_yields (node : cNode) (maximizing : bool) :
  exists cs, yields (SN := cSearchNode h) (SearchNodeGenerator (SearchNode := cSearchNode h) node)
               maximizing cs /\ (length cs <= 512)%nat.
Proof.
  destruct (cgen_yields node maximizing 64 0 [] 0 (Nat.le_refl _) ltac:(lia)) as (cs & Hcs & Hl).
  exists cs. split; [exact Hcs|simpl in Hl; lia].
Qed.

Lemma checkers_finitelyBranching (node : cNode) (maximizing : bool) :
  finitelyBranching (SN := cSearchNode h) node maximizing.
Proof.
  intros n m _. destruct (checkers_yields n m) as (cs & Hcs & _). exists cs. exact Hcs.
Qed.

Lemma checkers_children_fit (node : cNode) (maximizing : bool) cs :
  yields (SN := cSearchNode h) (SearchNodeGenerator (SearchNode := cSearchNode h) node)
    maximizing cs ->
  Z.of_nat (length cs) <= MaxInt.
Proof.
  intros Hy. destruct (checkers_yields node maximizing) as (cs' & Hcs & Hl).
  rewrite (yields_fun (SN := cSearchNode h) _ _ _ Hcs _ Hy). unfold MaxInt. lia.
Qed.

(** The nodes a generator returns until its first nil, from a state whose
    queue holds only steps of the side to move. *)
Lemma cgen_sound (node : cNode) (maximizing : bool) : forall g cs,
  yields (SN := cSearchNode h) g maximizing cs ->
  cgen_node g = node -> 0 <= cgen_index g ->
  (forall x, In x (nodeQueue g) -> isStep node maximizing x) ->
  forall c, In c cs -> isStep node maximizing c /\ inNodeHistory h c = false.
Proof.
  intros g cs Hy.
  induction Hy as [|g m c0 g' cs Hinv Hy IH]; intros Hn Hidx Hq c Hc; [destruct Hc|].
  destruct g as [node0 queue index]. simpl in Hn, Hidx, Hq. subst node0.
  change (cInvoke h (mkCGen node queue index) m = (Some c0, g')) in Hinv.
  destruct (cInvoke_spec _ _ _ _ _ _ Hinv) as (q1 & i1 & Hn' & Hi' & Hpop & Hcase).
  destruct (popQueue_spec _ _ _ Hpop) as (_ & Hsub & Hin & Hnew & _).
  assert (Hq1 : (forall x, In x q1 -> isStep node m x) /\ 0 <= i1).
  { destruct Hcase as [(_ & -> & ->)|[-> Hre]]; [split; assumption|].
    destruct (refill_spec _ _ _ _ _ _ _ Hre) as [[-> Hle]|(i & Hir & -> & -> & _)].
    - split; [intros x []|lia].
    - split; [|lia]. intros x Hx. eapply queueAt_isStep; [|exact Hx]. lia. }
  destruct Hq1 as [Hq1 Hi1].
  destruct Hc as [<-|Hc].
  - split; [apply Hq1, Hin|exact Hnew].
  - apply IH; [exact Hn'|rewrite Hi'; exact Hi1| |exact Hc].
    intros x Hx. apply Hq1, Hsub, Hx.
Qed.

Lemma checkers_generator_steps (node : cNode) (maximizing : bool) :
  exists cs,
    yields (SN := cSearchNode h) (SearchNodeGenerator (SearchNode := cSearchNode h) node)
      maximizing cs /\
    (length cs <= 512)%nat /\
    forall c, In c cs -> isStep node maximizing c /\ inNodeHistory h c = false.
Proof.
  destruct (checkers_yields node maximizing) as (cs & Hcs & Hl).
  exists cs. split; [exact Hcs|]. split; [exact Hl|].
  apply (cgen_sound node maximizing _ cs Hcs); simpl; [reflexivity|lia|intros x []].
Qed.

(** Invoked for one side until it returns nil, the generator returns at
    most 512 nodes.  Each of them is the result of one successful
    [figureMove] or [figureJump] of a figure of the side to move (black
    when maximizing) that stands on the board, a pawn only in the
    direction of its color, and none of them is in the node history. *)
Theorem checkers_generator_returns_new_steps (node : cNode) (maximizing : bool) :
  exists cs,
    yields (SN := cSearchNode h) (SearchNodeGenerator (SearchNode := cSearchNode h) node)
      maximizing cs /\
    (length cs <= 512)%nat /\
    forall c, In c cs -> isStep node maximizing c /\ inNodeHistory h c = false.
Proof. apply checkers_generator_steps. Qed.

End CheckersGenerator.

Section CheckersNilIsNotFinal.

Variable h : cNodeHistory.

Lemma refill_finds (node : cNode) (c : color) (pawnDir : Z) : forall steps index i,
  0 <= index <= i -> i < 64 -> (Z.to_nat (i - index) < steps)%nat ->
  (forall j, index <= j < i -> queueAt node c pawnDir j = []) ->
  queueAt node c pawnDir i <> [] ->
  refill steps node c pawnDir index = (queueAt node c pawnDir i, i + 1).
Proof.
  induction steps as [|steps IH]; intros index i Hi H64 Hsteps Hempty Hne; [lia|].
  cbn [refill]. destruct (Z.ltb_spec index 64); [|lia].
  fold (queueAt node c pawnDir index).
  destruct (Z.eq_dec index i) as [->|Hneq].
  - destruct (queueAt node c pawnDir i); [congruence|reflexivity].
  - rewrite (Hempty index) by lia. cbn [length Nat.ltb Nat.leb].
    apply IH; [lia|lia|lia| |exact Hne]. intros j Hj. apply Hempty. lia.
Qed.

Lemma popQueue_all_known : forall queue,
  (forall y, In y queue -> inNodeHistory h y = true) -> popQueue h queue = (None, []).
Proof.
  induction queue as [|x q IH]; intros Hall; [reflexivity|].
  cbn [popQueue]. rewrite (Hall x (or_introl eq_refl)). cbn [negb].
  apply IH. intros y Hy. apply Hall. now right.
Qed.

(** A nil from the generator does not mean that the side has no step
    left.  If every step of the first figure that can step at all (on
    square [i1]) leads to a node of the history, the first invocation
    returns nil, so that the generator yields no child at all; yet the
    next invocation goes on with the figures on the later squares and
    returns a step of the next figure that has one (on square [i2]). *)
Theorem checkers_generator_nil_is_not_final (node : cNode) (maximizing : bool)
    (i1 i2 : Z) (x : cNode) (rest : list cNode) :
  let c := sideColor maximizing in
  let dir := sideDir maximizing in
  0 <= i1 < i2 -> i2 < 64 ->
  (forall j, 0 <= j < i1 -> queueAt node c dir j = []) ->
  queueAt node c dir i1 <> [] ->
  (forall y, In y (queueAt node c dir i1) -> inNodeHistory h y = true) ->
  (forall j, i1 < j < i2 -> queueAt node c dir j = []) ->
  popQueue h (queueAt node c dir i2) = (Some x, rest) ->
  cInvoke h (cSearchNodeGenerator node) maximizing = (None, mkCGen node [] (i1 + 1)) /\
  yields (SN := cSearchNode h) (cSearchNodeGenerator node) maximizing [] /\
  cInvoke h (mkCGen node [] (i1 + 1)) maximizing = (Some x, mkCGen node rest (i2 + 1)).
Proof.
  intros c dir Hi1 Hi2 Hbefore Hne1 Hknown Hbetween Hpop.
  assert (Hside : forall index,
            (let '(c0, pawnDir) :=
               if maximizing then (black, blackPawnDir) else (white, whitePawnDir) in
             refill 65 node c0 pawnDir index) = refill 65 node c dir index)
    by (intros index; unfold c, dir; destruct maximizing; reflexivity).
  assert (Hfirst : cInvoke h (cSearchNodeGenerator node) maximizing
                   = (None, mkCGen node [] (i1 + 1))).
  { unfold cInvoke, cSearchNodeGenerator. cbn [cgen_node nodeQueue cgen_index].
    rewrite Hside, (refill_finds node c dir 65 0 i1) by (auto; lia).
    rewrite (popQueue_all_known _ Hknown). reflexivity. }
  split; [exact Hfirst|]. split; [eapply yields_nil; exact Hfirst|].
  unfold cInvoke. cbn [cgen_node nodeQueue cgen_index].
  assert (Hne2 : queueAt node c dir i2 <> []).
  { intros Hnil. rewrite Hnil in Hpop. discriminate. }
  rewrite Hside, (refill_finds node c dir 65 (i1 + 1) i2) by (auto; try lia; intros j Hj; apply Hbetween; lia).
  rewrite Hpop. reflexivity.
Qed.

End CheckersNilIsNotFinal.

(** An empty queue at every square from [lo] up to [hi]. *)
Definition noStepsBetween (node : cNode) (c : color) (dir lo hi : Z) : bool :=
  forallb (fun j => negb ((lo <=? j) && (j <? hi)) ||
                    match queueAt node c dir j with [] => true | _ => false end) boardIndices.

Lemma noStepsBetween_spec (node : cNode) c dir lo hi :
  noStepsBetween node c dir lo hi = true -> 0 <= lo -> hi <= 64 ->
  forall j, lo <= j < hi -> queueAt node c dir j = [].
Proof.
  intros H Hlo Hhi j Hj. unfold noStepsBetween in H.
  pose proof (proj1 (forallb_forall _ _) H j (boardIndices_In j ltac:(lia))) as Hc.
  cbv beta in Hc.
  destruct (Z.leb_spec lo j); [|lia]. destruct (Z.ltb_spec j hi); [|lia]. simpl in Hc.
  destruct (queueAt node c dir j); [reflexivity|discriminate].
Qed.

(** White pawns on squares 17 and 42 and a black pawn on square 0; both
    steps of the pawn on 17 are in the history. *)
Definition twoPawns : cNode := mkCNode (Z.lor (setBit 0 17) (setBit 0 42)) (setBit 0 0) 0 0.

Definition twoPawnsHistory : cNodeHistory :=
  fold_left addNodeHistory (queueAt twoPawns white whitePawnDir 17) emptyHistory.

Lemma checkers_generator_nil_is_not_final_witness :
  let x := mkCNode (Z.lor (setBit 0 17) (setBit 0 35)) (setBit 0 0) 0 0 in
  let rest := [mkCNode (Z.lor (setBit 0 17) (setBit 0 33)) (setBit 0 0) 0 0] in
  cInvoke twoPawnsHistory (cSearchNodeGenerator twoPawns) false = (None, mkCGen twoPawns [] (17 + 1)) /\
  yields (SN := cSearchNode twoPawnsHistory) (cSearchNodeGenerator twoPawns) false [] /\
  cInvoke twoPawnsHistory (mkCGen twoPawns [] (17 + 1)) false = (Some x, mkCGen twoPawns rest (42 + 1)).
Proof.
  apply (checkers_generator_nil_is_not_final twoPawnsHistory twoPawns false 17 42).
  - lia.
  - lia.
  - intros j Hj. apply (noStepsBetween_spec twoPawns white whitePawnDir 0 17); [reflexivity|lia|lia|lia].
  - discriminate.
  - intros y Hy. vm_compute in Hy.
    repeat (destruct Hy as [Hy|Hy]; [subst y; reflexivity|]). destruct Hy.
  - intros j Hj. apply (noStepsBetween_spec twoPawns white whitePawnDir 18 42); [reflexivity|lia|lia|lia].
  - reflexivity.
Defined.





Section WellFormed.

(** At most one of the four bitboards holds the square [j]. *)
Definition figuresAt (node : cNode) (j : Z) : Z :=
  Z.b2z (isBit (pawnsWhite node) j) + Z.b2z (isBit (pawnsBlack node) j)
  + Z.b2z (isBit (kingsWhite node) j) + Z.b2z (isBit (kingsBlack node) j).

Definition wellFormed (node : cNode) : Prop :=
  cNodeInRange node /\ forall j, 0 <= j -> figuresAt node j <= 1.

Lemma placeOccupied_false (node : cNode) (t : Z) : 0 <= t ->
  placeOccupied node t = false -> figuresAt node t = 0.
Proof.
  intros Ht. unfold placeOccupied, placeOccupiedColor, figuresAt. simpl.
  rewrite !isBit_lor by lia.
  destruct (isBit (pawnsWhite node) t), (isBit (pawnsBlack node) t),
    (isBit (kingsWhite node) t), (isBit (kingsBlack node) t); simpl; congruence || lia.
Qed.

Lemma setBoard_inRange (node : cNode) units c v :
  cNodeInRange node -> isUint64 v -> cNodeInRange (setBoard node units c v).
Proof.
  intros Hr Hv u' c'. pose proof (Hr pawns white). pose proof (Hr pawns black).
  pose proof (Hr kings white). pose proof (Hr kings black).
  destruct units, c, u', c'; simpl in *; assumption.
Qed.

Lemma upgrade_inRange (node : cNode) c index :
  0 <= index -> cNodeInRange node -> cNodeInRange (upgradeToKing node c index).
Proof.
  intros Hi Hr. unfold upgradeToKing, cloneNode.
  destruct (isBit (board node pawns c) index); [|exact Hr].
  match goal with |- context [if ?b then _ else _] => destruct b end; [|exact Hr].
  apply setBoard_inRange.
  - apply setBoard_inRange; [exact Hr|]. apply clearBit_uint64, Hr.
  - apply setBit_uint64; [lia|].
    apply (setBoard_inRange node pawns c _ Hr (clearBit_uint64 _ index (Hr pawns c))).
Qed.

Lemma moved_inRange (node : cNode) units c index t :
  0 <= t -> cNodeInRange node -> cNodeInRange (moved node units c index t).
Proof.
  intros Ht Hr. unfold moved.
  assert (H1 : cNodeInRange (setBoard node units c (clearBit (board node units c) index)))
    by (apply setBoard_inRange; [exact Hr|apply clearBit_uint64, Hr]).
  apply setBoard_inRange; [exact H1|]. apply setBit_uint64; [lia|apply H1].
Qed.

Lemma jumped_inRange (node : cNode) units c index mid t :
  0 <= t -> cNodeInRange node -> cNodeInRange (jumped node units c index mid t).
Proof.
  intros Ht Hr. unfold jumped.
  assert (H1 : cNodeInRange (setBoard node units c (clearBit (board node units c) index)))
    by (apply setBoard_inRange; [exact Hr|apply clearBit_uint64, Hr]).
  set (n1 := setBoard node units c (clearBit (board node units c) index)) in *.
  assert (H2 : cNodeInRange (setBoard n1 pawns (enemyColor c)
                  (clearBit (board n1 pawns (enemyColor c)) mid)))
    by (apply setBoard_inRange; [exact H1|apply clearBit_uint64, H1]).
  set (n2 := setBoard n1 pawns (enemyColor c) _) in *.
  assert (H3 : cNodeInRange (setBoard n2 kings (enemyColor c)
                  (clearBit (board n2 kings (enemyColor c)) mid)))
    by (apply setBoard_inRange; [exact H2|apply clearBit_uint64, H2]).
  set (n3 := setBoard n2 kings (enemyColor c) _) in *.
  apply setBoard_inRange; [exact H3|]. apply setBit_uint64; [lia|apply H3].
Qed.

Lemma upgrade_figuresAt (node : cNode) c index j :
  0 <= index -> 0 <= j ->
  figuresAt (upgradeToKing node c index) j = figuresAt node j
  \/ (j = index /\ figuresAt (upgradeToKing node c index) j <= figuresAt node j).
Proof.
  intros Hi Hj. unfold upgradeToKing, cloneNode.
  destruct (isBit (board node pawns c) index) eqn:Hp; [|now left].
  pose proof (isBit_true_lt _ _ Hi Hp) as Hlt.
  match goal with |- context [if ?b then _ else _] => destruct b end; [|now left].
  unfold figuresAt. destruct c; simpl in *;
    rewrite isBit_setBit, isBit_clearBit by lia;
    (destruct (Z.eqb_spec j index) as [->|Hne];
     [right; split; [reflexivity|]; rewrite Hp; destruct (Z.ltb_spec index 64); [|lia]; simpl;
      repeat match goal with |- context [isBit ?a ?b] => destruct (isBit a b) end; simpl; lia
     |left; simpl; rewrite andb_true_r, andb_false_r, orb_false_r; reflexivity]).
Qed.

Lemma moved_figuresAt (node : cNode) units c index t j :
  0 <= index -> 0 <= t < 64 -> 0 <= j -> figuresAt node t = 0 ->
  figuresAt (moved node units c index t) j <= Z.max 1 (figuresAt node j).
Proof.
  intros Hi Ht Hj Hfree. unfold moved, figuresAt in *.
  destruct units, c; simpl in *; rewrite isBit_setBit, isBit_clearBit by lia;
    (destruct (Z.eqb_spec j t) as [->|Hne];
     [destruct (Z.ltb_spec t 64); [|lia];
      repeat match goal with
             | H : context [isBit ?a ?b] |- _ => destruct (isBit a b)
             | |- context [isBit ?a ?b] => destruct (isBit a b)
             end; simpl in *; try lia; destruct (t =? index); simpl; lia
     |rewrite andb_false_r, orb_false_r;
      repeat match goal with |- context [isBit ?a ?b] => destruct (isBit a b) end;
      destruct (j =? index); simpl; lia]).
Qed.

Lemma jumped_figuresAt (node : cNode) units c index mid t j :
  0 <= index -> 0 <= mid -> 0 <= t < 64 -> 0 <= j -> figuresAt node t = 0 ->
  figuresAt (jumped node units c index mid t) j <= Z.max 1 (figuresAt node j).
Proof.
  intros Hi Hm Ht Hj Hfree. unfold jumped, figuresAt in *.
  destruct units, c; simpl in *; rewrite isBit_setBit, !isBit_clearBit by lia;
    (destruct (Z.eqb_spec j t) as [->|Hne];
     [destruct (Z.ltb_spec t 64); [|lia];
      repeat match goal with
             | H : context [isBit ?a ?b] |- _ => destruct (isBit a b)
             | |- context [isBit ?a ?b] => destruct (isBit a b)
             end; simpl in *; try lia; destruct (t =? index), (t =? mid); simpl; lia
     |rewrite andb_false_r, orb_false_r;
      repeat match goal with |- context [isBit ?a ?b] => destruct (isBit a b) end;
      destruct (j =? index), (j =? mid); simpl; lia]).
Qed.

Lemma figureMove_wellFormed (node clone : cNode) units c index offset :
  wellFormed node -> figureMove node units c index offset = (true, clone) ->
  wellFormed clone.
Proof.
  intros [Hr Hone] H. destruct (figureMove_ok _ _ _ _ _ _ H) as (Hi & Ht & _ & Hfree & ->).
  set (t := wrap (index + offset)) in *.
  split; [apply upgrade_inRange; [lia|]; apply moved_inRange; [lia|exact Hr]|].
  intros j Hj.
  pose proof (moved_figuresAt node units c index t j ltac:(lia) ltac:(lia) Hj
                (placeOccupied_false node t ltac:(lia) Hfree)) as Hm.
  specialize (Hone j Hj).
  destruct (upgrade_figuresAt (moved node units c index t) c t j ltac:(lia) Hj) as [->|[_ Hle]]; lia.
Qed.

Lemma figureJump_wellFormed (node clone : cNode) units c index offset :
  wellFormed node -> figureJump node units c index offset = (true, clone) ->
  wellFormed clone.
Proof.
  intros [Hr Hone] H.
  destruct (figureJump_ok _ _ _ _ _ _ H) as (Hi & Ht & _ & _ & He & Hfree & ->).
  set (t := wrap (index + wrap (2 * offset))) in *. set (mid := wrap (index + offset)) in *.
  assert (Hmid : 0 <= mid < 64) by (apply (isBit_true_range _ _ He)).
  split; [apply upgrade_inRange; [lia|]; apply jumped_inRange; [lia|exact Hr]|].
  intros j Hj.
  pose proof (jumped_figuresAt node units c index mid t j ltac:(lia) ltac:(lia) ltac:(lia) Hj
                (placeOccupied_false node t ltac:(lia) Hfree)) as Hm.
  specialize (Hone j Hj).
  destruct (upgrade_figuresAt (jumped node units c index mid t) c t j ltac:(lia) Hj)
    as [->|[_ Hle]]; lia.
Qed.

(** Bitboards that are [uint64] values and hold at most one figure on
    each square stay so under every step: every node the generator returns
    for a well-formed node is well formed. *)
Theorem steps_keep_nodes_well_formed (h : cNodeHistory) (node c : cNode) (maximizing : bool) :
  wellFormed node ->
  produces (SN := cSearchNode h) (cSearchNodeGenerator node) maximizing c ->
  wellFormed c.
Proof.
  intros Hwf Hp.
  destruct (checkers_generator_steps h node maximizing) as (cs & Hcs & _ & Hsound).
  pose proof (produces_yields (SN := cSearchNode h) _ _ _ Hp _ Hcs) as Hin.
  destruct (Hsound c Hin) as [(units & index & offset & _ & _ & _ & [Hm|Hj]) _].
  - eapply figureMove_wellFormed; eauto.
  - eapply figureJump_wellFormed; eauto.
Qed.

End WellFormed.

(** [wellFormed], decided square by square. *)
Definition wellFormedb (node : cNode) : bool :=
  forallb (fun v => (0 <=? v) && (v <? 2 ^ 64))
    [pawnsWhite node; pawnsBlack node; kingsWhite node; kingsBlack node] &&
  forallb (fun j => figuresAt node j <=? 1) boardIndices.

Lemma wellFormedb_spec (node : cNode) : wellFormedb node = true -> wellFormed node.
Proof.
  unfold wellFormedb. intros H. apply andb_true_iff in H. destruct H as [Hr Hf].
  split.
  - cbn [forallb] in Hr.
    repeat (apply andb_true_iff in Hr; destruct Hr as [? Hr]).
    intros units c. unfold isUint64.
    destruct units, c; cbn [board];
      repeat match goal with
             | H : (_ && _) = true |- _ => apply andb_true_iff in H; destruct H
             | H : (_ <=? _) = true |- _ => apply Z.leb_le in H
             | H : (_ <? _) = true |- _ => apply Z.ltb_lt in H
             end; lia.
  - intros j Hj. destruct (Z.ltb_spec j 64) as [Hlt|Hge].
    + apply Z.leb_le.
      exact (proj1 (forallb_forall _ _) Hf j (boardIndices_In j ltac:(lia))).
    + unfold figuresAt. rewrite !isBit_testbit by lia.
      destruct (Z.ltb_spec j 64); [lia|]. simpl. lia.
Qed.

(** The first step of black from the full board. *)
Definition firstBlackStep : cNode := mkCNode 12273903276444876800 39103061 0 0.

Lemma steps_keep_nodes_well_formed_witness :
  wellFormed (fst cNodeFullBoard) /\
  produces (SN := cSearchNode (snd cNodeFullBoard)) (cSearchNodeGenerator (fst cNodeFullBoard))
    true firstBlackStep /\
  wellFormed firstBlackStep.
Proof.
  assert (Hwf : wellFormed (fst cNodeFullBoard)) by (apply wellFormedb_spec; vm_compute; reflexivity).
  assert (Hp : produces (SN := cSearchNode (snd cNodeFullBoard))
                 (cSearchNodeGenerator (fst cNodeFullBoard)) true firstBlackStep)
    by (eapply produces_now; vm_compute; reflexivity).
  split; [exact Hwf|]. split; [exact Hp|].
  exact (steps_keep_nodes_well_formed _ _ _ _ Hwf Hp).
Defined.
